(** * Solver for the show "Are You the One?": a shallow embedding of solver.py

    The Python module enumerates the perfect matchings of a list of
    contestants, filters them by the lights observed each week, and derives
    probabilities, a next guess and a simulated number of guesses from the
    surviving list.  Each function of solver.py is translated below under its
    own name.

    - a contestant is a [string];
    - a Python [dict] is an association list in insertion order with unique
      keys ([dict_set] overwrites in place or appends);
    - a Python [set] of tuples is a duplicate-free list; the order of the list
      stands for the order in which the set is iterated;
    - an exception is the [Raise] outcome of [result]; a loop that the source
      does not bound runs on fuel and [OutOfFuel] is its third outcome;
    - [random.random()] is a stream of draws threaded through the calls. *)

From Stdlib Require Import String.
From Stdlib Require Import List ZArith Arith Lia Bool Permutation FinFun.
From Stdlib Require Import QArith DecimalString DecimalNat.
Import ListNotations.
Open Scope list_scope.
Open Scope Z_scope.

(** ** Exceptions and outcomes *)

Inductive exn : Type :=
| ValueError (msg : string)
| KeyError (key : string)
| IndexError
| ZeroDivisionError.

Inductive result (A : Type) : Type :=
| Ok (a : A)
| Raise (e : exn)
| OutOfFuel.

Arguments Ok {A} a.
Arguments Raise {A} e.
Arguments OutOfFuel {A}.

Definition bind {A B : Type} (m : result A) (k : A -> result B) : result B :=
  match m with
  | Ok a => k a
  | Raise e => Raise e
  | OutOfFuel => OutOfFuel
  end.

Declare Scope result_scope.
Delimit Scope result_scope with result.
Notation "'do' x <- m ; k" := (bind m (fun x => k))
  (at level 10, x pattern, m at level 100, k at level 200) : result_scope.
Open Scope result_scope.

(** [for x in l: acc = f(acc, x)] where the body may raise. *)
Fixpoint foldM {A B : Type} (f : A -> B -> result A) (l : list B) (a : A)
  : result A :=
  match l with
  | [] => Ok a
  | x :: l' => do a' <- f a x; foldM f l' a'
  end.

(** ** Lists, as Python uses them *)

Definition name := string.
Definition tuple : Type := (name * name)%type.

Definition name_eqb : name -> name -> bool := String.eqb.

Definition tuple_eqb (p q : tuple) : bool :=
  name_eqb (fst p) (fst q) && name_eqb (snd p) (snd q).

(** [x in l] *)
Fixpoint mem (x : name) (l : list name) : bool :=
  match l with
  | [] => false
  | y :: l' => name_eqb x y || mem x l'
  end.

Fixpoint tuple_mem (x : tuple) (l : list tuple) : bool :=
  match l with
  | [] => false
  | y :: l' => tuple_eqb x y || tuple_mem x l'
  end.

(** [l.remove(x)]: drops the first occurrence, [ValueError] when there is
    none. *)
Fixpoint list_remove (x : name) (l : list name) : result (list name) :=
  match l with
  | [] => Raise (ValueError "list.remove(x): x not in list")
  | y :: l' =>
      if name_eqb x y then Ok l'
      else do r <- list_remove x l'; Ok (y :: r)
  end.

(** [l.pop(i)]: the element at index [i] and the list without it,
    [IndexError] when [i] is out of range. *)
Fixpoint pop {A : Type} (i : nat) (l : list A) : result (A * list A) :=
  match l, i with
  | [], _ => Raise IndexError
  | x :: l', O => Ok (x, l')
  | x :: l', S i' => do r <- pop i' l'; Ok (fst r, x :: snd r)
  end.

(** [l[i]] *)
Definition index {A : Type} (l : list A) (i : nat) : result A :=
  match nth_error l i with
  | Some x => Ok x
  | None => Raise IndexError
  end.

(** ** Sets of tuples *)

Definition tset : Type := list tuple.

(** [s.add(x)] *)
Definition set_add (s : tset) (x : tuple) : tset :=
  if tuple_mem x s then s else s ++ [x].

(** [set(l)].  Python iterates a set of tuples of strings in the order of
    their hashes, which differs from run to run; the translation iterates
    it in the order of first occurrence in [l].  The statements about the
    generator are for every list [include], that is for every order. *)
Definition set_of_list (l : list tuple) : tset :=
  fold_left set_add l [].

(** ** Dictionaries *)

Definition dict : Type := list (name * name).

Definition keys (d : dict) : list name := map fst d.
Definition values (d : dict) : list name := map snd d.

Fixpoint lookup (d : dict) (k : name) : option name :=
  match d with
  | [] => None
  | (k', v) :: d' => if name_eqb k k' then Some v else lookup d' k
  end.

(** [d[k]] *)
Definition dict_get (d : dict) (k : name) : result name :=
  match lookup d k with
  | Some v => Ok v
  | None => Raise (KeyError k)
  end.

(** [d[k] = v] *)
Fixpoint dict_set (d : dict) (k v : name) : dict :=
  match d with
  | [] => [(k, v)]
  | (k', v') :: d' =>
      if name_eqb k k' then (k', v) :: d' else (k', v') :: dict_set d' k v
  end.

(** [dict(p)] for a set of tuples [p] *)
Definition dict_of (p : tset) : dict :=
  fold_left (fun d t => dict_set d (fst t) (snd t)) p [].

(** [set(a) != set(b)] compares the two collections as sets. *)
Definition subset (a b : list name) : bool := forallb (fun x => mem x b) a.
Definition same_set (a b : list name) : bool := subset a b && subset b a.

(** ** The feedback of the game *)

(** [_get_lights]: the keys of [guess] on which [guess] and [truth] agree,
    halved.  [truth[p]] raises [KeyError] on a key that [truth] lacks.
    [int(correct / 2)] of a count is its quotient by 2. *)
Definition _get_lights (guess truth : dict) : result Z :=
  do correct <-
     foldM (fun correct p =>
              do g <- dict_get guess p;
              do t <- dict_get truth p;
              Ok (if name_eqb g t then correct + 1 else correct))
           (keys guess) 0;
  Ok (correct / 2).

Definition _correct_number (guess truth : dict) (actually_correct : Z)
  : result bool :=
  do l <- _get_lights guess truth; Ok (l =? actually_correct).

(** ** The generator of matchings *)

(** [_weed_out_wrong_size]: keeps the sets of the largest size. *)
Definition max_len (lst : list tset) : nat :=
  fold_left (fun m s => Nat.max m (length s)) lst O.

Definition _weed_out_wrong_size (lst : list tset) : list tset :=
  if (length lst <=? 1)%nat then lst
  else
    let size := max_len lst in
    filter (fun s => (length s =? size)%nat) lst.

(** The first loop of [_get_all_possible_pairings]: the names of the known
    pairs leave [clone].  The second test reads [people], not [clone], so a
    name already gone makes [clone.remove] raise. *)
Fixpoint remove_known (people clone : list name) (include : tset)
  : result (list name) :=
  match include with
  | [] => Ok clone
  | (a, b) :: include' =>
      do clone1 <- (if mem a clone then list_remove a clone else Ok clone);
      do clone2 <- (if mem b people then list_remove b clone1 else Ok clone1);
      remove_known people clone2 include'
  end.

(** The last loop: every known pair joins every pairing, both ways round. *)
Definition add_known (include : tset) (p : tset) : tset :=
  fold_left (fun p t => set_add (set_add p (fst t, snd t)) (snd t, fst t))
            include p.

Definition in_exclusive_group (first_person other_person : name)
           (exclusive_groups : list (list name)) : bool :=
  existsb (fun g => mem first_person g && mem other_person g)
          exclusive_groups.

(** [pairings_fuel]: the body of [_get_all_possible_pairings]; [fuel] bounds
    the depth of the recursion. *)
Fixpoint pairings_fuel (fuel : nat) (people : list name)
         (include exclude : tset) (exclusive_groups : list (list name))
  : result (list tset) :=
  if (length people =? 0)%nat then Ok []
  else
    match fuel with
    | O => OutOfFuel
    | S fuel' =>
        do clone0 <- remove_known people people include;
        do fc <- pop 0 clone0;
        let first_person := fst fc in
        let clone := snd fc in
        do pairings <-
           foldM (fun pairings i =>
                    do on <- pop i clone;
                    let other_person := fst on in
                    let next_group := snd on in
                    if tuple_mem (first_person, other_person) exclude
                       || tuple_mem (other_person, first_person) exclude
                    then Ok pairings
                    else if in_exclusive_group first_person other_person
                                               exclusive_groups
                    then Ok pairings
                    else
                      do current_group <-
                         pairings_fuel fuel' next_group [] exclude
                                       exclusive_groups;
                      let current_group :=
                        _weed_out_wrong_size current_group in
                      let current_group :=
                        map (fun s =>
                               set_add
                                 (set_add s (first_person, other_person))
                                 (other_person, first_person))
                            current_group in
                      let current_group :=
                        if (length current_group =? 0)%nat
                        then [set_add
                                (set_add [] (first_person, other_person))
                                (other_person, first_person)]
                        else current_group in
                      Ok (pairings ++ current_group))
                 (seq 0 (length clone)) [];
        Ok (map (add_known include) pairings)
    end.

(** The recursion removes two names at each level, so the length of the
    list is fuel enough (see [pairings_fuel_enough]). *)
Definition _get_all_possible_pairings (people : list name)
           (include exclude : tset) (exclusive_groups : list (list name))
  : result (list tset) :=
  pairings_fuel (length people) people include exclude exclusive_groups.

(** ** Symmetry of a pairing given by the caller *)

(** The message of the source ends with the dictionary printed; the
    translation keeps the fixed part. *)
Definition not_symmetric : exn :=
  ValueError "The pairings are not symmetric".

(** The first loop of [_enforce_symmetric_pairing]: a partner seen before
    must point back.  It builds [symmetric_check] and changes nothing. *)
Definition symmetric_check_loop (pairing : dict) : result dict :=
  foldM (fun symmetric_check p =>
           do _ <-
              foldM (fun (_ : unit) k =>
                       do v <- dict_get symmetric_check k;
                       if negb (name_eqb v p) then Ok tt
                       else
                         do w <- dict_get pairing p;
                         if negb (name_eqb w k) then Raise not_symmetric
                         else Ok tt)
                    (keys symmetric_check) tt;
           do w <- dict_get pairing p;
           Ok (dict_set symmetric_check p w))
        (keys pairing) [].

(** The second loop, [pairing[pairing[k]] = k] over a snapshot of the keys:
    it writes into the caller's dictionary.  No key is ever deleted, so
    [pairing[k]] is always found. *)
Definition add_reverse (pairing : dict) : dict :=
  fold_left (fun d k =>
               match lookup d k with
               | Some v => dict_set d v k
               | None => d
               end)
            (keys pairing) pairing.

(** [_enforce_symmetric_pairing] returns nothing; its effect is on the
    dictionary it was given, so the translation returns the dictionary as
    the call leaves it, next to the outcome. *)
Definition _enforce_symmetric_pairing (pairing : dict)
  : dict * result unit :=
  match symmetric_check_loop pairing with
  | Ok _ =>
      let pairing' := add_reverse pairing in
      if negb (same_set (keys pairing') (values pairing'))
      then (pairing', Raise not_symmetric)
      else (pairing', Ok tt)
  | Raise e => (pairing, Raise e)
  | OutOfFuel => (pairing, OutOfFuel)
  end.

(** ** Validation of the inputs *)

(** [set(names)] *)
Definition dedup (l : list name) : list name :=
  fold_left (fun acc x => if mem x acc then acc else acc ++ [x]) l [].

(** The loop over [weekly_pairings]; the list it returns is the list of the
    caller's dictionaries after the loop. *)
Fixpoint validate_weeks (names : list name) (weekly_pairings : list dict)
  : list dict * result unit :=
  match weekly_pairings with
  | [] => ([], Ok tt)
  | d :: rest =>
      let (d', r) := _enforce_symmetric_pairing d in
      match r with
      | Ok _ =>
          match
            foldM (fun (_ : unit) k =>
                     do v <- dict_get d' k;
                     if negb (mem k names) || negb (mem v names)
                     then Raise
                            (ValueError "The lights data has an unknown name")
                     else Ok tt)
                  (keys d') tt
          with
          | Ok _ =>
              let (rest', r') := validate_weeks names rest in
              (d' :: rest', r')
          | Raise e => (d' :: rest, Raise e)
          | OutOfFuel => (d' :: rest, OutOfFuel)
          end
      | Raise e => (d' :: rest, Raise e)
      | OutOfFuel => (d' :: rest, OutOfFuel)
      end
  end.

Definition _validate_pairing_inputs (names : list name)
           (weekly_pairings : list dict) (lights : list Z)
           (not_match match_ : list tuple)
           (exclusive_groups : list (list name))
  : list dict * result unit :=
  if negb (length weekly_pairings =? length lights)%nat
  then (weekly_pairings,
        Raise (ValueError "There must be a number of lights for every week"))
  else if negb (length (dedup names) =? length names)%nat
  then (weekly_pairings, Raise (ValueError "All names must be unique"))
  else
    let (weekly_pairings', r) := validate_weeks names weekly_pairings in
    (weekly_pairings',
     do _ <- r;
     do _ <-
        foldM (fun (_ : unit) (t : tuple) =>
                 if negb (mem (fst t) names) || negb (mem (snd t) names)
                 then Raise
                        (ValueError
                           "The confirmed matches or not matches has an unknown name")
                 else Ok tt)
              (not_match ++ match_) tt;
     foldM (fun (_ : unit) s =>
              foldM (fun (_ : unit) n =>
                       if negb (mem n names)
                       then Raise
                              (ValueError
                                 "The exclusive groups have an unknown name")
                       else Ok tt)
                    s tt)
           exclusive_groups tt).

(** ** The possibilities left by the evidence *)

(** [[p for p in l if cond(p)]] where [cond] may raise *)
Definition filterM {A : Type} (f : A -> result bool) (l : list A)
  : result (list A) :=
  foldM (fun weeded p => do b <- f p; Ok (if b then weeded ++ [p] else weeded))
        l [].

(** [enumerate(l)] *)
Definition enumerate {A : Type} (l : list A) : list (nat * A) :=
  combine (seq 0 (length l)) l.

(** [current_possibilities] returns the surviving pairings; the first
    component is the caller's [weekly_pairings] as the call leaves it. *)
Definition current_possibilities (names : list name)
           (weekly_pairings : list dict) (lights : list Z)
           (not_match match_ : list tuple)
           (exclusive_groups : list (list name))
  : list dict * result (list dict) :=
  let (weekly_pairings', r) :=
    _validate_pairing_inputs names weekly_pairings lights not_match match_
                             exclusive_groups in
  (weekly_pairings',
   do _ <- r;
   do pairings <-
      _get_all_possible_pairings names (set_of_list match_)
                                 (set_of_list not_match) exclusive_groups;
   let pairings_dicts := map dict_of pairings in
   foldM (fun pairings_dicts (iw : nat * dict) =>
            filterM (fun p =>
                       do l <- index lights (fst iw);
                       _correct_number (snd iw) p l)
                    pairings_dicts)
         (enumerate weekly_pairings') pairings_dicts).

(** ** Probabilities *)

(** [probability_of]: the quotient is a Python float; the translation keeps
    the quotient of the two integers exact, as a rational, which stands for
    the float nearest to it.  The statements compare such quotients and
    never add them, as sums of floats are rounded at each step.  The
    division raises on an empty list. *)
Definition probability_of (pairings : list dict) (a b : name) : result Q :=
  do hits <-
     foldM (fun hits p =>
              do v <- dict_get p a;
              Ok (hits + (if name_eqb v b then 1 else 0)))
           pairings 0;
  match length pairings with
  | O => Raise ZeroDivisionError
  | S n => Ok (Qmake hits (Pos.of_succ_nat n))
  end.

(** [[f(x) for x in l]] where [f] may raise *)
Definition mapM {A B : Type} (f : A -> result B) (l : list A)
  : result (list B) :=
  foldM (fun acc x => do y <- f x; Ok (acc ++ [y])) l [].

Definition get_probability_matrix (pairings : list dict)
  : result (list (name * list (name * Q))) :=
  if (length pairings =? 0)%nat
  then Raise (ValueError "There must be at least one pairing")
  else
    do first <- index pairings 0;
    let names := keys first in
    mapM (fun n1 =>
            do row <-
               mapM (fun n2 =>
                       do pr <- probability_of pairings n1 n2; Ok (n2, pr))
                    names;
            Ok (n1, row))
         names.

(** ** Random draws *)

(** The generator is a stream of draws and a position in it.  The source
    only ever uses [int(random.random() * n)], an index below [n] (and 0
    when [n] is 0); a draw taken modulo [n] stands for it. *)
Record rng : Type := { draws : nat -> nat; pos : nat }.

Definition randindex (n : nat) (g : rng) : nat * rng :=
  ((if (n =? 0)%nat then O else Nat.modulo (draws g (pos g)) n),
   {| draws := draws g; pos := S (pos g) |}).

(** ** The next guess *)

Definition range (n : nat) : list nat := seq 0 n.

Definition Z_of_bool (b : bool) : Z := if b then 1 else 0.

(** The [else] branch: every pairing of the list is a truth. *)
Definition exact_size (pairings : list dict) (p : dict)
           (n_contestants : nat) : result Z :=
  foldM (fun total k =>
           do m <-
              foldM (fun m other_pairing =>
                       do b <- _correct_number p other_pairing (Z.of_nat k);
                       Ok (m + Z_of_bool b))
                    pairings 0;
           Ok (total + m ^ 2))
        (range (n_contestants / 2 + 1)) 0.

(** The [if sample] branch: [sample] truths drawn from the list. *)
Definition sampled_size (pairings : list dict) (p : dict)
           (n_contestants : nat) (sample : Z) (g : rng) : result (Z * rng) :=
  foldM (fun (tg : Z * rng) k =>
           do mg <-
              foldM (fun (mg : Z * rng) (_ : nat) =>
                       let (i, g') := randindex (length pairings) (snd mg) in
                       do truth <- index pairings i;
                       do b <- _correct_number p truth (Z.of_nat k);
                       Ok (fst mg + Z_of_bool b, g'))
                    (range (Z.to_nat sample)) (0, snd tg);
           Ok (fst tg + fst mg ^ 2, snd mg))
        (range (n_contestants / 2 + 1)) (0, g).

(** [if sample:] holds for an integer other than 0. *)
Definition truthy (sample : option Z) : bool :=
  match sample with
  | Some z => negb (z =? 0)
  | None => false
  end.

(** [expected_size < min_lights], where [None] is [float('inf')]. *)
Definition below (expected_size : Z) (min_lights : option Z) : bool :=
  match min_lights with
  | None => true
  | Some m => expected_size <? m
  end.

Definition get_optimal_pairing (pairings : list dict) (sample : option Z)
           (g : rng) : result (option dict * rng) :=
  if (length pairings <? 1)%nat
  then Raise (ValueError "There must be at least one possible pairing")
  else
    do first <- index pairings 0;
    let n_contestants := length first in
    do st <-
       foldM (fun (st : option Z * option dict * rng) p =>
                let min_lights := fst (fst st) in
                let min_pairing := snd (fst st) in
                do eg <-
                   (if truthy sample
                    then sampled_size pairings p n_contestants
                                      (match sample with
                                       | Some z => z
                                       | None => 0
                                       end)
                                      (snd st)
                    else do e <- exact_size pairings p n_contestants;
                         Ok (e, snd st));
                if below (fst eg) min_lights
                then Ok (Some (fst eg), Some p, snd eg)
                else Ok (min_lights, min_pairing, snd eg))
             pairings (None, None, g);
    Ok (snd (fst st), snd st).

(** ** The simulation *)

(** The loop of [_generate_random_pairing]: it pops two names a round, so
    the length of [names] is fuel enough (see
    [generate_random_pairing_fuel_enough]). *)
Fixpoint random_pairing_loop (fuel : nat) (people : list name) (pairs : dict)
         (g : rng) : result (dict * rng) :=
  if negb (0 <? length people)%nat then Ok (pairs, g)
  else
    match fuel with
    | O => OutOfFuel
    | S fuel' =>
        let (i, g1) := randindex (length people) g in
        do ap <- pop i people;
        let (j, g2) := randindex (length (snd ap)) g1 in
        do bp <- pop j (snd ap);
        let a := fst ap in
        let b := fst bp in
        random_pairing_loop fuel' (snd bp)
                            (dict_set (dict_set pairs a b) b a) g2
    end.

Definition _generate_random_pairing (names : list name) (g : rng)
  : result (dict * rng) :=
  random_pairing_loop (length names) names [] g.

(** [str(i)] *)
Definition str (i : nat) : name := NilEmpty.string_of_uint (Nat.to_uint i).

(** Replaces the element at index [i]: [guess] is an element of the list,
    and what [_enforce_symmetric_pairing] writes into it is seen through the
    list. *)
Fixpoint replace_at {A : Type} (i : nat) (x : A) (l : list A) : list A :=
  match l, i with
  | [], _ => []
  | _ :: l', O => x :: l'
  | y :: l', S i' => y :: replace_at i' x l'
  end.

(** The [while] loop of [n_guesses].  Nothing in the source bounds it, so it
    runs on [fuel]. *)
Fixpoint guess_loop (fuel : nat) (truth : dict)
         (possibilities_dicts : list dict) (guesses : Z) (g : rng)
  : result (list dict * Z * rng) :=
  if negb (1 <? length possibilities_dicts)%nat
  then Ok (possibilities_dicts, guesses, g)
  else
    match fuel with
    | O => OutOfFuel
    | S fuel' =>
        let (i, g') := randindex (length possibilities_dicts) g in
        do guess0 <- index possibilities_dicts i;
        let (guess, r) := _enforce_symmetric_pairing guess0 in
        let possibilities_dicts := replace_at i guess possibilities_dicts in
        do _ <- r;
        do lights <- _get_lights guess truth;
        do weeded <-
           filterM (fun p => _correct_number guess p lights)
                   possibilities_dicts;
        guess_loop fuel' truth weeded (guesses + 1) g'
    end.

Definition n_guesses (fuel : nat) (contestants : nat) (g : rng)
  : result Z :=
  let names := map str (range contestants) in
  do tg <- _generate_random_pairing names g;
  let (truth, r) := _enforce_symmetric_pairing (fst tg) in
  do _ <- r;
  do possibilities <- _get_all_possible_pairings names [] [] [];
  let possibilities_dicts := map dict_of possibilities in
  do st <- guess_loop fuel truth possibilities_dicts 0 (snd tg);
  do _ <- index (fst (fst st)) 0;
  Ok (snd (fst st)).

(** ** The average of several simulations *)

(** [n_guesses], with the generator as the call leaves it: the next call
    draws from there. *)
Definition n_guesses_draws (fuel : nat) (contestants : nat) (g : rng)
  : result (Z * rng) :=
  let names := map str (range contestants) in
  do tg <- _generate_random_pairing names g;
  let (truth, r) := _enforce_symmetric_pairing (fst tg) in
  do _ <- r;
  do possibilities <- _get_all_possible_pairings names [] [] [];
  let possibilities_dicts := map dict_of possibilities in
  do st <- guess_loop fuel truth possibilities_dicts 0 (snd tg);
  do _ <- index (fst (fst st)) 0;
  Ok (snd (fst st), snd st).

(** [average_n_guesses]: [n] calls of [n_guesses], one after the other, and
    the quotient of their sum by [n], kept exact.  [fuel] bounds the loop of
    each call. *)
Definition average_n_guesses (fuel : nat) (contestants : nat) (n : Z)
           (g : rng) : result (Q * rng) :=
  do tg <-
     foldM (fun (tg : Z * rng) (_ : nat) =>
              do rg <- n_guesses_draws fuel contestants (snd tg);
              Ok (fst tg + fst rg, snd rg))
           (range (Z.to_nat n)) (0, g);
  if n =? 0 then Raise ZeroDivisionError
  else Ok ((inject_Z (fst tg) / inject_Z n)%Q, snd tg).

(** * The vocabulary of the statements *)

(** A valid matching over [names]: a dictionary whose keys are the names,
    each once, that sends every name to another name and back. *)
Definition perfect_matching (names : list name) (d : dict) : Prop :=
  NoDup (keys d) /\
  (forall x, In x (keys d) <-> In x names) /\
  (forall a b, lookup d a = Some b -> lookup d b = Some a) /\
  (forall a, lookup d a <> Some a).

(** A dictionary that holds both directions of each of its pairs. *)
Definition symmetric (d : dict) : Prop :=
  forall a b, lookup d a = Some b -> lookup d b = Some a.

(** A dictionary in which every name that has a partner is the partner of
    its partner, and nobody is their own. *)
Definition partial_matching (d : dict) : Prop :=
  NoDup (keys d) /\ symmetric d /\ (forall a, lookup d a <> Some a).

(** Two dictionaries that answer every key alike. *)
Definition agree (d1 d2 : dict) : Prop :=
  forall k, lookup d1 k = lookup d2 k.

(** The keys on which [guess] and [truth] agree. *)
Definition agrees_on (guess truth : dict) (p : name) : bool :=
  match lookup guess p, lookup truth p with
  | Some a, Some b => name_eqb a b
  | _, _ => false
  end.

(** The feedback of guess [g] against truth [t] is [k]. *)
Definition scores (g t : dict) (k : Z) : bool :=
  match _get_lights g t with
  | Ok l => l =? k
  | _ => false
  end.

(** [m(g, k)]: the number of candidates [t] whose feedback against [g] is
    [k]. *)
Definition bucket (pairings : list dict) (g : dict) (k : nat) : Z :=
  Z.of_nat (length (filter (fun t => scores g t (Z.of_nat k)) pairings)).

(** The sum of [m(g, k)^2] for [k] from 0 to [n / 2]. *)
Definition objective (pairings : list dict) (n : nat) (g : dict) : Z :=
  fold_right (fun k acc => bucket pairings g k ^ 2 + acc) 0
             (range (n / 2 + 1)).

(** Every pairing of the list has the keys of every other. *)
Definition same_keys (pairings : list dict) : Prop :=
  forall p t, In p pairings -> In t pairings ->
              forall k, In k (keys p) -> In k (keys t).

(** The state of the loop of [get_optimal_pairing] after the pairings of
    [pre]: the first pairing of least objective so far. *)
Definition least_of (pairings : list dict) (n : nat) (g : rng)
           (pre : list dict) (st : option Z * option dict * rng) : Prop :=
  snd st = g /\
  ((pre = [] /\ fst st = (None, None)) \/
   exists i best,
     nth_error pre i = Some best /\
     fst st = (Some (objective pairings n best), Some best) /\
     (forall j q, nth_error pre j = Some q ->
                  objective pairings n best <= objective pairings n q) /\
     (forall j q, (j < i)%nat -> nth_error pre j = Some q ->
                  objective pairings n best < objective pairings n q)).

(** The pairing [s] with the pair of [x] and [o], both ways round. *)
Definition with_pair (x o : name) (s : dict) : dict :=
  s ++ [(x, o); (o, x)].

(** The matching [M] without the names [x] and [o]. *)
Definition without_pair (x o : name) (M : dict) : dict :=
  filter (fun kv => negb (name_eqb (fst kv) x) && negb (name_eqb (fst kv) o))
         M.

(** The number of perfect matchings of [2 * h] names:
    [(2h - 1) * (2h - 3) * ... * 1]. *)
Fixpoint matchings_count (h : nat) : nat :=
  match h with
  | O => 1
  | S h' => (2 * h' + 1) * matchings_count h'
  end.

(** No two dictionaries of the list agree. *)
Fixpoint distinct (l : list dict) : Prop :=
  match l with
  | [] => True
  | d :: l' => (forall d', In d' l' -> ~ agree d d') /\ distinct l'
  end.

(** Every perfect matching of [people] agrees with a member of the list. *)
Definition complete (people : list name) (L : list dict) : Prop :=
  forall M, perfect_matching people M -> exists s, In s L /\ agree s M.

(** [L] holds each perfect matching of the [2 * h] names of [people]
    exactly once. *)
Definition enumerates (h : nat) (people : list name) (L : list dict)
  : Prop :=
  length L = matchings_count h /\
  Forall (perfect_matching people) L /\
  distinct L /\
  complete people L.

(** The pairings of [people] that a call stands for: a call on nobody
    returns the empty list, which its caller reads as the one empty
    pairing. *)
Definition read_as (people : list name) (l : list tset) : list dict :=
  match people with
  | [] => [[]]
  | _ :: _ => l
  end.

(** One round of the loop over the partners of [first_person]; [rec] is the
    recursive call. *)
Definition partner_round (rec : list name -> result (list tset))
           (first_person : name) (clone : list name) (exclude : tset)
           (exclusive_groups : list (list name))
           (pairings : list tset) (i : nat) : result (list tset) :=
  do on <- pop i clone;
  let other_person := fst on in
  let next_group := snd on in
  if tuple_mem (first_person, other_person) exclude
     || tuple_mem (other_person, first_person) exclude
  then Ok pairings
  else if in_exclusive_group first_person other_person exclusive_groups
  then Ok pairings
  else
    do current_group <- rec next_group;
    let current_group := _weed_out_wrong_size current_group in
    let current_group :=
      map (fun s =>
             set_add (set_add s (first_person, other_person))
                     (other_person, first_person))
          current_group in
    let current_group :=
      if (length current_group =? 0)%nat
      then [set_add (set_add [] (first_person, other_person))
                    (other_person, first_person)]
      else current_group in
    Ok (pairings ++ current_group).

(** The state of the loop over the partners of [x] after [j] rounds. *)
Definition rounds_done (x : name) (clone : list name) (h : nat) (j : nat)
           (pairings : list dict) : Prop :=
  length pairings = (j * matchings_count h)%nat /\
  Forall (perfect_matching (x :: clone)) pairings /\
  distinct pairings /\
  (forall s, In s pairings ->
             exists i, (i < j)%nat /\ lookup s x = nth_error clone i) /\
  (forall M i, perfect_matching (x :: clone) M -> (i < j)%nat ->
               lookup M x = nth_error clone i ->
               exists s, In s pairings /\ agree s M).

(** What the loop of [n_guesses] keeps of its list: perfect matchings of
    the names, no two of which agree, one of which agrees with the truth. *)
Definition candidates (names : list name) (truth : dict) (pd : list dict)
  : Prop :=
  Forall (perfect_matching names) pd /\
  distinct pd /\
  exists p, In p pd /\ agree p truth.

(** Small inputs on which the statements are tried. *)
Definition ab_names : list name := ["A"; "B"]%string.

Definition ab_guess : dict := [("A", "B"); ("B", "A")]%string.

Definition abcd_pairings : list dict :=
  [[("C", "D"); ("D", "C"); ("A", "B"); ("B", "A")];
   [("B", "D"); ("D", "B"); ("A", "C"); ("C", "A")];
   [("B", "C"); ("C", "B"); ("A", "D"); ("D", "A")]]%string.

Definition no_draw : rng := {| draws := fun _ => O; pos := O |}.

(** One round of the second loop. *)
Definition reverse_step (d : dict) (k : name) : dict :=
  match lookup d k with
  | Some v => dict_set d v k
  | None => d
  end.

(** The keys that the rounds for [l] read or write, starting from [d]. *)
Fixpoint touched (l : list name) (d : dict) : list name :=
  match l with
  | [] => []
  | k :: l' =>
      match lookup d k with
      | Some v => k :: v :: touched l' (dict_set d v k)
      | None => k :: touched l' d
      end
  end.

(** No two keys of [d] have the same value. *)
Definition injective (d : dict) : Prop :=
  forall x y z, lookup d x = Some z -> lookup d y = Some z -> x = y.

(** The pairs of [d], the other way round. *)
Definition reversed (d : dict) : dict := map (fun kv => (snd kv, fst kv)) d.

(** [a] and [b] may be paired: the pair is not excluded, either way round,
    and no exclusive group holds both names. *)
Definition allowed (exclude : tset) (exclusive_groups : list (list name))
           (a b : name) : Prop :=
  tuple_mem (a, b) exclude = false /\
  tuple_mem (b, a) exclude = false /\
  in_exclusive_group a b exclusive_groups = false.

(** Every pair of [m] is in [m] both ways round, and is an allowed pair of
    names of [people]. *)
Definition sound_pairing (people : list name) (exclude : tset)
           (exclusive_groups : list (list name)) (m : tset) : Prop :=
  forall a b, In (a, b) m ->
              In (b, a) m /\ In a people /\ In b people /\
              allowed exclude exclusive_groups a b.

(** The names of the known pairs, in order. *)
Definition names_of (include : tset) : list name :=
  flat_map (fun t => [fst t; snd t]) include.

(** The pairing [p] pairs [a] with [b]. *)
Definition partner_is (a b : name) (p : dict) : bool :=
  match lookup p a with
  | Some v => name_eqb v b
  | None => false
  end.


(** * Basic facts *)

Section Basics.

Lemma name_eqb_eq (a b : name) : name_eqb a b = true <-> a = b.
Proof. apply String.eqb_eq. Qed.

Lemma name_eqb_refl (a : name) : name_eqb a a = true.
Proof. apply String.eqb_refl. Qed.

Lemma name_eqb_neq (a b : name) : name_eqb a b = false <-> a <> b.
Proof. apply String.eqb_neq. Qed.

Lemma tuple_eqb_eq (p q : tuple) : tuple_eqb p q = true <-> p = q.
Proof.
  destruct p as [a b], q as [c d]; unfold tuple_eqb; simpl.
  rewrite andb_true_iff, !name_eqb_eq.
  split; [intros [-> ->]; reflexivity | intros H; inversion H; auto].
Qed.

Lemma mem_In (x : name) (l : list name) : mem x l = true <-> In x l.
Proof.
  induction l as [|y l IH]; simpl.
  - split; [discriminate | tauto].
  - rewrite orb_true_iff, name_eqb_eq, IH.
    split; (intros [H|H]; [left; congruence | right; exact H]).
Qed.

Lemma tuple_mem_In (x : tuple) (l : list tuple) :
  tuple_mem x l = true <-> In x l.
Proof.
  induction l as [|y l IH]; simpl.
  - split; [discriminate | tauto].
  - rewrite orb_true_iff, tuple_eqb_eq, IH.
    split; (intros [H|H]; [left; congruence | right; exact H]).
Qed.

Lemma tuple_mem_not_In (x : tuple) (l : list tuple) :
  tuple_mem x l = false <-> ~ In x l.
Proof.
  rewrite <- tuple_mem_In. destruct (tuple_mem x l); split; congruence.
Qed.

End Basics.

(** * Loops that do not raise *)

Lemma foldM_ok_ind {A B : Type} (f : A -> B -> result A) (I : A -> Prop)
      (l : list B) (a : A) :
  I a ->
  (forall a x, In x l -> I a -> exists a', f a x = Ok a' /\ I a') ->
  exists a', foldM f l a = Ok a' /\ I a'.
Proof.
  revert a. induction l as [|x l IH]; intros a Ha Hstep; simpl.
  - eauto.
  - destruct (Hstep a x (or_introl eq_refl) Ha) as (a1 & E & Ha1).
    rewrite E; simpl. apply IH; auto.
    intros a2 y Hy. apply Hstep. right; exact Hy.
Qed.

(** * Dictionaries *)

Lemma lookup_In (d : dict) (k v : name) :
  lookup d k = Some v -> In (k, v) d.
Proof.
  induction d as [|[k' v'] d IH]; simpl; [discriminate|].
  destruct (name_eqb k k') eqn:E.
  - apply name_eqb_eq in E. intros H; inversion H; subst; auto.
  - auto.
Qed.

Lemma lookup_keys (d : dict) (k : name) :
  In k (keys d) <-> lookup d k <> None.
Proof.
  induction d as [|[k' v'] d IH]; simpl.
  - tauto.
  - destruct (name_eqb k k') eqn:E.
    + apply name_eqb_eq in E. split; [discriminate | auto].
    + apply name_eqb_neq in E. rewrite <- IH.
      split; [intros [H|H]; [congruence | exact H] | auto].
Qed.

Lemma lookup_keys_some (d : dict) (k : name) :
  In k (keys d) -> exists v, lookup d k = Some v.
Proof.
  intros H. apply lookup_keys in H.
  destruct (lookup d k) as [v|]; [eauto | congruence].
Qed.

Lemma In_lookup (d : dict) (k v : name) :
  NoDup (keys d) -> In (k, v) d -> lookup d k = Some v.
Proof.
  induction d as [|[k' v'] d IH]; simpl; [tauto|].
  intros Hnd [H|H].
  - inversion H; subst. rewrite name_eqb_refl. reflexivity.
  - inversion Hnd as [|? ? Hnot Hnd']; subst.
    destruct (name_eqb k k') eqn:E.
    + apply name_eqb_eq in E; subst. exfalso. apply Hnot.
      change k' with (fst (k', v)). apply in_map. exact H.
    + auto.
Qed.

Lemma dict_get_ok (d : dict) (k v : name) :
  lookup d k = Some v -> dict_get d k = Ok v.
Proof. unfold dict_get. intros ->. reflexivity. Qed.

Lemma lookup_dict_set (d : dict) (k v k' : name) :
  lookup (dict_set d k v) k' =
  if name_eqb k' k then Some v else lookup d k'.
Proof.
  induction d as [|[k0 v0] d IH]; simpl.
  - destruct (name_eqb k' k); reflexivity.
  - destruct (name_eqb k k0) eqn:E; simpl.
    + apply name_eqb_eq in E; subst.
      destruct (name_eqb k' k0); reflexivity.
    + rewrite IH. destruct (name_eqb k' k0) eqn:E'; auto.
      apply name_eqb_eq in E'; subst.
      rewrite String.eqb_sym in E. unfold name_eqb in *. rewrite E.
      reflexivity.
Qed.

Lemma dict_set_same (d : dict) (k v : name) :
  lookup d k = Some v -> dict_set d k v = d.
Proof.
  induction d as [|[k0 v0] d IH]; simpl; [discriminate|].
  destruct (name_eqb k k0) eqn:E.
  - intros H; inversion H; reflexivity.
  - intros H. rewrite IH; auto.
Qed.

Lemma dict_set_fresh (d : dict) (k v : name) :
  ~ In k (keys d) -> dict_set d k v = d ++ [(k, v)].
Proof.
  induction d as [|[k0 v0] d IH]; simpl; [reflexivity|].
  intros H. destruct (name_eqb k k0) eqn:E.
  - apply name_eqb_eq in E. exfalso; auto.
  - rewrite IH; auto.
Qed.

Lemma lookup_app (d1 d2 : dict) (k : name) :
  lookup (d1 ++ d2) k =
  match lookup d1 k with Some v => Some v | None => lookup d2 k end.
Proof.
  induction d1 as [|[k0 v0] d1 IH]; simpl; [reflexivity|].
  destruct (name_eqb k k0); auto.
Qed.

(** * [_get_lights] of a pairing with itself *)

Lemma lights_self_loop (guess : dict) (l : list name) (correct : Z) :
  (forall p, In p l -> In p (keys guess)) ->
  foldM (fun correct p =>
           do g <- dict_get guess p;
           do t <- dict_get guess p;
           Ok (if name_eqb g t then correct + 1 else correct))
        l correct
  = Ok (correct + Z.of_nat (length l)).
Proof.
  revert correct. induction l as [|p l IH]; intros correct Hl; simpl.
  - f_equal. lia.
  - destruct (lookup_keys_some guess p) as [v Hv]; [apply Hl; simpl; auto|].
    rewrite (dict_get_ok _ _ _ Hv); simpl. rewrite name_eqb_refl.
    rewrite IH; [|intros; apply Hl; simpl; auto].
    f_equal. lia.
Qed.

Lemma get_lights_self (guess : dict) :
  _get_lights guess guess = Ok (Z.of_nat (length guess) / 2).
Proof.
  unfold _get_lights. rewrite lights_self_loop; [|auto].
  simpl. unfold keys. rewrite length_map. reflexivity.
Qed.

Lemma perfect_matching_length (names : list name) (d : dict) :
  NoDup names -> perfect_matching names d -> length d = length names.
Proof.
  intros Hn (Hk & Hin & _).
  assert (P : Permutation (keys d) names) by (apply NoDup_Permutation; auto).
  apply Permutation_length in P. unfold keys in P.
  rewrite length_map in P. exact P.
Qed.

(** C8. For every valid symmetric matching [guess] over the [n] names of
    [names], [_get_lights guess guess] returns exactly [n / 2]. *)
Theorem get_lights_self_maximum (names : list name) (guess : dict) :
  NoDup names ->
  perfect_matching names guess ->
  _get_lights guess guess = Ok (Z.of_nat (length names) / 2).
Proof.
  intros Hn Hp. rewrite get_lights_self.
  rewrite (perfect_matching_length _ _ Hn Hp). reflexivity.
Qed.

Lemma ab_guess_perfect : perfect_matching ab_names ab_guess.
Proof.
  unfold perfect_matching, ab_names, ab_guess. simpl.
  repeat split.
  - repeat constructor; simpl; intuition discriminate.
  - tauto.
  - tauto.
  - intros a b.
    destruct (name_eqb a "A"%string) eqn:Ea.
    + apply name_eqb_eq in Ea; subst. intros H; inversion H; subst.
      reflexivity.
    + destruct (name_eqb a "B"%string) eqn:Eb; [|discriminate].
      apply name_eqb_eq in Eb; subst. intros H; inversion H; subst.
      reflexivity.
  - intros a.
    destruct (name_eqb a "A"%string) eqn:Ea.
    + apply name_eqb_eq in Ea; subst. discriminate.
    + destruct (name_eqb a "B"%string) eqn:Eb; [|discriminate].
      apply name_eqb_eq in Eb; subst. discriminate.
Qed.

Lemma get_lights_self_maximum_witness :
  _get_lights ab_guess ab_guess = Ok 1.
Proof.
  apply (get_lights_self_maximum ab_names).
  - repeat constructor; simpl; intuition discriminate.
  - exact ab_guess_perfect.
Defined.

(** * The generator: when it raises *)

Lemma pairings_fuel_S (fuel : nat) (people : list name)
      (include exclude : tset) (exclusive_groups : list (list name)) :
  pairings_fuel (S fuel) people include exclude exclusive_groups =
  if (length people =? 0)%nat then Ok []
  else
    do clone0 <- remove_known people people include;
    do fc <- pop 0 clone0;
    do pairings <-
       foldM (partner_round
                (fun next_group =>
                   pairings_fuel fuel next_group [] exclude exclusive_groups)
                (fst fc) (snd fc) exclude exclusive_groups)
             (seq 0 (length (snd fc))) [];
    Ok (map (add_known include) pairings).
Proof. reflexivity. Qed.

Lemma pop_length {A : Type} (i : nat) (l : list A) :
  (i < length l)%nat ->
  exists x l', pop i l = Ok (x, l') /\ S (length l') = length l.
Proof.
  revert i. induction l as [|y l IH]; intros i Hi; simpl in Hi; [lia|].
  destruct i as [|i].
  - exists y, l. split; reflexivity.
  - destruct (IH i) as (x & l' & E & Hl); [lia|].
    change (pop (S i) (y :: l))
      with (do r <- pop i l; Ok (fst r, y :: snd r)).
    rewrite E; simpl. exists x, (y :: l'). simpl. split; [reflexivity | lia].
Qed.

Lemma list_remove_length (x : name) (l l' : list name) :
  list_remove x l = Ok l' -> S (length l') = length l.
Proof.
  revert l'. induction l as [|y l IH]; intros l'; simpl; [discriminate|].
  destruct (name_eqb x y).
  - intros H; inversion H; reflexivity.
  - destruct (list_remove x l) as [r| |] eqn:E; simpl; try discriminate.
    intros H; inversion H; subst. simpl. rewrite (IH r); auto.
Qed.

Lemma list_remove_not_fuel (x : name) (l : list name) :
  list_remove x l <> OutOfFuel.
Proof.
  induction l as [|y l IH]; simpl; [discriminate|].
  destruct (name_eqb x y); [discriminate|].
  destruct (list_remove x l); simpl; congruence.
Qed.

Lemma remove_known_length (people : list name) (include : tset)
      (clone clone' : list name) :
  remove_known people clone include = Ok clone' ->
  (length clone' <= length clone)%nat.
Proof.
  revert clone. induction include as [|[a b] include IH]; intros clone; simpl.
  - intros H; inversion H; lia.
  - destruct (if mem a clone then list_remove a clone else Ok clone)
      as [c1| |] eqn:E1; simpl; try discriminate.
    destruct (if mem b people then list_remove b c1 else Ok c1)
      as [c2| |] eqn:E2; simpl; try discriminate.
    intros H. apply IH in H.
    assert (length c1 <= length clone)%nat.
    { destruct (mem a clone); [apply list_remove_length in E1; lia|].
      inversion E1; lia. }
    assert (length c2 <= length c1)%nat.
    { destruct (mem b people); [apply list_remove_length in E2; lia|].
      inversion E2; lia. }
    lia.
Qed.

Lemma remove_known_not_fuel (people : list name) (include : tset)
      (clone : list name) :
  remove_known people clone include <> OutOfFuel.
Proof.
  revert clone. induction include as [|[a b] include IH]; intros clone; simpl.
  - discriminate.
  - destruct (if mem a clone then list_remove a clone else Ok clone)
      as [c1| |] eqn:E1; simpl; try discriminate.
    + destruct (if mem b people then list_remove b c1 else Ok c1)
        as [c2| |] eqn:E2; simpl; try discriminate.
      * apply IH.
      * destruct (mem b people); [|discriminate].
        exfalso; exact (list_remove_not_fuel _ _ E2).
    + destruct (mem a clone); [|discriminate].
      exfalso; exact (list_remove_not_fuel _ _ E1).
Qed.

(** With no known pair, enough fuel always gives a list: the recursive
    calls never raise. *)
Lemma pairings_fuel_returns (fuel : nat) (exclude : tset)
      (exclusive_groups : list (list name)) (people : list name) :
  (length people <= fuel)%nat ->
  exists l, pairings_fuel fuel people [] exclude exclusive_groups = Ok l.
Proof.
  revert people. induction fuel as [|fuel IH]; intros people Hlen.
  - destruct people; [|simpl in Hlen; lia]. exists []. reflexivity.
  - destruct people as [|first clone].
    + exists []. reflexivity.
    + rewrite pairings_fuel_S. simpl.
      destruct (foldM_ok_ind
                  (partner_round
                     (fun next_group =>
                        pairings_fuel fuel next_group [] exclude
                                      exclusive_groups)
                     first clone exclude exclusive_groups)
                  (fun _ => True) (seq 0 (length clone)) [])
        as (l & E & _); [exact I| |].
      * intros a i Hi _. apply in_seq in Hi.
        destruct (pop_length i clone) as (o & ng & Ep & Hl); [lia|].
        unfold partner_round. rewrite Ep; simpl.
        destruct (_ || _); [eauto|].
        destruct (in_exclusive_group _ _ _); [eauto|].
        destruct (IH ng) as (cg & Ecg); [simpl in Hlen; lia|].
        rewrite Ecg; simpl. eauto.
      * rewrite E; simpl. eauto.
Qed.

Lemma set_add_In (s : tset) (x y : tuple) :
  In y (set_add s x) <-> In y s \/ y = x.
Proof.
  unfold set_add. destruct (tuple_mem x s) eqn:E.
  - apply tuple_mem_In in E. split; [auto | intros [H|H]; subst; auto].
  - rewrite in_app_iff. simpl. intuition.
Qed.

Lemma add_known_keeps (include : tset) (p : tset) (t : tuple) :
  In t p -> In t (add_known include p).
Proof.
  unfold add_known. revert p.
  induction include as [|[a b] include IH]; intros p H; simpl; [exact H|].
  apply IH. apply set_add_In. left. apply set_add_In. left. exact H.
Qed.

Lemma add_known_In (include : tset) (p : tset) (a b : name) :
  In (a, b) include ->
  In (a, b) (add_known include p) /\ In (b, a) (add_known include p).
Proof.
  unfold add_known. revert p.
  induction include as [|[a' b'] include IH]; intros p H; simpl in *;
    [tauto|].
  destruct H as [H|H].
  - inversion H; subst.
    split; apply (add_known_keeps include); apply set_add_In.
    + left. apply set_add_In. right. reflexivity.
    + right. reflexivity.
  - apply IH. exact H.
Qed.

(** What [_get_all_possible_pairings] does is settled by the first loop
    alone: it raises what the loop raises, raises [IndexError] when the loop
    leaves nobody, and returns otherwise. *)
Lemma pairings_outcome (people : list name) (include exclude : tset)
      (exclusive_groups : list (list name)) :
  people <> [] ->
  match remove_known people people include with
  | Ok (_ :: _) =>
      exists l,
        _get_all_possible_pairings people include exclude exclusive_groups
        = Ok l /\
        forall m, In m l -> forall a b, In (a, b) include ->
                                        In (a, b) m /\ In (b, a) m
  | Ok [] =>
      _get_all_possible_pairings people include exclude exclusive_groups
      = Raise IndexError
  | Raise e =>
      _get_all_possible_pairings people include exclude exclusive_groups
      = Raise e
  | OutOfFuel => False
  end.
Proof.
  intros Hp. unfold _get_all_possible_pairings.
  destruct people as [|p0 people']; [congruence|].
  set (people := p0 :: people') in *.
  change (length people) with (S (length people')).
  rewrite pairings_fuel_S.
  change (length people =? 0)%nat with false. cbv iota.
  destruct (remove_known people people include) as [clone0| |] eqn:E.
  - destruct clone0 as [|first clone]; simpl; [reflexivity|].
    apply remove_known_length in E. simpl in E.
    destruct (foldM_ok_ind
                (partner_round
                   (fun next_group =>
                      pairings_fuel (length people') next_group [] exclude
                                    exclusive_groups)
                   first clone exclude exclusive_groups)
                (fun _ => True) (seq 0 (length clone)) [])
      as (l & El & _); [exact I| |].
    + intros a i Hi _. apply in_seq in Hi.
      destruct (pop_length i clone) as (o & ng & Ep & Hl); [lia|].
      unfold partner_round. rewrite Ep; simpl.
      destruct (_ || _); [eauto|].
      destruct (in_exclusive_group _ _ _); [eauto|].
      destruct (pairings_fuel_returns (length people') exclude
                                      exclusive_groups ng) as (cg & Ecg);
        [lia|].
      rewrite Ecg; simpl. eauto.
    + rewrite El; simpl. eexists; split; [reflexivity|].
      intros m Hm a b Hab. apply in_map_iff in Hm.
      destruct Hm as (s & <- & _). apply add_known_In. exact Hab.
  - reflexivity.
  - exact (remove_known_not_fuel _ _ _ E).
Qed.

(** The length of [people] is fuel enough: the call never runs out. *)
Lemma pairings_fuel_enough (people : list name) (include exclude : tset)
      (exclusive_groups : list (list name)) :
  _get_all_possible_pairings people include exclude exclusive_groups
  <> OutOfFuel.
Proof.
  destruct people as [|p0 people']; [discriminate|].
  assert (Hp : p0 :: people' <> []) by discriminate.
  pose proof (pairings_outcome (p0 :: people') include exclude
                               exclusive_groups Hp) as H.
  destruct (remove_known (p0 :: people') (p0 :: people') include)
    as [[|first clone]| |].
  - rewrite H. discriminate.
  - destruct H as (l & E & _). rewrite E. discriminate.
  - rewrite H. discriminate.
  - contradiction.
Qed.

(** C2 (amended). When the number of names left after the known pairs are
    removed is odd, [_get_all_possible_pairings] does not raise: it returns
    a list. *)
Theorem odd_remaining_returns (people : list name) (include exclude : tset)
        (exclusive_groups : list (list name)) (clone : list name) :
  remove_known people people include = Ok clone ->
  Nat.odd (length clone) = true ->
  exists l,
    _get_all_possible_pairings people include exclude exclusive_groups
    = Ok l.
Proof.
  intros E Hodd.
  assert (Hp : people <> []).
  { intros ->. apply remove_known_length in E. simpl in E.
    destruct clone; [discriminate | simpl in E; lia]. }
  pose proof (pairings_outcome people include exclude exclusive_groups Hp)
    as H.
  rewrite E in H. destruct clone as [|first clone]; [discriminate|].
  destruct H as (l & El & _). eauto.
Qed.

Lemma odd_remaining_returns_witness :
  exists l,
    _get_all_possible_pairings ["A"; "B"; "C"; "D"; "E"]%string
                               [("A", "B")]%string [] [] = Ok l.
Proof.
  apply (odd_remaining_returns
           ["A"; "B"; "C"; "D"; "E"]%string [("A", "B")]%string [] []
           ["C"; "D"; "E"]%string); reflexivity.
Defined.

(** C2, as stated, fails on three names without constraints: the call
    returns two pairings, each without one of the names. *)
Lemma odd_count_not_detected :
  _get_all_possible_pairings ["A"; "B"; "C"]%string [] [] []
  = Ok [[("A", "B"); ("B", "A")]; [("A", "C"); ("C", "A")]]%string.
Proof. reflexivity. Qed.

(** C6 (amended). A known pair that is also excluded, or whose two names
    share an exclusive group, does not make the generator raise: whether it
    raises, and what, is the same for every [exclude] and every
    [exclusive_groups], and every pairing it returns holds every known pair,
    both ways round. *)
Theorem known_pairs_override (people : list name) (include exclude : tset)
        (exclusive_groups : list (list name)) :
  (forall e,
      _get_all_possible_pairings people include exclude exclusive_groups
      = Raise e <->
      _get_all_possible_pairings people include [] [] = Raise e) /\
  (forall l,
      _get_all_possible_pairings people include exclude exclusive_groups
      = Ok l ->
      forall m, In m l ->
                forall a b, In (a, b) include ->
                            In (a, b) m /\ In (b, a) m).
Proof.
  destruct people as [|p0 people'].
  - unfold _get_all_possible_pairings. simpl.
    split.
    + intros e; split; discriminate.
    + intros l H; inversion H; subst. intros m [].
  - assert (Hp : p0 :: people' <> []) by discriminate.
    pose proof (pairings_outcome (p0 :: people') include exclude
                                 exclusive_groups Hp) as H1.
    pose proof (pairings_outcome (p0 :: people') include [] [] Hp) as H2.
    destruct (remove_known (p0 :: people') (p0 :: people') include)
      as [[|first clone]| |].
    + rewrite H1, H2. split; [tauto|]. discriminate.
    + destruct H1 as (l1 & E1 & P1), H2 as (l2 & E2 & _).
      rewrite E1, E2. split.
      * intros e; split; discriminate.
      * intros l H; inversion H; subst. exact P1.
    + rewrite H1, H2. split; [tauto|]. discriminate.
    + contradiction.
Qed.

Lemma known_pairs_override_witness :
  In ("A", "B")%string
     [("C", "D"); ("D", "C"); ("A", "B"); ("B", "A")]%string /\
  In ("B", "A")%string
     [("C", "D"); ("D", "C"); ("A", "B"); ("B", "A")]%string.
Proof.
  apply (proj2 (known_pairs_override
                  ["A"; "B"; "C"; "D"]%string [("A", "B")]%string
                  [("A", "B")]%string [["A"; "B"]%string])
               [[("C", "D"); ("D", "C"); ("A", "B"); ("B", "A")]%string]).
  - reflexivity.
  - left; reflexivity.
  - left; reflexivity.
Defined.

(** C6, as stated, fails when the known pair (A, B) is also excluded and A
    and B share an exclusive group: the call returns one pairing. *)
Lemma conflict_not_detected :
  _get_all_possible_pairings ["A"; "B"; "C"; "D"]%string
                             [("A", "B")]%string [("A", "B")]%string
                             [["A"; "B"]%string]
  = Ok [[("C", "D"); ("D", "C"); ("A", "B"); ("B", "A")]%string].
Proof. reflexivity. Qed.

(** A name in two known pairs: the outcome depends on the order in which
    the set of known pairs is iterated. *)
Example known_twice_first_order :
  _get_all_possible_pairings ["A"; "B"; "C"; "D"]%string
                             [("A", "B"); ("B", "C")]%string [] []
  = Ok [].
Proof. reflexivity. Qed.

Example known_twice_other_order :
  _get_all_possible_pairings ["A"; "B"; "C"; "D"]%string
                             [("B", "C"); ("A", "B")]%string [] []
  = Raise (ValueError "list.remove(x): x not in list").
Proof. reflexivity. Qed.

(** C7 (amended). On an empty list of names, [_get_all_possible_pairings]
    returns the empty list, whatever the constraints; it is the caller one
    level up that makes a pairing of its own pair out of an empty result, as
    on two names. *)
Theorem empty_people_no_pairing (include exclude : tset)
        (exclusive_groups : list (list name)) (a b : name) :
  _get_all_possible_pairings [] include exclude exclusive_groups = Ok [] /\
  _get_all_possible_pairings [a; b] [] [] []
  = Ok [set_add (set_add [] (a, b)) (b, a)].
Proof.
  split; reflexivity.
Qed.

(** C7, as stated, fails: the result on the empty list is not the list of
    one empty pairing. *)
Lemma empty_people_not_one_matching :
  _get_all_possible_pairings [] [] [] [] <> Ok [[]].
Proof. discriminate. Qed.

(** C3. On an empty list of pairings [get_probability_matrix] raises the
    error it names, and [probability_of] raises the [ZeroDivisionError] of
    its division. *)
Theorem empty_pairings_errors (a b : name) :
  probability_of [] a b = Raise ZeroDivisionError /\
  get_probability_matrix []
  = Raise (ValueError "There must be at least one pairing").
Proof. split; reflexivity. Qed.

(** C1. Four names and one excluded pair, (C, D): the first pairing that
    [current_possibilities] returns has no partner for C or D. *)
Theorem excluded_pair_partial_pairing :
  current_possibilities ["A"; "B"; "C"; "D"]%string [] []
                        [("C", "D")]%string [] []
  = ([],
     Ok [[("A", "B"); ("B", "A")];
         [("B", "D"); ("D", "B"); ("A", "C"); ("C", "A")];
         [("B", "C"); ("C", "B"); ("A", "D"); ("D", "A")]]%string) /\
  lookup [("A", "B"); ("B", "A")]%string "C"%string = None /\
  ~ perfect_matching ["A"; "B"; "C"; "D"]%string
                     [("A", "B"); ("B", "A")]%string.
Proof.
  split; [reflexivity|]. split; [reflexivity|].
  intros (_ & Hk & _). specialize (Hk "C"%string). simpl in Hk.
  assert (H : "A"%string = "C"%string \/ "B"%string = "C"%string \/ False)
    by (apply Hk; auto).
  destruct H as [H|[H|[]]]; discriminate.
Qed.

(** * What [current_possibilities] writes into [weekly_pairings] *)

Lemma add_reverse_loop_symmetric (d : dict) (l : list name) :
  symmetric d ->
  fold_left (fun d k =>
               match lookup d k with
               | Some v => dict_set d v k
               | None => d
               end) l d = d.
Proof.
  intros Hs. induction l as [|k l IH]; simpl; [reflexivity|].
  destruct (lookup d k) as [v|] eqn:E; [|exact IH].
  rewrite (dict_set_same d v k (Hs _ _ E)). exact IH.
Qed.

Lemma add_reverse_symmetric (d : dict) : symmetric d -> add_reverse d = d.
Proof. intros Hs. apply add_reverse_loop_symmetric. exact Hs. Qed.





(** * The next guess *)

(** ** The exact branch computes the objective *)

Lemma get_lights_returns (guess truth : dict) :
  (forall k, In k (keys guess) -> In k (keys truth)) ->
  exists l, _get_lights guess truth = Ok l.
Proof.
  intros Hk. unfold _get_lights.
  destruct (foldM_ok_ind
              (fun correct p =>
                 do g <- dict_get guess p;
                 do t <- dict_get truth p;
                 Ok (if name_eqb g t then correct + 1 else correct))
              (fun _ => True) (keys guess) 0) as (c & E & _); [exact I| |].
  - intros a p Hp _.
    destruct (lookup_keys_some guess p Hp) as (v & Hv).
    destruct (lookup_keys_some truth p (Hk p Hp)) as (w & Hw).
    rewrite (dict_get_ok _ _ _ Hv), (dict_get_ok _ _ _ Hw). simpl. eauto.
  - rewrite E. simpl. eauto.
Qed.

Lemma bucket_loop (p : dict) (k : nat) (l : list dict) (m0 : Z) :
  (forall t, In t l -> exists s, _get_lights p t = Ok s) ->
  foldM (fun m other_pairing =>
           do b <- _correct_number p other_pairing (Z.of_nat k);
           Ok (m + Z_of_bool b))
        l m0
  = Ok (m0 + bucket l p k).
Proof.
  unfold bucket. revert m0.
  induction l as [|t l IH]; intros m0 Hl; simpl.
  - f_equal. lia.
  - destruct (Hl t (or_introl eq_refl)) as (s & Es).
    unfold _correct_number at 1, scores at 1. rewrite Es. simpl.
    rewrite IH; [|intros; apply Hl; right; assumption].
    f_equal. destruct (s =? Z.of_nat k); simpl Z_of_bool; simpl length; lia.
Qed.

Lemma exact_size_loop (pairings : list dict) (p : dict) (ks : list nat)
      (total : Z) :
  (forall t, In t pairings -> exists s, _get_lights p t = Ok s) ->
  foldM (fun total k =>
           do m <-
              foldM (fun m other_pairing =>
                       do b <- _correct_number p other_pairing (Z.of_nat k);
                       Ok (m + Z_of_bool b))
                    pairings 0;
           Ok (total + m ^ 2))
        ks total
  = Ok (total + fold_right (fun k acc => bucket pairings p k ^ 2 + acc) 0 ks).
Proof.
  intros Hl. revert total.
  induction ks as [|k ks IH]; intros total; cbn [foldM fold_right].
  - f_equal. lia.
  - rewrite (bucket_loop p k pairings 0 Hl). cbn [bind].
    rewrite IH. f_equal. rewrite Z.add_0_l. lia.
Qed.

(** The exact branch computes the objective of the specification. *)
Lemma exact_size_objective (pairings : list dict) (p : dict) (n : nat) :
  (forall t, In t pairings -> exists s, _get_lights p t = Ok s) ->
  exact_size pairings p n = Ok (objective pairings n p).
Proof.
  intros Hl. unfold exact_size, objective.
  rewrite (exact_size_loop pairings p _ 0 Hl). reflexivity.
Qed.

(** ** The loop keeps the first pairing of least objective *)

Section ArgMin.

Variable pairings : list dict.
Variable n : nat.
Variable g : rng.
Hypothesis Hkeys : same_keys pairings.

Let step (st : option Z * option dict * rng) (p : dict) :=
  let min_lights := fst (fst st) in
  let min_pairing := snd (fst st) in
  do eg <- (do e <- exact_size pairings p n; Ok (e, snd st));
  if below (fst eg) min_lights
  then Ok (Some (fst eg), Some p, snd eg)
  else Ok (min_lights, min_pairing, snd eg).

Lemma least_of_step (pre : list dict) (p : dict)
      (st : option Z * option dict * rng) :
  In p pairings ->
  least_of pairings n g pre st ->
  exists st', step st p = Ok st' /\ least_of pairings n g (pre ++ [p]) st'.
Proof.
  intros Hp (Hg & Hst). unfold step.
  rewrite (exact_size_objective pairings p n)
    by (intros t Ht; apply get_lights_returns; apply Hkeys; auto).
  simpl bind.
  destruct st as [[ml mp] g']. simpl in Hg. subst g'. simpl fst; simpl snd.
  destruct Hst as [[-> Hnone] | (i & best & Hi & Hbest & Hle & Hlt)].
  - simpl in Hnone. inversion Hnone; subst. simpl below. cbv iota.
    eexists; split; [reflexivity|]. split; [reflexivity|]. right.
    exists O, p. simpl. repeat split.
    + intros [|[|j]] q Hq; simpl in Hq; inversion Hq; subst; lia.
    + intros j q Hj; lia.
  - simpl in Hbest. inversion Hbest; subst ml mp. simpl below.
    assert (Hlen : (i < length pre)%nat)
      by (apply nth_error_Some; congruence).
    destruct (objective pairings n p <? objective pairings n best) eqn:Elt.
    + apply Z.ltb_lt in Elt.
      eexists; split; [reflexivity|]. split; [reflexivity|]. right.
      exists (length pre), p. repeat split.
      * rewrite nth_error_app2 by lia. rewrite Nat.sub_diag. reflexivity.
      * intros j q Hq.
        destruct (Nat.lt_ge_cases j (length pre)) as [Hj|Hj].
        -- rewrite nth_error_app1 in Hq by exact Hj.
           specialize (Hle j q Hq). lia.
        -- rewrite nth_error_app2 in Hq by exact Hj.
           destruct (j - length pre)%nat as [|[|?]]; simpl in Hq;
             inversion Hq; subst; lia.
      * intros j q Hj Hq. rewrite nth_error_app1 in Hq by exact Hj.
        specialize (Hle j q Hq). lia.
    + apply Z.ltb_ge in Elt.
      eexists; split; [reflexivity|]. split; [reflexivity|]. right.
      exists i, best. repeat split.
      * rewrite nth_error_app1 by exact Hlen. exact Hi.
      * intros j q Hq.
        destruct (Nat.lt_ge_cases j (length pre)) as [Hj|Hj].
        -- rewrite nth_error_app1 in Hq by exact Hj. exact (Hle j q Hq).
        -- rewrite nth_error_app2 in Hq by exact Hj.
           destruct (j - length pre)%nat as [|[|?]]; simpl in Hq;
             inversion Hq; subst; lia.
      * intros j q Hj Hq.
        rewrite nth_error_app1 in Hq by lia. exact (Hlt j q Hj Hq).
Qed.

Lemma least_of_loop (l pre : list dict)
      (st : option Z * option dict * rng) :
  (forall p, In p l -> In p pairings) ->
  least_of pairings n g pre st ->
  exists st', foldM step l st = Ok st' /\ least_of pairings n g (pre ++ l) st'.
Proof.
  revert pre st. induction l as [|p l IH]; intros pre st Hl Hst; simpl.
  - rewrite app_nil_r. eauto.
  - destruct (least_of_step pre p st) as (st1 & E1 & H1);
      [apply Hl; left; reflexivity | exact Hst |].
    rewrite E1. simpl bind.
    destruct (IH (pre ++ [p]) st1) as (st2 & E2 & H2);
      [intros; apply Hl; right; assumption | exact H1 |].
    rewrite <- app_assoc in H2. simpl in H2. eauto.
Qed.

End ArgMin.

(** The scan of [get_optimal_pairing] when [sample] is [None] or 0. *)
Lemma optimal_pairing_scan (pairings : list dict) (sample : option Z)
      (g : rng) :
  truthy sample = false ->
  pairings <> [] ->
  same_keys pairings ->
  exists i best,
    get_optimal_pairing pairings sample g = Ok (Some best, g) /\
    nth_error pairings i = Some best /\
    (forall q, In q pairings ->
               objective pairings (length (hd [] pairings)) best
               <= objective pairings (length (hd [] pairings)) q) /\
    (forall j q, (j < i)%nat -> nth_error pairings j = Some q ->
                 objective pairings (length (hd [] pairings)) best
                 < objective pairings (length (hd [] pairings)) q).
Proof.
  intros Hs Hne Hkeys. set (n := length (hd [] pairings)).
  destruct pairings as [|first rest] eqn:Ep; [congruence|].
  rewrite <- Ep in *. unfold get_optimal_pairing.
  assert (Hl : (length pairings <? 1)%nat = false)
    by (subst pairings; reflexivity).
  rewrite Hl.
  assert (Hi : index pairings 0 = Ok first) by (subst pairings; reflexivity).
  rewrite Hi. simpl bind. rewrite Hs. cbv iota.
  assert (Hn : n = length first) by (subst n pairings; reflexivity).
  rewrite <- Hn.
  destruct (least_of_loop pairings n g Hkeys pairings [] (None, None, g))
    as (st & E & Hg & Hst).
  - auto.
  - split; [reflexivity|]. left. split; reflexivity.
  - cbv zeta in E. rewrite E. simpl bind.
    destruct Hst as [[H _] | (i & best & Hi' & Hbest & Hle & Hlt)].
    + simpl in H. congruence.
    + exists i, best. simpl in Hi', Hle, Hlt.
      destruct st as [[ml mp] g']. simpl in *. inversion Hbest; subst.
      repeat split; auto.
      intros q Hq. apply In_nth_error in Hq. destruct Hq as (j & Hj).
      exact (Hle j q Hj).
Qed.

(** C4. On a list of pairings that is not empty and whose members share
    their keys, [get_optimal_pairing] without [sample] returns the member of
    least objective, and the first such member in the order of the list;
    [n] is the number of keys of the first pairing. *)
Theorem optimal_pairing_exact (pairings : list dict) (g : rng) :
  pairings <> [] ->
  same_keys pairings ->
  let n := length (hd [] pairings) in
  exists i best,
    get_optimal_pairing pairings None g = Ok (Some best, g) /\
    nth_error pairings i = Some best /\
    (forall q, In q pairings ->
               objective pairings n best <= objective pairings n q) /\
    (forall j q, (j < i)%nat -> nth_error pairings j = Some q ->
                 objective pairings n best < objective pairings n q).
Proof.
  intros Hne Hkeys n.
  exact (optimal_pairing_scan pairings None g eq_refl Hne Hkeys).
Qed.

Lemma abcd_same_keys : same_keys abcd_pairings.
Proof.
  intros p t [<-|[<-|[<-|[]]]] [<-|[<-|[<-|[]]]] k; simpl; tauto.
Qed.

Lemma optimal_pairing_exact_witness :
  exists i best,
    get_optimal_pairing abcd_pairings None no_draw = Ok (Some best, no_draw) /\
    nth_error abcd_pairings i = Some best /\
    (forall q, In q abcd_pairings ->
               objective abcd_pairings 4 best <= objective abcd_pairings 4 q) /\
    (forall j q, (j < i)%nat -> nth_error abcd_pairings j = Some q ->
                 objective abcd_pairings 4 best < objective abcd_pairings 4 q).
Proof.
  apply (optimal_pairing_exact abcd_pairings no_draw).
  - discriminate.
  - exact abcd_same_keys.
Defined.

(** C10. With [sample = 0], [get_optimal_pairing] takes the exact branch:
    it returns what it returns with [sample = None]; on a list that is not
    empty and whose members share their keys that is, without a draw, a
    member of least objective. *)
Theorem sample_zero_is_exact (pairings : list dict) (g : rng) :
  get_optimal_pairing pairings (Some 0) g
  = get_optimal_pairing pairings None g /\
  (pairings <> [] -> same_keys pairings ->
   exists best,
     get_optimal_pairing pairings (Some 0) g = Ok (Some best, g) /\
     In best pairings /\
     forall q, In q pairings ->
               objective pairings (length (hd [] pairings)) best
               <= objective pairings (length (hd [] pairings)) q).
Proof.
  split; [reflexivity|]. intros Hne Hkeys.
  destruct (optimal_pairing_scan pairings (Some 0) g eq_refl Hne Hkeys)
    as (i & best & E & Hi & Hle & _).
  exists best. split; [exact E|]. split; [|exact Hle].
  eapply nth_error_In. exact Hi.
Qed.

Lemma sample_zero_is_exact_witness :
  exists best,
    get_optimal_pairing abcd_pairings (Some 0) no_draw
    = Ok (Some best, no_draw) /\
    In best abcd_pairings /\
    forall q, In q abcd_pairings ->
              objective abcd_pairings 4 best <= objective abcd_pairings 4 q.
Proof.
  apply (proj2 (sample_zero_is_exact abcd_pairings no_draw)).
  - discriminate.
  - exact abcd_same_keys.
Defined.

(** * The simulation *)

(** ** The names [str(0)], ..., [str(n - 1)] are distinct *)

Lemma str_injective (i j : nat) : str i = str j -> i = j.
Proof.
  unfold str. intros H.
  apply (f_equal NilEmpty.uint_of_string) in H.
  rewrite !NilEmpty.usu in H. inversion H as [H'].
  apply (f_equal Nat.of_uint) in H'.
  rewrite !DecimalNat.Unsigned.of_to in H'. exact H'.
Qed.

Lemma names_NoDup (n : nat) : NoDup (map str (range n)).
Proof.
  apply Injective_map_NoDup.
  - intros i j. apply str_injective.
  - apply seq_NoDup.
Qed.

Lemma names_length (n : nat) : length (map str (range n)) = n.
Proof. unfold range. rewrite length_map, length_seq. reflexivity. Qed.

(** ** [pop] *)

Lemma pop_spec {A : Type} (i : nat) (l l' : list A) (x : A) :
  pop i l = Ok (x, l') ->
  nth_error l i = Some x /\ Permutation l (x :: l').
Proof.
  revert i l' x. induction l as [|y l IH]; intros i l' x.
  - destruct i; discriminate.
  - destruct i as [|i].
    + simpl. intros H; inversion H; subst. split; [reflexivity|].
      apply Permutation_refl.
    + change (pop (S i) (y :: l))
        with (do r <- pop i l; Ok (fst r, y :: snd r)).
      destruct (pop i l) as [[x0 l0]| |] eqn:E; simpl; try discriminate.
      intros H; inversion H; subst.
      destruct (IH i l0 x E) as (Hn & Hp).
      split; [exact Hn|].
      apply Permutation_trans with (y :: x :: l0).
      * apply perm_skip. exact Hp.
      * apply perm_swap.
Qed.

Lemma randindex_lt (n : nat) (g : rng) :
  (0 < n)%nat -> (fst (randindex n g) < n)%nat.
Proof.
  intros Hn. unfold randindex. simpl.
  destruct (n =? 0)%nat eqn:E.
  - apply Nat.eqb_eq in E. lia.
  - apply Nat.mod_upper_bound. lia.
Qed.

(** ** Agreement of two dictionaries *)

Lemma agree_sym (d1 d2 : dict) : agree d1 d2 -> agree d2 d1.
Proof. intros H k; symmetry; apply H. Qed.

(** ** [_enforce_symmetric_pairing] on a perfect matching *)

Lemma symmetric_check_inner (d sc : dict) (p : name) (l : list name) :
  symmetric d ->
  (forall k v, lookup sc k = Some v -> lookup d k = Some v) ->
  In p (keys d) ->
  (forall k, In k l -> In k (keys sc)) ->
  foldM (fun (_ : unit) k =>
           do v <- dict_get sc k;
           if negb (name_eqb v p) then Ok tt
           else
             do w <- dict_get d p;
             if negb (name_eqb w k) then Raise not_symmetric else Ok tt)
        l tt = Ok tt.
Proof.
  intros Hs Hsub Hp.
  set (body := fun (_ : unit) (k : name) =>
                 do v <- dict_get sc k;
                 if negb (name_eqb v p) then Ok tt
                 else
                   do w <- dict_get d p;
                   if negb (name_eqb w k) then Raise not_symmetric
                   else Ok tt).
  induction l as [|k l IH]; intros Hl.
  - reflexivity.
  - change (foldM body (k :: l) tt)
      with (do a <- body tt k; foldM body l a).
    assert (Hb : body tt k = Ok tt).
    { unfold body.
      destruct (lookup_keys_some sc k) as (v & Hv);
        [apply Hl; left; reflexivity|].
      rewrite (dict_get_ok _ _ _ Hv). simpl.
      destruct (name_eqb v p) eqn:E; simpl; [|reflexivity].
      apply name_eqb_eq in E. subst v.
      pose proof (Hs _ _ (Hsub _ _ Hv)) as Hback.
      rewrite (dict_get_ok _ _ _ Hback). simpl.
      rewrite name_eqb_refl. reflexivity. }
    rewrite Hb. simpl. apply IH.
    intros; apply Hl; right; assumption.
Qed.

Lemma symmetric_check_loop_ok (d : dict) :
  symmetric d -> exists sc, symmetric_check_loop d = Ok sc.
Proof.
  intros Hs. unfold symmetric_check_loop.
  destruct (foldM_ok_ind
              (fun symmetric_check p =>
                 do _ <-
                    foldM (fun (_ : unit) k =>
                             do v <- dict_get symmetric_check k;
                             if negb (name_eqb v p) then Ok tt
                             else
                               do w <- dict_get d p;
                               if negb (name_eqb w k)
                               then Raise not_symmetric
                               else Ok tt)
                          (keys symmetric_check) tt;
                 do w <- dict_get d p;
                 Ok (dict_set symmetric_check p w))
              (fun sc => forall k v, lookup sc k = Some v ->
                                     lookup d k = Some v)
              (keys d) []) as (sc & E & _).
  - intros k v; discriminate.
  - intros sc p Hp Hsub.
    rewrite (symmetric_check_inner d sc p (keys sc) Hs Hsub Hp) by auto.
    simpl.
    destruct (lookup_keys_some d p Hp) as (w & Hw).
    rewrite (dict_get_ok _ _ _ Hw). simpl.
    eexists; split; [reflexivity|].
    intros k v. rewrite lookup_dict_set.
    destruct (name_eqb k p) eqn:Ek.
    + apply name_eqb_eq in Ek. subst k. intros H; inversion H; subst.
      exact Hw.
    + apply Hsub.
  - eauto.
Qed.

Lemma subset_spec (a b : list name) :
  subset a b = true <-> forall x, In x a -> In x b.
Proof.
  unfold subset. rewrite forallb_forall.
  split; intros H x Hx; specialize (H x Hx); apply mem_In; exact H.
Qed.

Lemma symmetric_same_set (d : dict) :
  NoDup (keys d) -> symmetric d -> same_set (keys d) (values d) = true.
Proof.
  intros Hnd Hs. unfold same_set. apply andb_true_iff. split.
  - apply subset_spec. intros k Hk.
    destruct (lookup_keys_some d k Hk) as (v & Hv).
    apply Hs in Hv. apply lookup_In in Hv.
    change k with (snd (v, k)). apply in_map. exact Hv.
  - apply subset_spec. intros v Hv. unfold values in Hv.
    apply in_map_iff in Hv. destruct Hv as ([k v'] & E & Hin).
    simpl in E. subst v'.
    apply (In_lookup d k v Hnd) in Hin. apply Hs in Hin.
    apply lookup_keys. congruence.
Qed.

Lemma perfect_matching_symmetric (names : list name) (d : dict) :
  perfect_matching names d -> symmetric d.
Proof. intros (_ & _ & Hs & _). exact Hs. Qed.

Lemma enforce_perfect_matching (names : list name) (d : dict) :
  perfect_matching names d -> _enforce_symmetric_pairing d = (d, Ok tt).
Proof.
  intros Hp. pose proof (perfect_matching_symmetric names d Hp) as Hs.
  destruct Hp as (Hnd & _).
  unfold _enforce_symmetric_pairing.
  destruct (symmetric_check_loop_ok d Hs) as (sc & E). rewrite E.
  rewrite (add_reverse_symmetric d Hs).
  rewrite (symmetric_same_set d Hnd Hs). reflexivity.
Qed.

(** ** The lights of two perfect matchings *)

Lemma get_lights_loop (guess truth : dict) (l : list name) (correct : Z) :
  (forall p, In p l -> In p (keys guess)) ->
  (forall p, In p l -> In p (keys truth)) ->
  foldM (fun correct p =>
           do g <- dict_get guess p;
           do t <- dict_get truth p;
           Ok (if name_eqb g t then correct + 1 else correct))
        l correct
  = Ok (correct + Z.of_nat (length (filter (agrees_on guess truth) l))).
Proof.
  revert correct. induction l as [|p l IH]; intros correct Hg Ht; simpl.
  - f_equal. lia.
  - destruct (lookup_keys_some guess p) as (a & Ha);
      [apply Hg; left; reflexivity|].
    destruct (lookup_keys_some truth p) as (b & Hb);
      [apply Ht; left; reflexivity|].
    rewrite (dict_get_ok _ _ _ Ha), (dict_get_ok _ _ _ Hb). simpl.
    rewrite IH by (intros; (apply Hg || apply Ht); right; assumption).
    unfold agrees_on at 2. rewrite Ha, Hb.
    destruct (name_eqb a b); simpl length; f_equal; lia.
Qed.

Lemma get_lights_count (guess truth : dict) :
  (forall p, In p (keys guess) -> In p (keys truth)) ->
  _get_lights guess truth
  = Ok (Z.of_nat (length (filter (agrees_on guess truth) (keys guess))) / 2).
Proof.
  intros H. unfold _get_lights.
  rewrite get_lights_loop by auto. simpl. reflexivity.
Qed.

Lemma foldM_ext {A B : Type} (f1 f2 : A -> B -> result A) (l : list B)
      (a : A) :
  (forall a x, In x l -> f1 a x = f2 a x) ->
  foldM f1 l a = foldM f2 l a.
Proof.
  revert a. induction l as [|x l IH]; intros a H; simpl; [reflexivity|].
  rewrite (H a x) by (left; reflexivity).
  destruct (f2 a x); simpl; auto.
  apply IH. intros; apply H; right; assumption.
Qed.

Lemma get_lights_agree (guess t1 t2 : dict) :
  agree t1 t2 -> _get_lights guess t1 = _get_lights guess t2.
Proof.
  intros Ha. unfold _get_lights.
  rewrite (foldM_ext
             (fun correct p =>
                do g <- dict_get guess p;
                do t <- dict_get t1 p;
                Ok (if name_eqb g t then correct + 1 else correct))
             (fun correct p =>
                do g <- dict_get guess p;
                do t <- dict_get t2 p;
                Ok (if name_eqb g t then correct + 1 else correct)));
    [reflexivity|].
  intros c p _. unfold dict_get. rewrite (Ha p). reflexivity.
Qed.

Lemma filter_length_le {A : Type} (f : A -> bool) (l : list A) :
  (length (filter f l) <= length l)%nat.
Proof.
  induction l as [|x l IH]; simpl; [lia|].
  destruct (f x); simpl; lia.
Qed.

Lemma filter_length_full {A : Type} (f : A -> bool) (l : list A) :
  length (filter f l) = length l -> forall x, In x l -> f x = true.
Proof.
  induction l as [|y l IH]; simpl; [tauto|].
  pose proof (filter_length_le f l) as Hle.
  destruct (f y) eqn:E; simpl; intros H x [Hx|Hx]; subst; auto; try lia.
Qed.

Lemma filter_length_lt {A : Type} (f : A -> bool) (l : list A) (x : A) :
  In x l -> f x = false -> (length (filter f l) < length l)%nat.
Proof.
  intros Hx Hf.
  pose proof (filter_length_le f l) as Hle.
  destruct (Nat.eq_dec (length (filter f l)) (length l)) as [E|E]; [|lia].
  rewrite (filter_length_full f l E x Hx) in Hf. discriminate.
Qed.

Lemma perfect_matching_keys (names : list name) (d1 d2 : dict) :
  perfect_matching names d1 -> perfect_matching names d2 ->
  forall p, In p (keys d1) -> In p (keys d2).
Proof.
  intros (_ & H1 & _) (_ & H2 & _) p Hp. apply H2, H1, Hp.
Qed.

(** Two perfect matchings of an even number of names light every light
    only when they agree. *)
Lemma full_lights_agree (names : list name) (g p : dict) :
  NoDup names -> Nat.even (length names) = true ->
  perfect_matching names g -> perfect_matching names p ->
  _get_lights g p = Ok (Z.of_nat (length names) / 2) ->
  agree g p.
Proof.
  intros Hnd Hev Hg Hp H.
  rewrite get_lights_count in H
    by (apply (perfect_matching_keys names); assumption).
  inversion H as [Hq]. clear H.
  pose proof (perfect_matching_length names g Hnd Hg) as Hlen.
  assert (Hk : length (keys g) = length names)
    by (unfold keys; rewrite length_map; exact Hlen).
  pose proof (filter_length_le (agrees_on g p) (keys g)) as Hle.
  apply Nat.even_spec in Hev. destruct Hev as (h & Hh).
  assert (Hfull : length (filter (agrees_on g p) (keys g)) = length (keys g)).
  { rewrite Hk in *. rewrite Hh in *.
    set (c := length (filter (agrees_on g p) (keys g))) in *.
    assert (Z.of_nat c / 2 = Z.of_nat h).
    { rewrite Hq. rewrite Nat2Z.inj_mul. simpl Z.of_nat.
      rewrite Z.mul_comm. apply Z.div_mul. lia. }
    assert (2 * Z.of_nat h <= Z.of_nat c).
    { pose proof (Z.mul_div_le (Z.of_nat c) 2 ltac:(lia)). lia. }
    lia. }
  intros k.
  destruct (in_dec string_dec k (keys g)) as [Hin|Hnin].
  - pose proof (filter_length_full _ _ Hfull k Hin) as E.
    unfold agrees_on in E.
    destruct (lookup g k), (lookup p k); try discriminate.
    apply name_eqb_eq in E. congruence.
  - assert (Hnin' : ~ In k (keys p)).
    { intros Hc. apply Hnin.
      apply (perfect_matching_keys names p g); assumption. }
    rewrite lookup_keys in Hnin, Hnin'.
    destruct (lookup g k), (lookup p k); try reflexivity;
      exfalso;
      first [apply Hnin; discriminate | apply Hnin'; discriminate].
Qed.

(** ** Adding a pair of new names to a matching *)

Lemma lookup_fresh (d : dict) (k : name) :
  ~ In k (keys d) -> lookup d k = None.
Proof.
  intros H. destruct (lookup d k) eqn:E; [|reflexivity].
  exfalso. apply H. apply lookup_keys. congruence.
Qed.

Lemma lookup_with_pair (x o : name) (s : dict) (k : name) :
  ~ In x (keys s) -> ~ In o (keys s) ->
  lookup (with_pair x o s) k =
  if name_eqb k x then Some o
  else if name_eqb k o then Some x else lookup s k.
Proof.
  intros Hx Ho. unfold with_pair. rewrite lookup_app. simpl.
  destruct (name_eqb k x) eqn:Ex.
  - apply name_eqb_eq in Ex. subst k.
    rewrite (lookup_fresh s x Hx). reflexivity.
  - destruct (name_eqb k o) eqn:Eo.
    + apply name_eqb_eq in Eo. subst k.
      rewrite (lookup_fresh s o Ho). reflexivity.
    + destruct (lookup s k); reflexivity.
Qed.

Lemma keys_with_pair (x o : name) (s : dict) :
  keys (with_pair x o s) = keys s ++ [x; o].
Proof. unfold with_pair, keys. rewrite map_app. reflexivity. Qed.

Lemma dict_set_pair (x o : name) (s : dict) :
  ~ In x (keys s) -> ~ In o (keys s) -> x <> o ->
  dict_set (dict_set s x o) o x = with_pair x o s.
Proof.
  intros Hx Ho Hne. rewrite (dict_set_fresh s x o Hx).
  rewrite dict_set_fresh.
  - unfold with_pair. rewrite <- app_assoc. reflexivity.
  - unfold keys. rewrite map_app, in_app_iff. simpl.
    intros [H|[H|[]]]; [exact (Ho H) | exact (Hne H)].
Qed.

Lemma set_add_pair (x o : name) (s : tset) :
  ~ In x (keys s) -> ~ In o (keys s) -> x <> o ->
  set_add (set_add s (x, o)) (o, x) = with_pair x o s.
Proof.
  intros Hx Ho Hne.
  assert (E1 : tuple_mem (x, o) s = false).
  { apply tuple_mem_not_In. intros H. apply Hx.
    change x with (fst (x, o)). apply in_map. exact H. }
  assert (S1 : set_add s (x, o) = s ++ [(x, o)])
    by (unfold set_add; rewrite E1; reflexivity).
  rewrite S1.
  assert (E2 : tuple_mem (o, x) (s ++ [(x, o)]) = false).
  { apply tuple_mem_not_In. rewrite in_app_iff. simpl.
    intros [H|[H|[]]].
    - apply Ho. change o with (fst (o, x)). apply in_map. exact H.
    - inversion H. congruence. }
  unfold set_add. rewrite E2. unfold with_pair.
  rewrite <- app_assoc. reflexivity.
Qed.

Lemma partial_matching_with_pair (x o : name) (s : dict) :
  ~ In x (keys s) -> ~ In o (keys s) -> x <> o ->
  partial_matching s -> partial_matching (with_pair x o s).
Proof.
  intros Hx Ho Hne (Hnd & Hs & Hf). repeat split.
  - rewrite keys_with_pair. apply NoDup_app; auto.
    + constructor; [simpl; intuition | constructor; [tauto | constructor]].
    + intros k Hk [H|[H|[]]]; subst; contradiction.
  - intros a b. rewrite !lookup_with_pair by assumption.
    destruct (name_eqb a x) eqn:Eax.
    + apply name_eqb_eq in Eax. subst a. intros H; inversion H; subst b.
      rewrite name_eqb_refl.
      destruct (name_eqb o x) eqn:E; [|reflexivity].
      apply name_eqb_eq in E. congruence.
    + destruct (name_eqb a o) eqn:Eao.
      * apply name_eqb_eq in Eao. subst a. intros H; inversion H; subst b.
        rewrite name_eqb_refl. reflexivity.
      * intros H. pose proof (Hs _ _ H) as Hb.
        assert (Hbk : In b (keys s)) by (apply lookup_keys; congruence).
        destruct (name_eqb b x) eqn:Ebx;
          [apply name_eqb_eq in Ebx; subst; contradiction|].
        destruct (name_eqb b o) eqn:Ebo;
          [apply name_eqb_eq in Ebo; subst; contradiction|].
        exact Hb.
  - intros a. rewrite lookup_with_pair by assumption.
    destruct (name_eqb a x) eqn:Eax.
    + apply name_eqb_eq in Eax. subst a. congruence.
    + destruct (name_eqb a o) eqn:Eao.
      * apply name_eqb_eq in Eao. subst a. congruence.
      * apply Hf.
Qed.

Lemma perfect_matching_partial (names : list name) (d : dict) :
  perfect_matching names d <->
  partial_matching d /\ (forall x, In x (keys d) <-> In x names).
Proof. unfold perfect_matching, partial_matching, symmetric. tauto. Qed.

(** ** [_generate_random_pairing] *)

Lemma random_pairing_loop_S (fuel : nat) (people : list name) (pairs : dict)
      (g : rng) :
  random_pairing_loop (S fuel) people pairs g =
  if negb (0 <? length people)%nat then Ok (pairs, g)
  else
    do ap <- pop (fst (randindex (length people) g)) people;
    do bp <- pop (fst (randindex (length (snd ap))
                                 (snd (randindex (length people) g))))
                 (snd ap);
    random_pairing_loop
      fuel (snd bp)
      (dict_set (dict_set pairs (fst ap) (fst bp)) (fst bp) (fst ap))
      (snd (randindex (length (snd ap))
                      (snd (randindex (length people) g)))).
Proof. reflexivity. Qed.

Lemma random_pairing_loop_spec (fuel : nat) :
  forall (people : list name) (pairs : dict) (g : rng) (h : nat),
    NoDup people -> length people = (2 * h)%nat ->
    (length people <= fuel)%nat ->
    partial_matching pairs ->
    (forall x, In x people -> ~ In x (keys pairs)) ->
    exists truth g',
      random_pairing_loop fuel people pairs g = Ok (truth, g') /\
      partial_matching truth /\
      (forall x, In x (keys truth) <-> In x (keys pairs) \/ In x people).
Proof.
  induction fuel as [|fuel IH]; intros people pairs g h Hnd Hlen Hfuel Hpm Hdis.
  - destruct people; [|simpl in Hfuel; lia].
    exists pairs, g. split; [reflexivity|]. split; [exact Hpm|].
      intros x; simpl; tauto.
  - destruct people as [|p0 people'] eqn:Ep.
    + exists pairs, g. split; [reflexivity|]. split; [exact Hpm|].
      intros x; simpl; tauto.
    + rewrite <- Ep in *. rewrite random_pairing_loop_S.
      assert (Hpos : (0 < length people)%nat) by (subst; simpl; lia).
      assert (E0 : negb (0 <? length people)%nat = false).
      { apply negb_false_iff. apply Nat.ltb_lt. exact Hpos. }
      rewrite E0.
      pose proof (randindex_lt (length people) g Hpos) as Hi.
      destruct (pop_length _ people Hi) as (a & rest1 & Ea & Hl1).
      rewrite Ea. cbn [bind fst snd].
      assert (Hpos1 : (0 < length rest1)%nat) by lia.
      pose proof (randindex_lt (length rest1)
                               (snd (randindex (length people) g)) Hpos1)
        as Hj.
      destruct (pop_length _ rest1 Hj) as (b & rest2 & Eb & Hl2).
      rewrite Eb. cbn [bind fst snd].
      apply pop_spec in Ea. destruct Ea as (_ & Pa).
      apply pop_spec in Eb. destruct Eb as (_ & Pb).
      assert (P : Permutation people (a :: b :: rest2)).
      { eapply Permutation_trans; [exact Pa|]. apply perm_skip. exact Pb. }
      assert (Hnd' : NoDup (a :: b :: rest2))
        by (eapply Permutation_NoDup; eauto).
      inversion Hnd' as [|? ? Ha Hnd'']; subst.
      inversion Hnd'' as [|? ? Hb Hnd2]; subst.
      assert (Hab : a <> b) by (intros ->; apply Ha; left; reflexivity).
      assert (Hak : ~ In a (keys pairs)).
      { apply Hdis. eapply Permutation_in;
          [apply Permutation_sym; exact P | left; reflexivity]. }
      assert (Hbk : ~ In b (keys pairs)).
      { apply Hdis. eapply Permutation_in;
          [apply Permutation_sym; exact P | right; left; reflexivity]. }
      rewrite (dict_set_pair a b pairs Hak Hbk Hab).
      destruct (IH rest2 (with_pair a b pairs)
                   (snd (randindex (length rest1)
                                   (snd (randindex (length (p0 :: people'))
                                                   g))))
                   (h - 1)%nat)
        as (truth & g' & E & Ht & Hkeys).
      * exact Hnd2.
      * lia.
      * lia.
      * apply partial_matching_with_pair; assumption.
      * intros x Hx. rewrite keys_with_pair, in_app_iff. simpl.
        intros [H|[H|[H|[]]]].
        -- apply (Hdis x); [|exact H].
           eapply Permutation_in; [apply Permutation_sym; exact P|].
           right; right; exact Hx.
        -- subst x. apply Ha. right; exact Hx.
        -- subst x. exact (Hb Hx).
      * exists truth, g'. split; [exact E|]. split; [exact Ht|].
        intros x. rewrite Hkeys. rewrite keys_with_pair, in_app_iff.
        simpl.
        assert (Hin : In x (p0 :: people') <-> In x (a :: b :: rest2)).
        { split; apply Permutation_in;
            [exact P | apply Permutation_sym; exact P]. }
        rewrite Hin. simpl. tauto.
Qed.

Lemma generate_random_pairing_perfect (names : list name) (g : rng)
      (h : nat) :
  NoDup names -> length names = (2 * h)%nat ->
  exists truth g',
    _generate_random_pairing names g = Ok (truth, g') /\
    perfect_matching names truth.
Proof.
  intros Hnd Hlen. unfold _generate_random_pairing.
  destruct (random_pairing_loop_spec (length names) names [] g h)
    as (truth & g' & E & Ht & Hk); auto.
  - repeat split; [constructor | intros a b; discriminate
                   | intros a; discriminate].
  - exists truth, g'. split; [exact E|].
    apply perfect_matching_partial. split; [exact Ht|].
    intros x. rewrite Hk. simpl. tauto.
Qed.

Lemma pop_not_fuel {A : Type} (i : nat) (l : list A) :
  pop i l <> OutOfFuel.
Proof.
  revert i. induction l as [|y l IH]; intros [|i]; try discriminate.
  change (pop (S i) (y :: l))
    with (do r <- pop i l; Ok (fst r, y :: snd r)).
  specialize (IH i). destruct (pop i l); simpl; congruence.
Qed.

(** The length of [names] is fuel enough for the loop, whatever it
    returns or raises. *)
Lemma random_pairing_loop_fuel (fuel : nat) :
  forall (people : list name) (pairs : dict) (g : rng),
    (length people <= fuel)%nat ->
    random_pairing_loop fuel people pairs g <> OutOfFuel.
Proof.
  induction fuel as [|fuel IH]; intros people pairs g Hfuel.
  - destruct people; [discriminate | simpl in Hfuel; lia].
  - rewrite random_pairing_loop_S.
    destruct (negb (0 <? length people)%nat); [discriminate|].
    destruct (pop (fst (randindex (length people) g)) people)
      as [[a rest1]| |] eqn:Ea; cbn [bind fst snd];
      [|discriminate | destruct (pop_not_fuel _ _ Ea)].
    destruct (pop (fst (randindex (length rest1)
                                  (snd (randindex (length people) g))))
                  rest1)
      as [[b rest2]| |] eqn:Eb; cbn [bind fst snd];
      [|discriminate | destruct (pop_not_fuel _ _ Eb)].
    apply IH.
    apply pop_spec in Ea. destruct Ea as (_ & Pa).
    apply pop_spec in Eb. destruct Eb as (_ & Pb).
    apply Permutation_length in Pa, Pb. simpl in Pa, Pb. lia.
Qed.

Lemma generate_random_pairing_fuel_enough (names : list name) (g : rng) :
  _generate_random_pairing names g <> OutOfFuel.
Proof.
  unfold _generate_random_pairing. apply random_pairing_loop_fuel. lia.
Qed.

(** ** The generator without constraints lists every perfect matching once *)

Lemma matchings_count_pos (h : nat) : (1 <= matchings_count h)%nat.
Proof. induction h as [|h IH]; simpl; nia. Qed.

Lemma distinct_app (l1 l2 : list dict) :
  distinct l1 -> distinct l2 ->
  (forall a b, In a l1 -> In b l2 -> ~ agree a b) ->
  distinct (l1 ++ l2).
Proof.
  induction l1 as [|d l1 IH]; simpl; intros H1 H2 H12; [exact H2|].
  destruct H1 as (Hd & H1). split.
  - intros d' Hd'. apply in_app_iff in Hd'. destruct Hd' as [Hd'|Hd'].
    + apply Hd. exact Hd'.
    + apply H12; auto.
  - apply IH; auto.
Qed.

Lemma distinct_filter (f : dict -> bool) (l : list dict) :
  distinct l -> distinct (filter f l).
Proof.
  induction l as [|d l IH]; simpl; [auto|].
  intros (Hd & Hl). destruct (f d); simpl; [|auto].
  split; [|auto]. intros d' Hd'. apply filter_In in Hd'. apply Hd. tauto.
Qed.

Lemma with_pair_agree (x o : name) (s1 s2 : dict) :
  ~ In x (keys s1) -> ~ In o (keys s1) ->
  ~ In x (keys s2) -> ~ In o (keys s2) ->
  agree (with_pair x o s1) (with_pair x o s2) -> agree s1 s2.
Proof.
  intros Hx1 Ho1 Hx2 Ho2 Ha k. specialize (Ha k).
  rewrite !lookup_with_pair in Ha by assumption.
  destruct (name_eqb k x) eqn:Ex.
  - apply name_eqb_eq in Ex. subst k.
    rewrite (lookup_fresh s1 x Hx1), (lookup_fresh s2 x Hx2). reflexivity.
  - destruct (name_eqb k o) eqn:Eo; [|exact Ha].
    apply name_eqb_eq in Eo. subst k.
    rewrite (lookup_fresh s1 o Ho1), (lookup_fresh s2 o Ho2). reflexivity.
Qed.

Lemma distinct_with_pair (x o : name) (L : list dict) :
  (forall s, In s L -> ~ In x (keys s) /\ ~ In o (keys s)) ->
  distinct L -> distinct (map (with_pair x o) L).
Proof.
  induction L as [|d L IH]; simpl; intros Hk Hd; [exact I|].
  destruct Hd as (Hd & HL). split.
  - intros d' Hd' Ha. apply in_map_iff in Hd'.
    destruct Hd' as (s & <- & Hs).
    apply (Hd s Hs).
    destruct (Hk d (or_introl eq_refl)) as (? & ?).
    destruct (Hk s (or_intror Hs)) as (? & ?).
    apply (with_pair_agree x o); assumption.
  - apply IH; auto.
Qed.

(** ** [_weed_out_wrong_size] on sets of one size *)

Lemma max_len_loop (lst : list tset) (n m : nat) :
  (forall s, In s lst -> length s = n) -> (m <= n)%nat -> lst <> [] ->
  fold_left (fun m s => Nat.max m (length s)) lst m = n.
Proof.
  revert m. induction lst as [|s lst IH]; intros m Hl Hm Hne; [congruence|].
  simpl. rewrite (Hl s (or_introl eq_refl)).
  replace (Nat.max m n) with n by lia.
  destruct lst as [|s' lst']; [reflexivity|].
  apply IH; [intros; apply Hl; right; assumption | lia | discriminate].
Qed.

Lemma filter_same_size (lst : list tset) (n : nat) :
  (forall s, In s lst -> length s = n) ->
  filter (fun s => (length s =? n)%nat) lst = lst.
Proof.
  induction lst as [|s lst IH]; intros Hl; simpl; [reflexivity|].
  rewrite (Hl s (or_introl eq_refl)), Nat.eqb_refl.
  f_equal. apply IH. intros; apply Hl; right; assumption.
Qed.

Lemma weed_same_size (lst : list tset) (n : nat) :
  (forall s, In s lst -> length s = n) -> _weed_out_wrong_size lst = lst.
Proof.
  intros Hl. unfold _weed_out_wrong_size.
  destruct (length lst <=? 1)%nat eqn:E; [reflexivity|].
  assert (Hne : lst <> []) by (intros ->; simpl in E; discriminate E).
  unfold max_len. rewrite (max_len_loop lst n 0 Hl) by (lia || assumption).
  apply filter_same_size. exact Hl.
Qed.

(** ** A loop over [range] *)

Lemma foldM_seq_ind {A : Type} (f : A -> nat -> result A)
      (I : nat -> A -> Prop) (n : nat) :
  forall (s : nat) (a : A),
    I s a ->
    (forall j a, (s <= j < s + n)%nat -> I j a ->
                 exists a', f a j = Ok a' /\ I (S j) a') ->
    exists a', foldM f (seq s n) a = Ok a' /\ I (s + n)%nat a'.
Proof.
  induction n as [|n IH]; intros s a Ha Hstep; simpl.
  - rewrite Nat.add_0_r. eauto.
  - destruct (Hstep s a) as (a1 & E1 & H1); [lia | exact Ha |].
    rewrite E1. simpl.
    destruct (IH (S s) a1 H1) as (a2 & E2 & H2).
    + intros j a' Hj. apply Hstep. lia.
    + rewrite <- Nat.add_succ_comm. eauto.
Qed.

(** ** Names left after a pair is taken *)

Section TakePair.

Variables (x o : name) (clone next : list name).
Hypothesis Hnd : NoDup (x :: clone).
Hypothesis Hperm : Permutation clone (o :: next).

Lemma take_pair_x_clone : ~ In x clone.
Proof. apply (NoDup_cons_iff x clone). exact Hnd. Qed.

Lemma take_pair_NoDup : NoDup (o :: next).
Proof.
  apply (Permutation_NoDup Hperm). apply (NoDup_cons_iff x clone). exact Hnd.
Qed.

Lemma take_pair_o_clone : In o clone.
Proof.
  eapply Permutation_in; [apply Permutation_sym; exact Hperm|].
  left; reflexivity.
Qed.

Lemma take_pair_neq : x <> o.
Proof.
  intros E. apply take_pair_x_clone. rewrite E. exact take_pair_o_clone.
Qed.

Lemma take_pair_next (k : name) :
  In k next <-> In k (x :: clone) /\ k <> x /\ k <> o.
Proof.
  pose proof take_pair_NoDup as Hn. inversion Hn as [|? ? Ho Hn']; subst.
  pose proof take_pair_x_clone as Hx.
  split.
  - intros Hk.
    assert (Hc : In k clone).
    { eapply Permutation_in; [apply Permutation_sym; exact Hperm|].
      right; exact Hk. }
    repeat split.
    + right; exact Hc.
    + intros ->. contradiction.
    + intros ->. contradiction.
  - intros ([Hk|Hk] & Hkx & Hko); [congruence|].
    apply (Permutation_in _ Hperm) in Hk. destruct Hk; congruence.
Qed.

Lemma take_pair_fresh (s : dict) :
  perfect_matching next s -> ~ In x (keys s) /\ ~ In o (keys s).
Proof.
  intros (_ & Hk & _). split; intros H; apply Hk in H;
    apply take_pair_next in H; destruct H as (_ & ? & ?); congruence.
Qed.

Lemma with_pair_perfect (s : dict) :
  perfect_matching next s -> perfect_matching (x :: clone) (with_pair x o s).
Proof.
  intros Hp. destruct (take_pair_fresh s Hp) as (Hx & Ho).
  apply perfect_matching_partial in Hp. destruct Hp as (Hpm & Hk).
  apply perfect_matching_partial. split.
  - apply partial_matching_with_pair; auto. exact take_pair_neq.
  - intros k. rewrite keys_with_pair, in_app_iff, Hk, take_pair_next.
    simpl. pose proof take_pair_o_clone.
    destruct (string_dec k x) as [Ekx|Hkx]; [rewrite Ekx; tauto|].
    destruct (string_dec k o) as [Eko|Hko]; [rewrite Eko; tauto|].
    intuition congruence.
Qed.

Lemma lookup_without_pair (M : dict) (k : name) :
  lookup (without_pair x o M) k =
  if negb (name_eqb k x) && negb (name_eqb k o) then lookup M k else None.
Proof.
  unfold without_pair. induction M as [|[k0 v0] M IH]; simpl.
  - destruct (_ && _); reflexivity.
  - destruct (negb (name_eqb k0 x) && negb (name_eqb k0 o)) eqn:E0; simpl.
    + destruct (name_eqb k k0) eqn:Ek.
      * apply name_eqb_eq in Ek. subst k0. rewrite E0. reflexivity.
      * exact IH.
    + rewrite IH.
      destruct (name_eqb k k0) eqn:Ek; [|reflexivity].
      apply name_eqb_eq in Ek. subst k0. rewrite E0. reflexivity.
Qed.

Lemma keys_without_pair (M : dict) :
  keys (without_pair x o M) =
  filter (fun k => negb (name_eqb k x) && negb (name_eqb k o)) (keys M).
Proof.
  unfold without_pair, keys. induction M as [|[k0 v0] M IH]; simpl;
    [reflexivity|].
  destruct (_ && _); simpl; rewrite IH; reflexivity.
Qed.

Lemma without_pair_perfect (M : dict) :
  perfect_matching (x :: clone) M -> lookup M x = Some o ->
  perfect_matching next (without_pair x o M) /\
  agree (with_pair x o (without_pair x o M)) M.
Proof.
  intros (HndM & Hk & Hs & Hf) Hxo.
  pose proof (Hs _ _ Hxo) as Hox.
  assert (Hkeep : forall k, negb (name_eqb k x) && negb (name_eqb k o) = true
                            <-> k <> x /\ k <> o).
  { intros k. rewrite andb_true_iff, !negb_true_iff, !name_eqb_neq. tauto. }
  assert (Hp : perfect_matching next (without_pair x o M)).
  { repeat split.
    - rewrite keys_without_pair. apply NoDup_filter. exact HndM.
    - rewrite keys_without_pair. intros H. apply filter_In in H.
      destruct H as (H & Hc). apply Hkeep in Hc. apply Hk in H.
      apply take_pair_next. tauto.
    - intros H. apply take_pair_next in H. destruct H as (H & Hc).
      rewrite keys_without_pair. apply filter_In. split.
      + apply Hk. exact H.
      + apply Hkeep. exact Hc.
    - intros a b. rewrite !lookup_without_pair.
      destruct (negb (name_eqb a x) && negb (name_eqb a o)) eqn:Ea;
        [|discriminate].
      apply Hkeep in Ea. destruct Ea as (Hax & Hao).
      intros H. pose proof (Hs _ _ H) as Hb.
      assert (Eb : negb (name_eqb b x) && negb (name_eqb b o) = true).
      { apply Hkeep. split; intros ->; congruence. }
      rewrite Eb. exact Hb.
    - intros a. rewrite lookup_without_pair.
      destruct (_ && _); [apply Hf | discriminate]. }
  split; [exact Hp|].
  destruct (take_pair_fresh _ Hp) as (Hx' & Ho').
  intros k. rewrite lookup_with_pair by assumption.
  rewrite lookup_without_pair.
  destruct (name_eqb k x) eqn:Ex.
  - apply name_eqb_eq in Ex. subst k. symmetry; exact Hxo.
  - destruct (name_eqb k o) eqn:Eo.
    + apply name_eqb_eq in Eo. subst k. symmetry; exact Hox.
    + reflexivity.
Qed.

End TakePair.

Lemma enumerates_nil : enumerates 0 [] [[]].
Proof.
  repeat split.
  - constructor; [|constructor].
    repeat split; try (intros; discriminate); simpl; try tauto.
    constructor.
  - intros d' [].
  - intros M (_ & Hk & _). exists []. split; [left; reflexivity|].
    intros k. simpl. symmetry. apply lookup_fresh.
    intros H. apply Hk in H. exact H.
Qed.

Section Round.

Variables (rec : list name -> result (list tset)).
Variables (x o : name) (clone next : list name) (h : nat) (cg : list tset).
Hypothesis Hnd : NoDup (x :: clone).
Hypothesis Hperm : Permutation clone (o :: next).
Hypothesis Hrec : rec next = Ok cg.
Hypothesis Hcg : enumerates h next (read_as next cg).
Hypothesis Hnil : next = [] -> cg = [].

Lemma round_group :
  (if (length (map (fun s => set_add (set_add s (x, o)) (o, x))
                   (_weed_out_wrong_size cg)) =? 0)%nat
   then [set_add (set_add [] (x, o)) (o, x)]
   else map (fun s => set_add (set_add s (x, o)) (o, x))
            (_weed_out_wrong_size cg))
  = map (with_pair x o) (read_as next cg).
Proof.
  pose proof (take_pair_neq x o clone next Hnd Hperm) as Hne.
  destruct next as [|n0 next'] eqn:En.
  - rewrite (Hnil eq_refl). simpl.
    rewrite (set_add_pair x o []); auto.
  - rewrite <- En in *. unfold read_as in *. rewrite En in Hcg |- *.
    rewrite <- En in Hcg.
    destruct Hcg as (Hcount & Hall & _ & _).
    rewrite Forall_forall in Hall.
    assert (Hsize : forall s, In s cg -> length s = length next).
    { intros s Hs. apply perfect_matching_length; [|apply Hall; exact Hs].
      pose proof (take_pair_NoDup x o clone next Hnd Hperm) as H.
      inversion H; assumption. }
    rewrite (weed_same_size cg (length next) Hsize).
    assert (Hmap : map (fun s => set_add (set_add s (x, o)) (o, x)) cg
                   = map (with_pair x o) cg).
    { apply map_ext_in. intros s Hs.
      destruct (take_pair_fresh x o clone next Hnd Hperm s (Hall s Hs)).
      apply set_add_pair; assumption. }
    rewrite Hmap. rewrite length_map, Hcount.
    pose proof (matchings_count_pos h) as Hpos.
    destruct (matchings_count h); [lia|]. reflexivity.
Qed.

Lemma partner_round_unconstrained (pairings : list tset) (i : nat) :
  pop i clone = Ok (o, next) ->
  partner_round rec x clone [] [] pairings i
  = Ok (pairings ++ map (with_pair x o) (read_as next cg)).
Proof.
  intros Hpop. unfold partner_round. rewrite Hpop.
  cbn [bind fst snd tuple_mem orb in_exclusive_group existsb].
  rewrite Hrec. cbn [bind]. cbv zeta. rewrite round_group. reflexivity.
Qed.

End Round.

Lemma rounds_done_step (x o : name) (clone next : list name) (h j : nat)
      (pairings L : list dict) :
  NoDup (x :: clone) ->
  nth_error clone j = Some o ->
  Permutation clone (o :: next) ->
  enumerates h next L ->
  rounds_done x clone h j pairings ->
  rounds_done x clone h (S j) (pairings ++ map (with_pair x o) L).
Proof.
  intros Hnd Hnth Hperm (Hcount & Hall & Hdis & Hcomp)
         (Hlen & HallP & HdisP & Hfirst & HcompP).
  rewrite Forall_forall in Hall.
  assert (Hx : forall s, In s L -> lookup (with_pair x o s) x = Some o).
  { intros s Hs.
    destruct (take_pair_fresh x o clone next Hnd Hperm s (Hall s Hs)).
    rewrite lookup_with_pair by assumption.
    rewrite name_eqb_refl. reflexivity. }
  assert (HndC : NoDup clone) by (inversion Hnd; assumption).
  assert (Hj : (j < length clone)%nat)
    by (apply nth_error_Some; congruence).
  repeat split.
  - rewrite length_app, length_map, Hlen, Hcount. simpl. lia.
  - apply Forall_app. split; [exact HallP|].
    apply Forall_forall. intros d Hd. apply in_map_iff in Hd.
    destruct Hd as (s & <- & Hs).
    apply (with_pair_perfect x o clone next Hnd Hperm). apply Hall, Hs.
  - apply distinct_app.
    + exact HdisP.
    + apply distinct_with_pair; [|exact Hdis].
      intros s Hs. apply (take_pair_fresh x o clone next Hnd Hperm).
      apply Hall, Hs.
    + intros a b Ha Hb Hab. apply in_map_iff in Hb.
      destruct Hb as (s & <- & Hs).
      destruct (Hfirst a Ha) as (i & Hi & Hai).
      specialize (Hab x). rewrite (Hx s Hs), Hai, <- Hnth in Hab.
      apply (proj1 (NoDup_nth_error clone) HndC) in Hab; lia.
  - intros s Hs. apply in_app_iff in Hs. destruct Hs as [Hs|Hs].
    + destruct (Hfirst s Hs) as (i & Hi & Hsi). exists i. split; [lia|auto].
    + apply in_map_iff in Hs. destruct Hs as (s' & <- & Hs').
      exists j. split; [lia|]. rewrite Hx by exact Hs'. auto.
  - intros M i HM Hi HMi.
    destruct (Nat.eq_dec i j) as [->|Hij].
    + rewrite Hnth in HMi.
      destruct (without_pair_perfect x o clone next Hnd Hperm M HM HMi)
        as (Hw & Hag).
      destruct (Hcomp _ Hw) as (s & Hs & Hsw).
      exists (with_pair x o s). split.
      * apply in_app_iff. right. apply in_map. exact Hs.
      * intros k. rewrite <- (Hag k).
        destruct (take_pair_fresh x o clone next Hnd Hperm s (Hall s Hs)).
        destruct (take_pair_fresh x o clone next Hnd Hperm _ Hw).
        rewrite !lookup_with_pair by assumption.
        rewrite (Hsw k). reflexivity.
    + destruct (HcompP M i HM ltac:(lia) HMi) as (s & Hs & Hag).
      exists s. split; [apply in_app_iff; left; exact Hs | exact Hag].
Qed.

(** [pairings_fuel] without constraints, on [2 * h] distinct names: the
    list it returns, read as its caller reads it, holds every perfect
    matching of the names exactly once. *)
Lemma pairings_fuel_enumerates (fuel : nat) :
  forall (people : list name) (h : nat),
    NoDup people -> length people = (2 * h)%nat ->
    (length people <= fuel)%nat ->
    exists l,
      pairings_fuel fuel people [] [] [] = Ok l /\
      (people = [] -> l = []) /\
      enumerates h people (read_as people l).
Proof.
  induction fuel as [|fuel IH]; intros people h Hnd Hlen Hfuel.
  - destruct people; [|simpl in Hfuel; lia].
    exists []. split; [reflexivity|]. split; [auto|].
    destruct h; [|simpl in Hlen; lia]. exact enumerates_nil.
  - destruct people as [|x clone].
    + exists []. split; [reflexivity|]. split; [auto|].
      destruct h; [|simpl in Hlen; lia]. exact enumerates_nil.
    + destruct h as [|h']; [simpl in Hlen; lia|].
      rewrite pairings_fuel_S.
      cbn [length Nat.eqb remove_known bind pop fst snd].
      destruct (foldM_seq_ind
                  (partner_round
                     (fun next_group =>
                        pairings_fuel fuel next_group [] [] [])
                     x clone [] [])
                  (rounds_done x clone h') (length clone) 0 [])
        as (pairings & E & Hdone).
      * repeat split; simpl; auto; try tauto.
        intros M i _ Hi. lia.
      * intros j a (_ & Hj) Ha. simpl in Hj.
        destruct (pop_length j clone Hj) as (o & next & Epop & Hl).
        pose proof (pop_spec _ _ _ _ Epop) as (Hnth & Hperm).
        assert (HndN : NoDup next).
        { pose proof (take_pair_NoDup x o clone next Hnd Hperm) as H.
          inversion H; assumption. }
        assert (HlenN : length next = (2 * h')%nat)
          by (simpl in Hlen; lia).
        destruct (IH next h' HndN HlenN) as (cg & Ecg & Hnil & Hcg);
          [simpl in Hfuel; lia|].
        rewrite (partner_round_unconstrained
                   (fun next_group =>
                      pairings_fuel fuel next_group [] [] [])
                   x o clone next h' cg Hnd Hperm Ecg Hcg Hnil a j Epop).
        eexists; split; [reflexivity|].
        apply (rounds_done_step x o clone next h' j); auto.
      * rewrite E. cbn [bind].
        assert (Hid : map (add_known []) pairings = pairings).
        { rewrite <- (map_id pairings) at 2. apply map_ext.
          intros s. reflexivity. }
        rewrite Hid. exists pairings. split; [reflexivity|].
        split; [discriminate|]. unfold read_as.
        simpl in Hdone.
        destruct Hdone as (Hcount & Hall & Hdis & _ & Hcomp).
        repeat split; auto.
        -- rewrite Hcount. simpl matchings_count. simpl in Hlen. nia.
        -- intros M HM.
           pose proof HM as (_ & Hk & Hs & Hf).
           assert (Hxk : In x (keys M)) by (apply Hk; left; reflexivity).
           destruct (lookup_keys_some M x Hxk) as (o & Ho).
           assert (Hoc : In o clone).
           { assert (In o (x :: clone)).
             { apply Hk. apply lookup_keys. rewrite (Hs _ _ Ho).
               discriminate. }
             destruct H as [H|H]; [|exact H].
             subst o. exfalso. exact (Hf x Ho). }
           apply In_nth_error in Hoc. destruct Hoc as (i & Hi).
           apply (Hcomp M i HM).
           ++ apply nth_error_Some. congruence.
           ++ congruence.
Qed.

(** The same, for [_get_all_possible_pairings] on at least two names. *)
Lemma pairings_enumerate (people : list name) (h : nat) :
  NoDup people -> length people = (2 * S h)%nat ->
  exists l,
    _get_all_possible_pairings people [] [] [] = Ok l /\
    enumerates (S h) people l.
Proof.
  intros Hnd Hlen. unfold _get_all_possible_pairings.
  destruct (pairings_fuel_enumerates (length people) people (S h) Hnd Hlen)
    as (l & E & _ & He); [lia|].
  exists l. split; [exact E|].
  destruct people; [simpl in Hlen; lia|]. exact He.
Qed.

(** ** Helpers of the loop of [n_guesses] *)

Lemma filterM_loop {A : Type} (F : A -> result bool) (f : A -> bool)
      (l acc : list A) :
  (forall p, In p l -> F p = Ok (f p)) ->
  foldM (fun weeded p => do b <- F p; Ok (if b then weeded ++ [p] else weeded))
        l acc
  = Ok (acc ++ filter f l).
Proof.
  revert acc. induction l as [|p l IH]; intros acc H; simpl.
  - rewrite app_nil_r. reflexivity.
  - rewrite (H p (or_introl eq_refl)). simpl.
    rewrite IH by (intros; apply H; right; assumption).
    destruct (f p); [rewrite <- app_assoc|]; reflexivity.
Qed.

Lemma filterM_filter {A : Type} (F : A -> result bool) (f : A -> bool)
      (l : list A) :
  (forall p, In p l -> F p = Ok (f p)) -> filterM F l = Ok (filter f l).
Proof. intros H. unfold filterM. rewrite (filterM_loop F f l [] H). reflexivity. Qed.

Lemma replace_at_same {A : Type} (i : nat) (x : A) (l : list A) :
  nth_error l i = Some x -> replace_at i x l = l.
Proof.
  revert i. induction l as [|y l IH]; intros [|i]; simpl; try discriminate.
  - intros H; inversion H; reflexivity.
  - intros H. rewrite (IH i H). reflexivity.
Qed.

Lemma dict_of_loop (s acc : dict) :
  NoDup (keys (acc ++ s)) ->
  fold_left (fun d t => dict_set d (fst t) (snd t)) s acc = acc ++ s.
Proof.
  revert acc. induction s as [|[k v] s IH]; intros acc Hnd; simpl.
  - rewrite app_nil_r. reflexivity.
  - assert (Hk : ~ In k (keys acc)).
    { unfold keys in *. rewrite map_app in Hnd. simpl in Hnd.
      apply NoDup_remove_2 in Hnd. intros H. apply Hnd.
      apply in_app_iff. left; exact H. }
    rewrite (dict_set_fresh acc k v Hk).
    rewrite IH; rewrite <- app_assoc; [reflexivity | exact Hnd].
Qed.

Lemma dict_of_perfect (names : list name) (s : dict) :
  perfect_matching names s -> dict_of s = s.
Proof.
  intros (Hnd & _). unfold dict_of. apply (dict_of_loop s []). exact Hnd.
Qed.

Lemma distinct_other (l : list dict) (a : dict) :
  distinct l -> (2 <= length l)%nat -> In a l ->
  exists b, In b l /\ ~ agree a b.
Proof.
  destruct l as [|a1 [|a2 rest]]; simpl; try lia.
  intros (H1 & _) _ [Ha|[Ha|Ha]].
  - subst a. exists a2. split; [auto|]. apply H1. left; reflexivity.
  - subst a. exists a1. split; [auto|]. intros H. apply agree_sym in H.
    revert H. apply H1. left; reflexivity.
  - exists a1. split; [auto|]. intros H. apply agree_sym in H.
    revert H. apply H1. right; exact Ha.
Qed.

Lemma guess_loop_S (fuel : nat) (truth : dict)
      (possibilities_dicts : list dict) (guesses : Z) (g : rng) :
  guess_loop (S fuel) truth possibilities_dicts guesses g =
  if negb (1 <? length possibilities_dicts)%nat
  then Ok (possibilities_dicts, guesses, g)
  else
    let i := fst (randindex (length possibilities_dicts) g) in
    do guess0 <- index possibilities_dicts i;
    let possibilities_dicts' :=
      replace_at i (fst (_enforce_symmetric_pairing guess0))
                 possibilities_dicts in
    do _ <- snd (_enforce_symmetric_pairing guess0);
    do lights <- _get_lights (fst (_enforce_symmetric_pairing guess0)) truth;
    do weeded <-
       filterM (fun p =>
                  _correct_number (fst (_enforce_symmetric_pairing guess0))
                                  p lights)
               possibilities_dicts';
    guess_loop fuel truth weeded (guesses + 1)
               (snd (randindex (length possibilities_dicts) g)).
Proof.
  simpl. destruct (negb _); [reflexivity|].
  destruct (index _ _); simpl; try reflexivity.
  destruct (_enforce_symmetric_pairing a). reflexivity.
Qed.

(** ** The loop ends with one pairing left *)

Section Loop.

Variables (names : list name) (h : nat) (truth : dict).
Hypothesis Hnd : NoDup names.
Hypothesis Hlen : length names = (2 * h)%nat.
Hypothesis Htruth : perfect_matching names truth.

Lemma even_names : Nat.even (length names) = true.
Proof. rewrite Hlen. apply Nat.even_spec. exists h. reflexivity. Qed.

Lemma lights_between (a b : dict) :
  perfect_matching names a -> perfect_matching names b ->
  exists l, _get_lights a b = Ok l.
Proof.
  intros Ha Hb. apply get_lights_returns.
  apply (perfect_matching_keys names); assumption.
Qed.

Lemma weeded_candidates (pd : list dict) (guess : dict) (lights : Z) :
  candidates names truth pd -> In guess pd -> (2 <= length pd)%nat ->
  _get_lights guess truth = Ok lights ->
  candidates names truth (filter (fun p => scores guess p lights) pd) /\
  (length (filter (fun p => scores guess p lights) pd) < length pd)%nat.
Proof.
  intros (Hall & Hdis & pt & Hpt & Hag) Hg Hlen2 Hl.
  rewrite Forall_forall in Hall.
  split; [repeat split|].
  - apply Forall_forall. intros p Hp. apply filter_In in Hp.
    apply Hall. tauto.
  - apply distinct_filter. exact Hdis.
  - exists pt. split; [|exact Hag]. apply filter_In. split; [exact Hpt|].
    unfold scores. rewrite (get_lights_agree guess pt truth Hag), Hl.
    apply Z.eqb_refl.
  - assert (Hself : _get_lights guess guess
                    = Ok (Z.of_nat (length names) / 2)).
    { rewrite get_lights_self.
      rewrite (perfect_matching_length _ _ Hnd (Hall _ Hg)). reflexivity. }
    destruct (Z.eq_dec lights (Z.of_nat (length names) / 2)) as [E|E].
    + destruct (distinct_other pd guess Hdis Hlen2 Hg) as (q & Hq & Hnq).
      apply (filter_length_lt _ pd q Hq).
      unfold scores.
      destruct (lights_between guess q (Hall _ Hg) (Hall _ Hq)) as (l & El).
      rewrite El. apply Z.eqb_neq. intros ->. apply Hnq.
      apply (full_lights_agree names guess q Hnd even_names
                               (Hall _ Hg) (Hall _ Hq)).
      rewrite El, E. reflexivity.
    + apply (filter_length_lt _ pd guess Hg).
      unfold scores. rewrite Hself. apply Z.eqb_neq. congruence.
Qed.

Lemma guess_loop_ends (fuel : nat) :
  forall (pd : list dict) (guesses : Z) (g : rng),
    candidates names truth pd -> (length pd <= S fuel)%nat ->
    exists pd' guesses' g',
      guess_loop fuel truth pd guesses g = Ok (pd', guesses', g') /\
      length pd' = 1%nat /\
      guesses <= guesses' <= guesses + Z.of_nat (length pd) - 1 /\
      ((2 <= length pd)%nat -> guesses + 1 <= guesses').
Proof.
  induction fuel as [|fuel IH]; intros pd guesses g Hc Hfuel.
  - assert (Hne : (1 <= length pd)%nat).
    { destruct Hc as (_ & _ & p & Hp & _). destruct pd; [destruct Hp|].
      simpl. lia. }
    exists pd, guesses, g. simpl.
    assert (E : (1 <? length pd)%nat = false) by (apply Nat.ltb_ge; lia).
    rewrite E. simpl. repeat split; lia.
  - rewrite guess_loop_S.
    destruct (1 <? length pd)%nat eqn:E; simpl negb; cbv iota.
    + apply Nat.ltb_lt in E.
      pose proof (randindex_lt (length pd) g ltac:(lia)) as Hi.
      set (i := fst (randindex (length pd) g)) in *.
      destruct (nth_error pd i) as [guess|] eqn:En;
        [|apply nth_error_None in En; lia].
      assert (Hg : In guess pd) by (eapply nth_error_In; eauto).
      pose proof Hc as (Hall & _).
      rewrite Forall_forall in Hall.
      cbv zeta. unfold index. rewrite En. cbn [bind].
      rewrite (enforce_perfect_matching names guess (Hall _ Hg)).
      cbn [fst snd bind]. rewrite (replace_at_same i guess pd En).
      destruct (lights_between guess truth (Hall _ Hg) Htruth)
        as (lights & El).
      rewrite El. cbn [bind].
      rewrite (filterM_filter
                 (fun p => _correct_number guess p lights)
                 (fun p => scores guess p lights)).
      * cbn [bind].
        destruct (weeded_candidates pd guess lights Hc Hg ltac:(lia) El)
          as (Hc' & Hlt).
        destruct (IH _ (guesses + 1)
                     (snd (randindex (length pd) g)) Hc' ltac:(lia))
          as (pd' & guesses' & g' & E' & H1 & Hb & _).
        exists pd', guesses', g'. split; [exact E'|].
        split; [exact H1|]. split; lia.
      * intros p Hp.
        destruct (lights_between guess p (Hall _ Hg) (Hall _ Hp))
          as (l & Elp).
        unfold _correct_number, scores. rewrite Elp. reflexivity.
    + apply Nat.ltb_ge in E.
      assert (Hne : (1 <= length pd)%nat).
      { destruct Hc as (_ & _ & p & Hp & _). destruct pd; [destruct Hp|].
        simpl. lia. }
      exists pd, guesses, g. repeat split; lia.
Qed.

End Loop.

(** ** [n_guesses] *)

Lemma matchings_count_three (h : nat) : (3 <= matchings_count (S (S h)))%nat.
Proof.
  pose proof (matchings_count_pos h). simpl matchings_count. nia.
Qed.

(** C5 (amended). For every even number [2 * (h + 1)] of contestants and
    every stream of draws, [n_guesses] ends and returns a number from 0 to
    one less than the number of perfect matchings of the contestants; it
    returns 0 for two contestants and at least 1 for four or more. *)
Theorem n_guesses_even (h fuel : nat) (g : rng) :
  (matchings_count (S h) <= fuel)%nat ->
  exists r,
    n_guesses fuel (2 * S h) g = Ok r /\
    0 <= r <= Z.of_nat (matchings_count (S h)) - 1 /\
    (h = O -> r = 0) /\
    ((1 <= h)%nat -> 1 <= r).
Proof.
  intros Hfuel. unfold n_guesses.
  set (names := map str (range (2 * S h))).
  assert (Hnd : NoDup names) by apply names_NoDup.
  assert (Hlen : length names = (2 * S h)%nat) by apply names_length.
  destruct (generate_random_pairing_perfect names g (S h) Hnd Hlen)
    as (truth & g1 & Et & Htruth).
  rewrite Et. cbn [bind fst snd].
  rewrite (enforce_perfect_matching names truth Htruth). cbn [bind].
  destruct (pairings_enumerate names h Hnd Hlen)
    as (l & El & Hcount & Hall & Hdis & Hcomp).
  rewrite El. cbn [bind].
  assert (Hmap : map dict_of l = l).
  { rewrite <- (map_id l) at 2. apply map_ext_in. intros s Hs.
    rewrite Forall_forall in Hall.
    apply (dict_of_perfect names). apply Hall, Hs. }
  rewrite Hmap.
  assert (Hc : candidates names truth l).
  { split; [exact Hall|]. split; [exact Hdis|]. apply Hcomp. exact Htruth. }
  destruct (guess_loop_ends names (S h) truth Hnd Hlen Htruth
                            fuel l 0 g1 Hc ltac:(lia))
    as (pd' & r & g' & Eloop & H1 & Hb & Hlow).
  rewrite Eloop. cbn [bind fst snd].
  destruct pd' as [|p pd']; [discriminate|].
  cbn [index nth_error bind].
  exists r. split; [reflexivity|]. rewrite Hcount in Hb, Hlow.
  split; [lia|]. split.
  - intros ->. simpl in Hb. lia.
  - intros Hh. apply Hlow. destruct h as [|h']; [lia|].
    pose proof (matchings_count_three h'). lia.
Qed.

Lemma n_guesses_even_witness :
  exists r,
    n_guesses 3 4 no_draw = Ok r /\
    0 <= r <= 2 /\ (1%nat = O -> r = 0) /\ ((1 <= 1)%nat -> 1 <= r).
Proof.
  apply (n_guesses_even 1 3 no_draw). simpl. lia.
Defined.

(** An odd number of contestants: [_generate_random_pairing] pops from the
    empty list. *)
Example n_guesses_odd_contestants :
  n_guesses 3 1 no_draw = Raise IndexError /\
  n_guesses 3 3 no_draw = Raise IndexError.
Proof. split; reflexivity. Qed.

(** C5, as stated, fails for two contestants: [n_guesses] returns 0. *)
Lemma n_guesses_two_contestants : n_guesses 1 2 no_draw = Ok 0.
Proof. reflexivity. Qed.

(** * Further properties of the solver *)

Lemma foldM_inv {A B : Type} (f : A -> B -> result A) (I : A -> Prop)
      (l : list B) (a a' : A) :
  I a ->
  (forall a x a', In x l -> I a -> f a x = Ok a' -> I a') ->
  foldM f l a = Ok a' -> I a'.
Proof.
  revert a. induction l as [|x l IH]; intros a Ha Hstep; simpl.
  - intros H; inversion H; subst; exact Ha.
  - destruct (f a x) as [a1| |] eqn:E; simpl; try discriminate.
    apply IH.
    + apply (Hstep a x a1); auto. left; reflexivity.
    + intros a2 y a3 Hy. apply Hstep. right; exact Hy.
Qed.

(** ** [_weed_out_wrong_size] *)

Lemma max_len_loop_ge (lst : list tset) (m : nat) :
  (m <= fold_left (fun m s => Nat.max m (length s)) lst m)%nat /\
  (forall s, In s lst ->
             (length s <= fold_left (fun m s => Nat.max m (length s)) lst m)%nat).
Proof.
  revert m. induction lst as [|s0 lst IH]; intros m; simpl.
  - split; [lia | tauto].
  - destruct (IH (Nat.max m (length s0))) as (H1 & H2). split; [lia|].
    intros s [<-|Hs]; [lia | exact (H2 s Hs)].
Qed.

Lemma max_len_loop_attained (lst : list tset) (m : nat) :
  fold_left (fun m s => Nat.max m (length s)) lst m = m \/
  exists s, In s lst /\
            length s = fold_left (fun m s => Nat.max m (length s)) lst m.
Proof.
  revert m. induction lst as [|s0 lst IH]; intros m; simpl.
  - left; reflexivity.
  - destruct (IH (Nat.max m (length s0))) as [E|(s & Hs & E)].
    + rewrite E. destruct (Nat.max_spec m (length s0)) as [(_ & ->)|(_ & ->)].
      * right. exists s0. auto.
      * left. reflexivity.
    + right. exists s. auto.
Qed.

(** X5. [_weed_out_wrong_size] keeps exactly the sets that no set of the list
    is longer than. *)
Theorem weed_keeps_largest (lst : list tset) (s : tset) :
  In s (_weed_out_wrong_size lst) <->
  In s lst /\ forall s', In s' lst -> (length s' <= length s)%nat.
Proof.
  unfold _weed_out_wrong_size.
  destruct (length lst <=? 1)%nat eqn:E.
  - apply Nat.leb_le in E.
    destruct lst as [|s0 [|s1 lst]]; simpl in E; [| |lia].
    + simpl. split; [intros [] | intros ([] & _)].
    + simpl. split; [|tauto]. intros [<-|[]]. split; [auto|].
      intros s' [<-|[]]. lia.
  - rewrite filter_In, Nat.eqb_eq. unfold max_len.
    destruct (max_len_loop_ge lst 0) as (_ & Hge).
    split; intros (Hs & H); split; auto.
    + intros s' Hs'. rewrite H. apply Hge. exact Hs'.
    + destruct (max_len_loop_attained lst 0) as [E0|(s' & Hs' & E')].
      * specialize (Hge s Hs). lia.
      * specialize (H s' Hs'). specialize (Hge s Hs). lia.
Qed.

(** ** [_get_lights]: a key that [truth] lacks *)

Lemma get_lights_loop_result (guess truth : dict) (l : list name)
      (correct : Z) :
  (forall p, In p l -> In p (keys guess)) ->
  (exists c, foldM (fun correct p =>
                      do g <- dict_get guess p;
                      do t <- dict_get truth p;
                      Ok (if name_eqb g t then correct + 1 else correct))
                   l correct = Ok c) /\
  (forall p, In p l -> In p (keys truth))
  \/
  exists k, In k l /\ ~ In k (keys truth) /\
            foldM (fun correct p =>
                     do g <- dict_get guess p;
                     do t <- dict_get truth p;
                     Ok (if name_eqb g t then correct + 1 else correct))
                  l correct = Raise (KeyError k).
Proof.
  revert correct. induction l as [|p l IH]; intros correct Hg.
  - left. split; [exists correct; reflexivity | intros p []].
  - destruct (lookup_keys_some guess p) as (a & Ha);
      [apply Hg; left; reflexivity|].
    cbn [foldM]. rewrite (dict_get_ok _ _ _ Ha). cbn [bind].
    destruct (lookup truth p) as [b|] eqn:Eb.
    + rewrite (dict_get_ok _ _ _ Eb). cbn [bind].
      destruct (IH (if name_eqb a b then correct + 1 else correct))
        as [(Hc & Hall)|(k & Hk & Hnk & E)];
        [intros; apply Hg; right; assumption | |].
      * left. split; [exact Hc|]. intros q [<-|Hq]; [|auto].
        apply lookup_keys. congruence.
      * right. exists k. split; [right; exact Hk|]. split; assumption.
    + right. exists p. split; [left; reflexivity|]. split.
      * intros H. apply lookup_keys in H. congruence.
      * unfold dict_get. rewrite Eb. reflexivity.
Qed.

(** X6. [_get_lights] returns a number when every key of [guess] is a key of
    [truth]; otherwise it raises [KeyError] on a key of [guess] that
    [truth] lacks. *)
Theorem get_lights_missing_key (guess truth : dict) :
  (exists l, _get_lights guess truth = Ok l) /\
  (forall p, In p (keys guess) -> In p (keys truth))
  \/
  exists k, In k (keys guess) /\ ~ In k (keys truth) /\
            _get_lights guess truth = Raise (KeyError k).
Proof.
  unfold _get_lights.
  destruct (get_lights_loop_result guess truth (keys guess) 0)
    as [((c & E) & Hall)|(k & Hk & Hnk & E)]; [auto | |].
  - left. split; [|exact Hall]. rewrite E. cbn [bind]. eauto.
  - right. exists k. rewrite E. auto.
Qed.

(** ** [_get_lights] does not depend on which pairing is the guess *)

Lemma agrees_on_sym (g t : dict) (k : name) :
  agrees_on g t k = agrees_on t g k.
Proof.
  unfold agrees_on. destruct (lookup g k), (lookup t k); try reflexivity.
  apply String.eqb_sym.
Qed.

Lemma filter_length_perm {A : Type} (f : A -> bool) (l l' : list A) :
  Permutation l l' -> length (filter f l) = length (filter f l').
Proof.
  induction 1 as [|x l l' _ IH|x y l|l l' l'' _ IH1 _ IH2]; simpl.
  - reflexivity.
  - destruct (f x); simpl; rewrite IH; reflexivity.
  - destruct (f x), (f y); reflexivity.
  - congruence.
Qed.

(** X7. For two dictionaries with the same keys, the lights are the same
    whichever is the guess, and lie between 0 and half the number of
    keys. *)
Theorem get_lights_symmetric (g t : dict) :
  NoDup (keys g) -> NoDup (keys t) ->
  (forall k, In k (keys g) <-> In k (keys t)) ->
  exists l,
    _get_lights g t = Ok l /\ _get_lights t g = Ok l /\
    0 <= l <= Z.of_nat (length g) / 2.
Proof.
  intros Hg Ht Hk.
  rewrite (get_lights_count g t) by (intros; apply Hk; assumption).
  rewrite (get_lights_count t g) by (intros; apply Hk; assumption).
  assert (P : Permutation (keys g) (keys t))
    by (apply NoDup_Permutation; assumption).
  assert (E : length (filter (agrees_on t g) (keys t))
              = length (filter (agrees_on g t) (keys g))).
  { rewrite (filter_length_perm (agrees_on g t) _ _ P).
    f_equal. apply filter_ext. intros k. apply agrees_on_sym. }
  rewrite E. eexists. split; [reflexivity|]. split; [reflexivity|].
  pose proof (filter_length_le (agrees_on g t) (keys g)) as Hle.
  unfold keys in Hle at 2. rewrite length_map in Hle.
  split.
  - apply Z.div_pos; lia.
  - apply Z.div_le_mono; lia.
Qed.

Lemma get_lights_symmetric_witness :
  exists l,
    _get_lights [("C", "D"); ("D", "C"); ("A", "B"); ("B", "A")]%string
                [("B", "D"); ("D", "B"); ("A", "C"); ("C", "A")]%string
    = Ok l /\
    _get_lights [("B", "D"); ("D", "B"); ("A", "C"); ("C", "A")]%string
                [("C", "D"); ("D", "C"); ("A", "B"); ("B", "A")]%string
    = Ok l /\
    0 <= l <= 4 / 2.
Proof.
  apply (get_lights_symmetric
           [("C", "D"); ("D", "C"); ("A", "B"); ("B", "A")]%string
           [("B", "D"); ("D", "B"); ("A", "C"); ("C", "A")]%string).
  - repeat constructor; simpl; intuition discriminate.
  - repeat constructor; simpl; intuition discriminate.
  - intros k; simpl; tauto.
Defined.

(** ** [_generate_random_pairing] and [n_guesses] on an odd number of names *)

Lemma random_pairing_loop_odd (fuel : nat) :
  forall (people : list name) (pairs : dict) (g : rng) (h : nat),
    length people = (2 * h + 1)%nat ->
    (length people <= fuel)%nat ->
    random_pairing_loop fuel people pairs g = Raise IndexError.
Proof.
  induction fuel as [|fuel IH]; intros people pairs g h Hlen Hfuel; [lia|].
  rewrite random_pairing_loop_S.
  assert (Hpos : (0 < length people)%nat) by lia.
  assert (E0 : negb (0 <? length people)%nat = false).
  { apply negb_false_iff. apply Nat.ltb_lt. exact Hpos. }
  rewrite E0.
  pose proof (randindex_lt (length people) g Hpos) as Hi.
  destruct (pop_length _ people Hi) as (a & rest1 & Ea & Hl1).
  rewrite Ea. cbn [bind fst snd].
  destruct h as [|h].
  - destruct rest1; [reflexivity | simpl in Hl1; lia].
  - assert (Hpos1 : (0 < length rest1)%nat) by lia.
    pose proof (randindex_lt (length rest1)
                             (snd (randindex (length people) g)) Hpos1)
      as Hj.
    destruct (pop_length _ rest1 Hj) as (b & rest2 & Eb & Hl2).
    rewrite Eb. cbn [bind fst snd].
    apply (IH _ _ _ h); lia.
Qed.

Lemma random_pairing_odd_raises (names : list name) (g : rng) :
  Nat.odd (length names) = true ->
  _generate_random_pairing names g = Raise IndexError.
Proof.
  intros Hodd. apply Nat.odd_spec in Hodd. destruct Hodd as (h & Hh).
  unfold _generate_random_pairing.
  apply (random_pairing_loop_odd _ _ _ _ h); lia.
Qed.

(** X13. On an odd number of names [_generate_random_pairing] raises
    [IndexError]: the last name has nobody left to be popped with. *)
Theorem generate_random_pairing_odd (names : list name) (g : rng) :
  Nat.odd (length names) = true ->
  _generate_random_pairing names g = Raise IndexError.
Proof. exact (random_pairing_odd_raises names g). Qed.

Lemma generate_random_pairing_odd_witness :
  _generate_random_pairing ["0"; "1"; "2"]%string no_draw = Raise IndexError.
Proof.
  apply (generate_random_pairing_odd ["0"; "1"; "2"]%string no_draw).
  reflexivity.
Defined.

(** X12. On an even number of distinct names [_generate_random_pairing] returns
    a perfect matching of the names, whatever the draws. *)
Theorem generate_random_pairing_even (names : list name) (g : rng) :
  NoDup names -> Nat.even (length names) = true ->
  exists truth g',
    _generate_random_pairing names g = Ok (truth, g') /\
    perfect_matching names truth.
Proof.
  intros Hnd Hev. apply Nat.even_spec in Hev. destruct Hev as (h & Hh).
  exact (generate_random_pairing_perfect names g h Hnd Hh).
Qed.

Lemma generate_random_pairing_even_witness :
  exists truth g',
    _generate_random_pairing ["0"; "1"; "2"; "3"]%string no_draw
    = Ok (truth, g') /\
    perfect_matching ["0"; "1"; "2"; "3"]%string truth.
Proof.
  apply (generate_random_pairing_even ["0"; "1"; "2"; "3"]%string no_draw).
  - repeat constructor; simpl; intuition discriminate.
  - reflexivity.
Defined.

(** X14. For an odd number of contestants, and for none, [n_guesses] raises
    [IndexError], whatever the draws. *)
Theorem n_guesses_odd (contestants fuel : nat) (g : rng) :
  contestants = O \/ Nat.odd contestants = true ->
  n_guesses fuel contestants g = Raise IndexError.
Proof.
  intros [->|Hodd]; [destruct fuel; reflexivity|].
  unfold n_guesses.
  assert (E : _generate_random_pairing (map str (range contestants)) g
              = Raise IndexError).
  { apply random_pairing_odd_raises. rewrite names_length. exact Hodd. }
  cbv zeta. rewrite E. reflexivity.
Qed.

Lemma n_guesses_odd_witness : n_guesses 5 7 no_draw = Raise IndexError.
Proof.
  apply (n_guesses_odd 7 5 no_draw). right. reflexivity.
Defined.

(** ** A negative [sample] *)

Lemma sampled_size_no_draw (pairings : list dict) (p : dict)
      (n_contestants : nat) (sample : Z) (g : rng) :
  sample < 0 ->
  sampled_size pairings p n_contestants sample g = Ok (0, g).
Proof.
  intros Hneg. unfold sampled_size.
  assert (E : Z.to_nat sample = O) by lia. rewrite E.
  assert (H : forall ks tot,
             foldM (fun (tg : Z * rng) k =>
                      do mg <-
                         foldM (fun (mg : Z * rng) (_ : nat) =>
                                  let (i, g') :=
                                    randindex (length pairings) (snd mg) in
                                  do truth <- index pairings i;
                                  do b <- _correct_number p truth
                                                          (Z.of_nat k);
                                  Ok (fst mg + Z_of_bool b, g'))
                               (range 0) (0, snd tg);
                      Ok (fst tg + fst mg ^ 2, snd mg))
                   ks (tot, g) = Ok (tot, g)).
  { induction ks as [|k ks IH]; intros tot; [reflexivity|].
    cbn [range seq foldM bind fst snd].
    replace (tot + 0 ^ 2) with tot by (simpl; lia). apply IH. }
  apply H.
Qed.

(** X22. With a negative [sample], [get_optimal_pairing] draws nothing, scores
    every pairing 0 and returns the first pairing of the list. *)
Theorem optimal_pairing_negative_sample (first : dict) (rest : list dict)
        (sample : Z) (g : rng) :
  sample < 0 ->
  get_optimal_pairing (first :: rest) (Some sample) g = Ok (Some first, g).
Proof.
  intros Hneg. unfold get_optimal_pairing.
  assert (Ht : truthy (Some sample) = true).
  { unfold truthy. apply negb_true_iff. apply Z.eqb_neq. lia. }
  cbn [length Nat.ltb Nat.leb index nth_error bind]. rewrite Ht. cbv iota.
  cbn [foldM fst snd].
  rewrite (sampled_size_no_draw (first :: rest) first (length first)
                                sample g Hneg).
  cbn [bind fst snd below].
  assert (Hrest : forall l,
             foldM (fun (st : option Z * option dict * rng) p =>
                      do eg <- sampled_size (first :: rest) p (length first)
                                            sample (snd st);
                      if below (fst eg) (fst (fst st))
                      then Ok (Some (fst eg), Some p, snd eg)
                      else Ok (fst (fst st), snd (fst st), snd eg))
                   l (Some 0, Some first, g)
             = Ok (Some 0, Some first, g)).
  { induction l as [|p l IH]; [reflexivity|]. cbn [foldM fst snd].
    rewrite (sampled_size_no_draw (first :: rest) p (length first)
                                  sample g Hneg).
    cbn [bind fst snd below]. rewrite Z.ltb_irrefl. exact IH. }
  cbv zeta. rewrite Hrest. reflexivity.
Qed.

Lemma optimal_pairing_negative_sample_witness :
  get_optimal_pairing abcd_pairings (Some (-3)) no_draw
  = Ok (Some [("C", "D"); ("D", "C"); ("A", "B"); ("B", "A")]%string,
        no_draw).
Proof.
  apply (optimal_pairing_negative_sample
           [("C", "D"); ("D", "C"); ("A", "B"); ("B", "A")]%string
           [[("B", "D"); ("D", "B"); ("A", "C"); ("C", "A")]%string;
            [("B", "C"); ("C", "B"); ("A", "D"); ("D", "A")]%string]
           (-3) no_draw).
  lia.
Defined.

(** ** [_enforce_symmetric_pairing]: what it accepts *)

Lemma add_reverse_fold (d : dict) :
  add_reverse d = fold_left reverse_step (keys d) d.
Proof. reflexivity. Qed.

Lemma keys_dict_set (d : dict) (k v x : name) :
  In x (keys (dict_set d k v)) <-> x = k \/ In x (keys d).
Proof.
  rewrite !lookup_keys, lookup_dict_set.
  destruct (name_eqb x k) eqn:E.
  - apply name_eqb_eq in E. split; [auto | discriminate].
  - apply name_eqb_neq in E. tauto.
Qed.

Lemma NoDup_keys_dict_set (d : dict) (k v : name) :
  NoDup (keys d) -> NoDup (keys (dict_set d k v)).
Proof.
  induction d as [|[k0 v0] d IH]; simpl; intros Hnd.
  - constructor; [tauto | constructor].
  - inversion Hnd as [|? ? Hn Hnd']; subst.
    destruct (name_eqb k k0) eqn:E; simpl.
    + constructor; assumption.
    + constructor; [|auto]. intros H. apply keys_dict_set in H.
      apply name_eqb_neq in E. destruct H; [congruence | contradiction].
Qed.

Lemma reverse_fold_keys (l : list name) (d : dict) (x : name) :
  In x (keys d) -> In x (keys (fold_left reverse_step l d)).
Proof.
  revert d. induction l as [|k l IH]; intros d Hx; simpl; [exact Hx|].
  apply IH. unfold reverse_step. destruct (lookup d k); [|exact Hx].
  apply keys_dict_set. right; exact Hx.
Qed.

Lemma reverse_fold_NoDup (l : list name) (d : dict) :
  NoDup (keys d) -> NoDup (keys (fold_left reverse_step l d)).
Proof.
  revert d. induction l as [|k l IH]; intros d Hnd; simpl; [exact Hnd|].
  apply IH. unfold reverse_step. destruct (lookup d k); [|exact Hnd].
  apply NoDup_keys_dict_set. exact Hnd.
Qed.

Lemma reverse_fold_untouched (l : list name) (d : dict) (x : name) :
  ~ In x (touched l d) ->
  lookup (fold_left reverse_step l d) x = lookup d x.
Proof.
  revert d. induction l as [|k l IH]; intros d Hx; simpl; [reflexivity|].
  simpl in Hx. unfold reverse_step at 2.
  destruct (lookup d k) as [v|] eqn:E.
  - rewrite IH by (intros H; apply Hx; right; right; exact H).
    rewrite lookup_dict_set.
    destruct (name_eqb x v) eqn:Ev; [|reflexivity].
    apply name_eqb_eq in Ev. subst. exfalso. apply Hx. right; left.
    reflexivity.
  - apply IH. intros H; apply Hx; right; exact H.
Qed.

Lemma reverse_fold_new_keys (l : list name) (d : dict) (x : name) :
  In x (keys (fold_left reverse_step l d)) ->
  In x (keys d) \/ In x (touched l d).
Proof.
  revert d. induction l as [|k l IH]; intros d Hx; simpl in *; [auto|].
  unfold reverse_step in Hx at 2.
  destruct (lookup d k) as [v|] eqn:E.
  - destruct (IH _ Hx) as [H|H].
    + apply keys_dict_set in H. destruct H as [->|H]; [|auto].
      right. right. left. reflexivity.
    + right. right. right. exact H.
  - destruct (IH _ Hx) as [H|H]; [auto|]. right. right. exact H.
Qed.

Lemma touched_keys (l : list name) (d : dict) (x : name) :
  In x l -> In x (touched l d).
Proof.
  revert d. induction l as [|k l IH]; intros d; simpl; [tauto|].
  intros [E|Hx]; destruct (lookup d k); simpl; auto.
Qed.

(** After the rounds, a key that was read or written points to a key that
    points back, when no two keys have the same value. *)
Lemma reverse_fold_pairs (l : list name) :
  forall d : dict,
    (forall k, In k l -> In k (keys d)) ->
    injective (fold_left reverse_step l d) ->
    forall x, In x (touched l d) ->
              exists y, lookup (fold_left reverse_step l d) x = Some y /\
                        lookup (fold_left reverse_step l d) y = Some x.
Proof.
  induction l as [|k l IH]; intros d Hl Hinj x Hx; [destruct Hx|].
  destruct (lookup_keys_some d k (Hl k (or_introl eq_refl))) as (v & Ev).
  simpl in Hx. rewrite Ev in Hx.
  assert (Estep : reverse_step d k = dict_set d v k)
    by (unfold reverse_step; rewrite Ev; reflexivity).
  simpl fold_left in *. rewrite Estep in *.
  set (d1 := dict_set d v k) in *.
  set (d' := fold_left reverse_step l d1) in *.
  assert (Hl1 : forall k0, In k0 l -> In k0 (keys d1)).
  { intros k0 Hk0. apply keys_dict_set. right. apply Hl. right; exact Hk0. }
  pose proof (IH d1 Hl1 Hinj) as IH1. fold d' in IH1.
  assert (Hv1 : lookup d1 v = Some k).
  { unfold d1. rewrite lookup_dict_set, name_eqb_refl. reflexivity. }
  assert (Hk1 : lookup d1 k = Some v).
  { unfold d1. rewrite lookup_dict_set.
    destruct (name_eqb k v) eqn:E; [|exact Ev].
    apply name_eqb_eq in E. congruence. }
  assert (Hk : exists y, lookup d' k = Some y /\ lookup d' y = Some k).
  { destruct (in_dec string_dec k (touched l d1)) as [Hin|Hnin];
      [exact (IH1 k Hin)|].
    exists v. split.
    - unfold d'. rewrite reverse_fold_untouched by exact Hnin. exact Hk1.
    - destruct (in_dec string_dec v (touched l d1)) as [Hin'|Hnin'].
      + destruct (IH1 v Hin') as (y & Hy1 & Hy2).
        assert (Hkv : lookup d' k = Some v)
          by (unfold d'; rewrite reverse_fold_untouched by exact Hnin;
              exact Hk1).
        rewrite (Hinj k y v Hkv Hy2). exact Hy1.
      + unfold d'. rewrite reverse_fold_untouched by exact Hnin'.
        exact Hv1. }
  assert (Hv : exists y, lookup d' v = Some y /\ lookup d' y = Some v).
  { destruct (in_dec string_dec v (touched l d1)) as [Hin|Hnin];
      [exact (IH1 v Hin)|].
    exists k. split.
    - unfold d'. rewrite reverse_fold_untouched by exact Hnin. exact Hv1.
    - destruct Hk as (y & Hy1 & Hy2).
      assert (Hvk : lookup d' v = Some k)
        by (unfold d'; rewrite reverse_fold_untouched by exact Hnin;
            exact Hv1).
      rewrite <- (Hinj v y k Hvk Hy2) in Hy1. exact Hy1. }
  destruct Hx as [<-|[<-|Hx]]; [exact Hk | exact Hv | exact (IH1 x Hx)].
Qed.

Lemma NoDup_values_injective (d : dict) :
  NoDup (values d) -> injective d.
Proof.
  intros Hnd x y z Hx Hy.
  apply lookup_In in Hx, Hy. revert Hnd Hx Hy. unfold values.
  induction d as [|[k0 v0] d IH]; simpl; [tauto|].
  intros Hnd. inversion Hnd as [|? ? Hn Hnd']; subst.
  intros [Hx|Hx] [Hy|Hy].
  - congruence.
  - inversion Hx; subst. exfalso. apply Hn.
    change z with (snd (y, z)). apply in_map. exact Hy.
  - inversion Hy; subst. exfalso. apply Hn.
    change z with (snd (x, z)). apply in_map. exact Hx.
  - auto.
Qed.

Lemma same_set_injective (d : dict) :
  NoDup (keys d) -> same_set (keys d) (values d) = true -> injective d.
Proof.
  intros Hnd Hs. apply NoDup_values_injective.
  unfold same_set in Hs. apply andb_true_iff in Hs. destruct Hs as (Hs & _).
  apply (NoDup_incl_NoDup (l := keys d)).
  - exact Hnd.
  - unfold keys, values. rewrite !length_map. lia.
  - intros x Hx. apply (proj1 (subset_spec _ _) Hs). exact Hx.
Qed.

(** When the second loop leaves keys and values that are the same set, the
    dictionary is symmetric. *)
Lemma add_reverse_symmetric_result (d : dict) :
  NoDup (keys d) ->
  same_set (keys (add_reverse d)) (values (add_reverse d)) = true ->
  symmetric (add_reverse d).
Proof.
  intros Hnd Hs.
  assert (Hnd' : NoDup (keys (add_reverse d)))
    by (rewrite add_reverse_fold; apply reverse_fold_NoDup; exact Hnd).
  pose proof (same_set_injective _ Hnd' Hs) as Hinj.
  intros a b Hab.
  assert (Ha : In a (touched (keys d) d)).
  { assert (In a (keys (add_reverse d))) by (apply lookup_keys; congruence).
    rewrite add_reverse_fold in H.
    destruct (reverse_fold_new_keys _ _ _ H) as [H'|H']; [|exact H'].
    apply touched_keys. exact H'. }
  rewrite add_reverse_fold in *.
  destruct (reverse_fold_pairs (keys d) d (fun k H => H) Hinj a Ha)
    as (y & Hy1 & Hy2).
  congruence.
Qed.

(** X8. Whenever [_enforce_symmetric_pairing] returns, the dictionary it
    leaves is symmetric and keeps every key it had. *)
Theorem enforce_returns_symmetric (d d' : dict) :
  NoDup (keys d) ->
  _enforce_symmetric_pairing d = (d', Ok tt) ->
  symmetric d' /\ NoDup (keys d') /\
  forall k, In k (keys d) -> In k (keys d').
Proof.
  intros Hnd. unfold _enforce_symmetric_pairing.
  destruct (symmetric_check_loop d); try discriminate.
  destruct (same_set (keys (add_reverse d)) (values (add_reverse d))) eqn:Es;
    simpl; intros H; inversion H; subst.
  split; [|split].
  - apply add_reverse_symmetric_result; assumption.
  - rewrite add_reverse_fold. apply reverse_fold_NoDup. exact Hnd.
  - intros k Hk. rewrite add_reverse_fold. apply reverse_fold_keys. exact Hk.
Qed.

Lemma enforce_returns_symmetric_witness :
  symmetric [("a", "b"); ("b", "a")]%string /\
  NoDup (keys [("a", "b"); ("b", "a")]%string) /\
  forall k, In k (keys [("a", "b")]%string) ->
            In k (keys [("a", "b"); ("b", "a")]%string).
Proof.
  apply (enforce_returns_symmetric [("a", "b")]%string).
  - repeat constructor; simpl; intuition discriminate.
  - reflexivity.
Defined.

(** ** A symmetric dictionary is accepted as it is *)

Lemma enforce_symmetric_fixed (d : dict) :
  NoDup (keys d) -> symmetric d -> _enforce_symmetric_pairing d = (d, Ok tt).
Proof.
  intros Hnd Hs. unfold _enforce_symmetric_pairing.
  destruct (symmetric_check_loop_ok d Hs) as (sc & E). rewrite E.
  rewrite (add_reverse_symmetric d Hs).
  rewrite (symmetric_same_set d Hnd Hs). reflexivity.
Qed.

(** X9. [_enforce_symmetric_pairing] is idempotent: a dictionary it has
    accepted is accepted again and left as it is. *)
Theorem enforce_idempotent (d d' : dict) :
  NoDup (keys d) ->
  _enforce_symmetric_pairing d = (d', Ok tt) ->
  _enforce_symmetric_pairing d' = (d', Ok tt).
Proof.
  intros Hnd. unfold _enforce_symmetric_pairing at 1.
  destruct (symmetric_check_loop d); try discriminate.
  destruct (same_set (keys (add_reverse d)) (values (add_reverse d))) eqn:Es;
    simpl; intros H; inversion H; subst.
  apply enforce_symmetric_fixed.
  - rewrite add_reverse_fold. apply reverse_fold_NoDup. exact Hnd.
  - apply add_reverse_symmetric_result; assumption.
Qed.

Lemma enforce_idempotent_witness :
  _enforce_symmetric_pairing [("a", "b"); ("b", "a")]%string
  = ([("a", "b"); ("b", "a")]%string, Ok tt).
Proof.
  apply (enforce_idempotent [("a", "b")]%string).
  - repeat constructor; simpl; intuition discriminate.
  - reflexivity.
Defined.

(** ** A pairing given in one direction *)

Section OneDirection.

Variable d : dict.
Hypothesis Hkeys : NoDup (keys d).
Hypothesis Hvalues : NoDup (values d).
Hypothesis Hapart : forall k, In k (keys d) -> ~ In k (values d).

Lemma one_direction_inner (sc : dict) (p : name) (l : list name) :
  (forall k v, lookup sc k = Some v -> lookup d k = Some v) ->
  In p (keys d) ->
  (forall k, In k l -> In k (keys sc)) ->
  foldM (fun (_ : unit) k =>
           do v <- dict_get sc k;
           if negb (name_eqb v p) then Ok tt
           else
             do w <- dict_get d p;
             if negb (name_eqb w k) then Raise not_symmetric else Ok tt)
        l tt = Ok tt.
Proof.
  intros Hsub Hp.
  set (body := fun (_ : unit) (k : name) =>
                 do v <- dict_get sc k;
                 if negb (name_eqb v p) then Ok tt
                 else
                   do w <- dict_get d p;
                   if negb (name_eqb w k) then Raise not_symmetric
                   else Ok tt).
  induction l as [|k l IH]; intros Hl; [reflexivity|].
  change (foldM body (k :: l) tt) with (do a <- body tt k; foldM body l a).
  assert (Hb : body tt k = Ok tt).
  { unfold body.
    destruct (lookup_keys_some sc k) as (v & Hv);
      [apply Hl; left; reflexivity|].
    rewrite (dict_get_ok _ _ _ Hv). simpl.
    destruct (name_eqb v p) eqn:E; simpl; [|reflexivity].
    apply name_eqb_eq in E. subst v. exfalso.
    apply (Hapart p Hp). apply Hsub in Hv. apply lookup_In in Hv.
    change p with (snd (k, p)). apply in_map. exact Hv. }
  rewrite Hb. simpl. apply IH. intros; apply Hl; right; assumption.
Qed.

Lemma one_direction_check : exists sc, symmetric_check_loop d = Ok sc.
Proof.
  unfold symmetric_check_loop.
  destruct (foldM_ok_ind
              (fun symmetric_check p =>
                 do _ <-
                    foldM (fun (_ : unit) k =>
                             do v <- dict_get symmetric_check k;
                             if negb (name_eqb v p) then Ok tt
                             else
                               do w <- dict_get d p;
                               if negb (name_eqb w k)
                               then Raise not_symmetric
                               else Ok tt)
                          (keys symmetric_check) tt;
                 do w <- dict_get d p;
                 Ok (dict_set symmetric_check p w))
              (fun sc => forall k v, lookup sc k = Some v ->
                                     lookup d k = Some v)
              (keys d) []) as (sc & E & _).
  - intros k v; discriminate.
  - intros sc p Hp Hsub.
    rewrite (one_direction_inner sc p (keys sc) Hsub Hp) by auto.
    simpl.
    destruct (lookup_keys_some d p Hp) as (w & Hw).
    rewrite (dict_get_ok _ _ _ Hw). simpl.
    eexists; split; [reflexivity|].
    intros k v. rewrite lookup_dict_set.
    destruct (name_eqb k p) eqn:Ek.
    + apply name_eqb_eq in Ek. subst k. intros H; inversion H; subst.
      exact Hw.
    + apply Hsub.
  - eauto.
Qed.

Lemma one_direction_reverse (l pre : dict) :
  d = pre ++ l ->
  fold_left reverse_step (keys l) (d ++ reversed pre)
  = d ++ reversed pre ++ reversed l.
Proof.
  revert pre. induction l as [|[k v] l IH]; intros pre Hd; simpl.
  - rewrite app_nil_r. reflexivity.
  - assert (Hin : In (k, v) d)
      by (rewrite Hd; apply in_app_iff; right; left; reflexivity).
    assert (Hk : lookup (d ++ reversed pre) k = Some v).
    { rewrite lookup_app. rewrite (In_lookup d k v Hkeys Hin). reflexivity. }
    unfold reverse_step at 2. rewrite Hk.
    assert (Hfresh : ~ In v (keys (d ++ reversed pre))).
    { unfold keys, reversed. rewrite map_app, map_map. simpl.
      rewrite in_app_iff. intros [H|H].
      - apply (Hapart v H). change v with (snd (k, v)). apply in_map.
        exact Hin.
      - revert Hvalues. rewrite Hd. unfold values. rewrite map_app. simpl.
        intros Hnd. apply NoDup_remove_2 in Hnd. apply Hnd.
        apply in_app_iff. left. exact H. }
    rewrite (dict_set_fresh _ v k Hfresh).
    rewrite <- app_assoc.
    replace (reversed pre ++ [(v, k)]) with (reversed (pre ++ [(k, v)]))
      by (unfold reversed; rewrite map_app; reflexivity).
    rewrite IH by (rewrite Hd, <- app_assoc; reflexivity).
    unfold reversed. rewrite map_app, <- app_assoc. reflexivity.
Qed.

End OneDirection.

(** X10. A pairing given in one direction only (no key is a value, no value
    comes twice) is accepted, and the reverse of each of its pairs is
    appended to it, in order. *)
Theorem enforce_completes_one_direction (d : dict) :
  NoDup (keys d) -> NoDup (values d) ->
  (forall k, In k (keys d) -> ~ In k (values d)) ->
  _enforce_symmetric_pairing d = (d ++ reversed d, Ok tt).
Proof.
  intros Hk Hv Ha. unfold _enforce_symmetric_pairing.
  destruct (one_direction_check d Ha) as (sc & E). rewrite E.
  assert (Er : add_reverse d = d ++ reversed d).
  { rewrite add_reverse_fold.
    pose proof (one_direction_reverse d Hk Hv Ha d [] eq_refl) as H.
    simpl in H. rewrite app_nil_r in H. exact H. }
  rewrite Er.
  assert (Es : same_set (keys (d ++ reversed d)) (values (d ++ reversed d))
               = true).
  { unfold same_set. apply andb_true_iff.
    assert (Ek : keys (d ++ reversed d) = keys d ++ values d).
    { unfold keys, values, reversed. rewrite map_app, map_map. reflexivity. }
    assert (Ev : values (d ++ reversed d) = values d ++ keys d).
    { unfold keys, values, reversed. rewrite map_app, map_map. reflexivity. }
    rewrite Ek, Ev.
    split; apply subset_spec; intros x; rewrite !in_app_iff; tauto. }
  rewrite Es. reflexivity.
Qed.

Lemma enforce_completes_one_direction_witness :
  _enforce_symmetric_pairing [("Aasha", "Paige"); ("Amber", "Nour")]%string
  = ([("Aasha", "Paige"); ("Amber", "Nour")]%string
       ++ reversed [("Aasha", "Paige"); ("Amber", "Nour")]%string,
     Ok tt).
Proof.
  apply enforce_completes_one_direction.
  - repeat constructor; simpl; intuition discriminate.
  - repeat constructor; simpl; intuition discriminate.
  - simpl. intuition (subst; discriminate).
Defined.

(** ** A name paired with itself *)

(** X11. The check is not a test of symmetry of what it was given: on
    [{a: a, b: a}] it raises nothing, and leaves [{a: b, b: a}]. *)
Theorem enforce_overwrites_self_pair (a b : name) :
  a <> b ->
  _enforce_symmetric_pairing [(a, a); (b, a)]
  = ([(a, b); (b, a)], Ok tt).
Proof.
  intros Hab.
  assert (E1 : name_eqb a b = false) by (apply name_eqb_neq; exact Hab).
  assert (E2 : name_eqb b a = false)
    by (apply name_eqb_neq; intros H; apply Hab; symmetry; exact H).
  unfold _enforce_symmetric_pairing, symmetric_check_loop, add_reverse,
    same_set, subset, dict_get.
  simpl. rewrite ?name_eqb_refl, ?E1, ?E2. simpl.
  rewrite ?name_eqb_refl, ?E1, ?E2. simpl.
  rewrite ?name_eqb_refl, ?E1, ?E2. simpl.
  rewrite ?name_eqb_refl, ?E1, ?E2. simpl.
  reflexivity.
Qed.

Lemma enforce_overwrites_self_pair_witness :
  _enforce_symmetric_pairing [("a", "a"); ("b", "a")]%string
  = ([("a", "b"); ("b", "a")]%string, Ok tt).
Proof.
  apply enforce_overwrites_self_pair. discriminate.
Defined.

(** ** The generator never pairs two names that the constraints keep apart *)

Lemma in_exclusive_group_sym (a b : name) (groups : list (list name)) :
  in_exclusive_group a b groups = in_exclusive_group b a groups.
Proof.
  unfold in_exclusive_group. induction groups as [|g groups IH]; simpl;
    [reflexivity|].
  rewrite IH, (andb_comm (mem a g)). reflexivity.
Qed.

Lemma allowed_sym (exclude : tset) (groups : list (list name)) (a b : name) :
  allowed exclude groups a b -> allowed exclude groups b a.
Proof.
  intros (H1 & H2 & H3). repeat split; auto.
  rewrite in_exclusive_group_sym. exact H3.
Qed.

Lemma weed_incl (lst : list tset) (s : tset) :
  In s (_weed_out_wrong_size lst) -> In s lst.
Proof.
  unfold _weed_out_wrong_size. destruct (length lst <=? 1)%nat; [auto|].
  intros H. apply filter_In in H. tauto.
Qed.

Lemma sound_pairing_incl (people people' : list name) (exclude : tset)
      (groups : list (list name)) (m : tset) :
  (forall x, In x people -> In x people') ->
  sound_pairing people exclude groups m ->
  sound_pairing people' exclude groups m.
Proof.
  intros Hi Hs a b Hab. destruct (Hs a b Hab) as (H1 & H2 & H3 & H4).
  split; [exact H1|]. split; [auto|]. split; [auto|]. exact H4.
Qed.

Lemma sound_pairing_add (people : list name) (exclude : tset)
      (groups : list (list name)) (m : tset) (x o : name) :
  In x people -> In o people -> allowed exclude groups x o ->
  sound_pairing people exclude groups m ->
  sound_pairing people exclude groups (set_add (set_add m (x, o)) (o, x)).
Proof.
  intros Hx Ho Ha Hs a b Hab.
  apply set_add_In in Hab. destruct Hab as [Hab|Hab].
  - apply set_add_In in Hab. destruct Hab as [Hab|Hab].
    + destruct (Hs a b Hab) as (H1 & H2 & H3 & H4).
      split; [|split; [auto|split; [auto|exact H4]]].
      apply set_add_In. left. apply set_add_In. left. exact H1.
    + inversion Hab; subst. split.
      * apply set_add_In. right. reflexivity.
      * split; [auto|split; [auto|exact Ha]].
  - inversion Hab; subst. split.
    + apply set_add_In. left. apply set_add_In. right. reflexivity.
    + pose proof (allowed_sym _ _ _ _ Ha) as Ha'.
      split; [auto|split; [auto|exact Ha']].
Qed.

Section Sound.

Variables (exclude : tset) (exclusive_groups : list (list name)).
Variable rec : list name -> result (list tset).
Hypothesis Hrec :
  forall ng cg, rec ng = Ok cg ->
                Forall (sound_pairing ng exclude exclusive_groups) cg.

Lemma partner_round_sound (x : name) (clone : list name)
      (pairings pairings' : list tset) (i : nat) :
  Forall (sound_pairing (x :: clone) exclude exclusive_groups) pairings ->
  partner_round rec x clone exclude exclusive_groups pairings i
  = Ok pairings' ->
  Forall (sound_pairing (x :: clone) exclude exclusive_groups) pairings'.
Proof.
  intros Hacc. unfold partner_round.
  destruct (pop i clone) as [[o ng]| |] eqn:Ep; cbn [bind fst snd];
    try discriminate.
  apply pop_spec in Ep. destruct Ep as (_ & Hperm).
  destruct (tuple_mem (x, o) exclude || tuple_mem (o, x) exclude) eqn:Ex;
    [intros H; inversion H; subst; exact Hacc|].
  destruct (in_exclusive_group x o exclusive_groups) eqn:Eg;
    [intros H; inversion H; subst; exact Hacc|].
  destruct (rec ng) as [cg| |] eqn:Er; cbn [bind]; try discriminate.
  intros H; inversion H; subst. clear H.
  apply orb_false_iff in Ex. destruct Ex as (Ex1 & Ex2).
  assert (Ha : allowed exclude exclusive_groups x o)
    by (repeat split; assumption).
  assert (Hx : In x (x :: clone)) by (left; reflexivity).
  assert (Ho : In o (x :: clone)).
  { right. eapply Permutation_in; [apply Permutation_sym; exact Hperm|].
    left; reflexivity. }
  assert (Hng : forall y, In y ng -> In y (x :: clone)).
  { intros y Hy. right.
    eapply Permutation_in; [apply Permutation_sym; exact Hperm|].
    right; exact Hy. }
  apply Forall_app. split; [exact Hacc|].
  pose proof (Hrec ng cg Er) as Hcg. rewrite Forall_forall in Hcg.
  cbv zeta.
  destruct (length (map (fun s => set_add (set_add s (x, o)) (o, x))
                        (_weed_out_wrong_size cg)) =? 0)%nat.
  - constructor; [|constructor].
    apply sound_pairing_add; auto. intros a b [].
  - apply Forall_forall. intros m Hm. apply in_map_iff in Hm.
    destruct Hm as (s & <- & Hs). apply sound_pairing_add; auto.
    apply (sound_pairing_incl ng); [exact Hng|].
    apply Hcg. apply weed_incl. exact Hs.
Qed.

Lemma partner_rounds_sound (x : name) (clone : list name) (idxs : list nat)
      (pairings pairings' : list tset) :
  Forall (sound_pairing (x :: clone) exclude exclusive_groups) pairings ->
  foldM (partner_round rec x clone exclude exclusive_groups) idxs pairings
  = Ok pairings' ->
  Forall (sound_pairing (x :: clone) exclude exclusive_groups) pairings'.
Proof.
  intros Hacc. apply foldM_inv; [exact Hacc|].
  intros a i a' _ Ha. apply partner_round_sound. exact Ha.
Qed.

End Sound.

Lemma pairings_fuel_sound (exclude : tset) (groups : list (list name))
      (fuel : nat) :
  forall people l,
    pairings_fuel fuel people [] exclude groups = Ok l ->
    Forall (sound_pairing people exclude groups) l.
Proof.
  induction fuel as [|fuel IH]; intros people l.
  - destruct people; simpl; intros H; inversion H. constructor.
  - rewrite pairings_fuel_S.
    destruct people as [|x clone];
      [intros H; inversion H; constructor|].
    cbn [length Nat.eqb remove_known bind pop fst snd].
    destruct (foldM _ _ _) as [pairings| |] eqn:E; cbn [bind];
      try discriminate.
    intros H; inversion H; subst. clear H.
    assert (Hid : map (add_known []) pairings = pairings).
    { rewrite <- (map_id pairings) at 2. apply map_ext.
      intros s. reflexivity. }
    rewrite Hid.
    apply (partner_rounds_sound
             exclude groups
             (fun next_group => pairings_fuel fuel next_group [] exclude groups)
             IH x clone (seq 0 (length clone)) [] pairings);
      [constructor | exact E].
Qed.

Lemma list_remove_incl (x : name) (l l' : list name) :
  list_remove x l = Ok l' -> forall y, In y l' -> In y l.
Proof.
  revert l'. induction l as [|z l IH]; intros l'; simpl; [discriminate|].
  destruct (name_eqb x z).
  - intros H; inversion H; subst. intros y Hy. right; exact Hy.
  - destruct (list_remove x l) as [r| |] eqn:E; simpl; try discriminate.
    intros H; inversion H; subst. intros y [Hy|Hy]; [left; exact Hy|].
    right. exact (IH r eq_refl y Hy).
Qed.

Lemma remove_known_incl (people : list name) (include : tset)
      (clone clone' : list name) :
  remove_known people clone include = Ok clone' ->
  forall y, In y clone' -> In y clone.
Proof.
  revert clone. induction include as [|[a b] include IH]; intros clone; simpl.
  - intros H; inversion H; auto.
  - destruct (if mem a clone then list_remove a clone else Ok clone)
      as [c1| |] eqn:E1; simpl; try discriminate.
    destruct (if mem b people then list_remove b c1 else Ok c1)
      as [c2| |] eqn:E2; simpl; try discriminate.
    intros H y Hy. apply (IH _ H) in Hy.
    assert (H2 : In y c1).
    { destruct (mem b people); [exact (list_remove_incl _ _ _ E2 y Hy)|].
      inversion E2; subst; exact Hy. }
    destruct (mem a clone); [exact (list_remove_incl _ _ _ E1 y H2)|].
    inversion E1; subst; exact H2.
Qed.

Lemma add_known_inv (include : tset) (p : tset) (t : tuple) :
  In t (add_known include p) ->
  In t p \/ In t include \/ In (snd t, fst t) include.
Proof.
  unfold add_known. revert p.
  induction include as [|[a b] include IH]; intros p; simpl; [auto|].
  intros H. apply IH in H. destruct H as [H|[H|H]]; [|auto|auto].
  apply set_add_In in H. destruct H as [H|H].
  - apply set_add_In in H. destruct H as [H|H]; [auto|].
    subst t. right. left. left. reflexivity.
  - subst t. right. right. left. reflexivity.
Qed.

(** X3. Whatever the constraints, every pairing that
    [_get_all_possible_pairings] returns holds each of its pairs both ways
    round, and each pair is a known pair or a pair of names of [people]
    that is not excluded and not inside an exclusive group. *)
Theorem pairings_respect_constraints (people : list name)
        (include exclude : tset) (exclusive_groups : list (list name))
        (l : list tset) :
  _get_all_possible_pairings people include exclude exclusive_groups
  = Ok l ->
  forall m, In m l ->
            forall a b, In (a, b) m ->
                        In (b, a) m /\
                        (In (a, b) include \/ In (b, a) include \/
                         (In a people /\ In b people /\
                          allowed exclude exclusive_groups a b)).
Proof.
  unfold _get_all_possible_pairings.
  destruct people as [|p0 people'];
    [intros H; inversion H; subst; intros m []|].
  set (people := p0 :: people'). change (length people) with (S (length people')).
  rewrite pairings_fuel_S.
  change (length people =? 0)%nat with false. cbv iota.
  destruct (remove_known people people include) as [clone0| |] eqn:Er;
    cbn [bind]; try discriminate.
  destruct clone0 as [|x clone]; cbn [pop bind fst snd]; [discriminate|].
  destruct (foldM _ _ _) as [pairings| |] eqn:E; cbn [bind];
    try discriminate.
  intros H; inversion H; subst. clear H.
  intros m Hm a b Hab. apply in_map_iff in Hm. destruct Hm as (s & <- & Hs).
  assert (Hsound : Forall (sound_pairing (x :: clone) exclude
                                         exclusive_groups) pairings).
  { apply (partner_rounds_sound
             exclude exclusive_groups
             (fun next_group =>
                pairings_fuel (length people') next_group [] exclude
                              exclusive_groups)
             (pairings_fuel_sound exclude exclusive_groups (length people'))
             x clone (seq 0 (length clone)) [] pairings);
      [constructor | exact E]. }
  rewrite Forall_forall in Hsound. specialize (Hsound s Hs).
  destruct (add_known_inv _ _ _ Hab) as [H|[H|H]].
  - destruct (Hsound a b H) as (H1 & H2 & H3 & H4). split.
    + apply add_known_keeps. exact H1.
    + right. right.
      split; [|split; [|exact H4]];
        apply (remove_known_incl _ _ _ _ Er); assumption.
  - split; [|auto]. apply add_known_In. exact H.
  - simpl in H. split; [|auto].
    apply (add_known_In include s b a H).
Qed.

Lemma pairings_respect_constraints_witness :
  In ("B", "A")%string [("A", "B"); ("B", "A")]%string /\
  (In ("A", "B")%string [] \/ In ("B", "A")%string [] \/
   (In "A"%string ["A"; "B"; "C"; "D"]%string /\
    In "B"%string ["A"; "B"; "C"; "D"]%string /\
    allowed [("C", "D")]%string [] "A"%string "B"%string)).
Proof.
  apply (pairings_respect_constraints
           ["A"; "B"; "C"; "D"]%string [] [("C", "D")]%string []
           [[("A", "B"); ("B", "A")];
            [("B", "D"); ("D", "B"); ("A", "C"); ("C", "A")];
            [("B", "C"); ("C", "B"); ("A", "D"); ("D", "A")]]%string
           eq_refl [("A", "B"); ("B", "A")]%string).
  - left; reflexivity.
  - left; reflexivity.
Defined.

(** ** Every name in a known pair *)

Lemma list_remove_perm (x : name) (l : list name) :
  In x l -> exists l', list_remove x l = Ok l' /\ Permutation l (x :: l').
Proof.
  induction l as [|z l IH]; simpl; [tauto|].
  intros H. destruct (name_eqb x z) eqn:E.
  - apply name_eqb_eq in E. subst z. exists l. split; [reflexivity|].
    apply Permutation_refl.
  - apply name_eqb_neq in E. destruct H as [H|H]; [congruence|].
    destruct (IH H) as (l' & El & P). rewrite El. simpl.
    exists (z :: l'). split; [reflexivity|].
    eapply Permutation_trans; [apply perm_skip; exact P | apply perm_swap].
Qed.

Lemma remove_known_all (people : list name) (include : tset) :
  forall clone,
    NoDup clone -> Permutation clone (names_of include) ->
    (forall y, In y clone -> In y people) ->
    remove_known people clone include = Ok [].
Proof.
  induction include as [|[a b] include IH]; intros clone Hnd P Hin; simpl.
  - apply Permutation_sym, Permutation_nil in P. subst. reflexivity.
  - simpl in P.
    assert (Ha : In a clone)
      by (eapply Permutation_in; [apply Permutation_sym; exact P|];
          left; reflexivity).
    assert (Hb : In b clone)
      by (eapply Permutation_in; [apply Permutation_sym; exact P|];
          right; left; reflexivity).
    assert (Hnd' : NoDup (a :: b :: names_of include))
      by (eapply Permutation_NoDup; eauto).
    assert (Hab : a <> b).
    { inversion Hnd' as [|? ? Hn _]; subst. intros ->. apply Hn.
      left; reflexivity. }
    rewrite (proj2 (mem_In a clone) Ha).
    destruct (list_remove_perm a clone Ha) as (c1 & E1 & P1).
    rewrite E1. cbn [bind].
    rewrite (proj2 (mem_In b people) (Hin b Hb)).
    assert (Hb1 : In b c1).
    { apply (Permutation_in _ P1) in Hb. destruct Hb; [congruence|auto]. }
    destruct (list_remove_perm b c1 Hb1) as (c2 & E2 & P2).
    rewrite E2. cbn [bind].
    assert (P12 : Permutation clone (a :: b :: c2)).
    { eapply Permutation_trans; [exact P1|]. apply perm_skip. exact P2. }
    apply IH.
    + apply (Permutation_NoDup P12) in Hnd.
      inversion Hnd as [|? ? _ Hnd1]; subst.
      inversion Hnd1; assumption.
    + apply (Permutation_cons_inv (a := b)).
      apply (Permutation_cons_inv (a := a)).
      eapply Permutation_trans; [apply Permutation_sym; exact P12 | exact P].
    + intros y Hy. apply Hin.
      eapply Permutation_in; [apply Permutation_sym; exact P12|].
      right; right; exact Hy.
Qed.

(** X4. When the known pairs hold every name exactly once,
    [_get_all_possible_pairings] raises [IndexError] instead of returning
    the one pairing that is known, in whatever order the known pairs are
    iterated. *)
Theorem all_known_raises (people : list name) (include exclude : tset)
        (exclusive_groups : list (list name)) :
  people <> [] -> NoDup people -> Permutation people (names_of include) ->
  _get_all_possible_pairings people include exclude exclusive_groups
  = Raise IndexError.
Proof.
  intros Hne Hnd P.
  pose proof (pairings_outcome people include exclude exclusive_groups Hne)
    as H.
  rewrite (remove_known_all people include people Hnd P (fun y Hy => Hy))
    in H.
  exact H.
Qed.

Lemma all_known_raises_witness :
  _get_all_possible_pairings ["A"; "B"; "C"; "D"]%string
                             [("D", "A"); ("B", "C")]%string [] []
  = Raise IndexError.
Proof.
  apply all_known_raises.
  - discriminate.
  - repeat constructor; simpl; intuition discriminate.
  - simpl.
    apply Permutation_trans with ["D"; "A"; "B"; "C"]%string.
    + change ["A"; "B"; "C"; "D"]%string
        with (["A"; "B"; "C"]%string ++ ["D"]%string).
      apply Permutation_app_comm.
    + apply Permutation_refl.
Defined.

(** ** Without constraints: every perfect matching, once *)

(** X1. On [2 * (h + 1)] distinct names and without constraints,
    [_get_all_possible_pairings] returns [(2h + 1) * (2h - 1) * ... * 1]
    pairings: they are perfect matchings of the names, no two of them
    agree, and every perfect matching of the names agrees with one of
    them.  As dictionaries they are the same lists. *)
Theorem unconstrained_pairings_enumerated (people : list name) (h : nat) :
  NoDup people -> length people = (2 * S h)%nat ->
  exists l,
    _get_all_possible_pairings people [] [] [] = Ok l /\
    length l = matchings_count (S h) /\
    Forall (perfect_matching people) l /\
    distinct l /\
    complete people l /\
    map dict_of l = l.
Proof.
  intros Hnd Hlen.
  destruct (pairings_enumerate people h Hnd Hlen)
    as (l & E & Hcount & Hall & Hdis & Hcomp).
  exists l. repeat split; auto.
  rewrite <- (map_id l) at 2. apply map_ext_in. intros s Hs.
  rewrite Forall_forall in Hall.
  apply (dict_of_perfect people). apply Hall, Hs.
Qed.

Lemma unconstrained_pairings_enumerated_witness :
  exists l,
    _get_all_possible_pairings ["A"; "B"; "C"; "D"]%string [] [] [] = Ok l /\
    length l = matchings_count 2 /\
    Forall (perfect_matching ["A"; "B"; "C"; "D"]%string) l /\
    distinct l /\
    complete ["A"; "B"; "C"; "D"]%string l /\
    map dict_of l = l.
Proof.
  apply (unconstrained_pairings_enumerated ["A"; "B"; "C"; "D"]%string 1).
  - repeat constructor; simpl; intuition discriminate.
  - reflexivity.
Defined.

(** ** One known pair *)

Lemma perfect_matching_ext (names names' : list name) (d : dict) :
  (forall x, In x names <-> In x names') ->
  perfect_matching names d -> perfect_matching names' d.
Proof.
  intros Hi (H1 & H2 & H3 & H4). repeat split; auto.
  - intros H. apply Hi, H2, H.
  - intros H. apply H2, Hi, H.
Qed.

(** X2. With one known pair of two distinct names among [2 * (h + 2)] distinct
    names, and no other constraint, [_get_all_possible_pairings] returns
    the perfect matchings of the names that pair the two, each once. *)
Theorem one_known_pair_enumerated (people : list name) (a b : name)
        (h : nat) :
  NoDup people -> length people = (2 * S (S h))%nat ->
  In a people -> In b people -> a <> b ->
  exists l,
    _get_all_possible_pairings people [(a, b)] [] [] = Ok l /\
    length l = matchings_count (S h) /\
    map dict_of l = l /\
    (forall m, In m l -> perfect_matching people m /\ lookup m a = Some b) /\
    distinct l /\
    (forall M, perfect_matching people M -> lookup M a = Some b ->
               exists m, In m l /\ agree m M).
Proof.
  intros Hnd Hlen Ha Hb Hab.
  destruct (list_remove_perm a people Ha) as (c1 & E1 & P1).
  assert (Hb1 : In b c1).
  { apply (Permutation_in _ P1) in Hb. destruct Hb; [congruence|auto]. }
  destruct (list_remove_perm b c1 Hb1) as (c2 & E2 & P2).
  assert (P : Permutation people (a :: b :: c2)).
  { eapply Permutation_trans; [exact P1|]. apply perm_skip. exact P2. }
  assert (Hnd3 : NoDup (a :: b :: c2)) by (eapply Permutation_NoDup; eauto).
  assert (Hnd2 : NoDup c2).
  { inversion Hnd3 as [|? ? _ H]; subst. inversion H; assumption. }
  assert (Hlen2 : length c2 = (2 * S h)%nat).
  { apply Permutation_length in P. simpl in P. lia. }
  assert (Hmem : forall x, In x (a :: b :: c2) <-> In x people).
  { intros x. split; apply Permutation_in;
      [apply Permutation_sym; exact P | exact P]. }
  assert (Er : remove_known people people [(a, b)] = Ok c2).
  { simpl. rewrite (proj2 (mem_In a people) Ha), E1. cbn [bind].
    rewrite (proj2 (mem_In b people) Hb), E2. reflexivity. }
  destruct people as [|p0 people'] eqn:Ep; [destruct Ha|].
  rewrite <- Ep in *.
  assert (Hn : length people = S (length people')) by (subst; reflexivity).
  destruct (pairings_fuel_enumerates (S (length people')) c2 (S h)
                                     Hnd2 Hlen2 ltac:(lia))
    as (l0 & E0 & _ & Hen).
  destruct c2 as [|x clone] eqn:Ec; [simpl in Hlen2; lia|].
  rewrite <- Ec in *.
  unfold read_as in Hen. rewrite Ec in Hen. rewrite <- Ec in Hen.
  destruct Hen as (Hcount & Hall & Hdis & Hcomp).
  rewrite Forall_forall in Hall.
  assert (Hfresh : forall s, In s l0 ->
                             ~ In a (keys s) /\ ~ In b (keys s)).
  { intros s Hs.
    apply (take_pair_fresh a b (b :: c2) c2 Hnd3 (Permutation_refl _)).
    apply Hall, Hs. }
  assert (Result :
            _get_all_possible_pairings people [(a, b)] [] []
            = Ok (map (with_pair a b) l0)).
  { unfold _get_all_possible_pairings. rewrite Hn, pairings_fuel_S.
    assert (E : (length people =? 0)%nat = false)
      by (rewrite Hn; reflexivity).
    rewrite E, Er. cbn [bind].
    rewrite pairings_fuel_S in E0.
    assert (E' : (length c2 =? 0)%nat = false)
      by (rewrite Ec; reflexivity).
    rewrite E' in E0. cbn [remove_known bind] in E0.
    destruct (pop 0 c2) as [fc| |]; cbn [bind] in E0 |- *;
      try discriminate.
    destruct (foldM _ _ _) as [pairings| |]; cbn [bind] in E0 |- *;
      try discriminate.
    inversion E0 as [E0']. clear E0.
    assert (Hid : map (add_known []) pairings = pairings).
    { rewrite <- (map_id pairings) at 2. apply map_ext.
      intros s. reflexivity. }
    rewrite Hid in *. subst pairings. f_equal. apply map_ext_in.
    intros s Hs.
    destruct (Hfresh s Hs) as (Hfa & Hfb).
    unfold add_known. simpl. apply set_add_pair; assumption. }
  exists (map (with_pair a b) l0). split; [exact Result|].
  assert (Hpm : forall s, In s l0 ->
                          perfect_matching people (with_pair a b s)).
  { intros s Hs. apply (perfect_matching_ext (a :: b :: c2)); [exact Hmem|].
    apply (with_pair_perfect a b (b :: c2) c2 Hnd3 (Permutation_refl _)).
    apply Hall, Hs. }
  split; [rewrite length_map; exact Hcount|]. split; [|split; [|split]].
  - rewrite <- (map_id (map (with_pair a b) l0)) at 2.
    apply map_ext_in. intros m Hm. apply in_map_iff in Hm.
    destruct Hm as (s & <- & Hs).
    apply (dict_of_perfect people). apply Hpm, Hs.
  - intros m Hm. apply in_map_iff in Hm. destruct Hm as (s & <- & Hs).
    split; [apply Hpm, Hs|].
    destruct (Hfresh s Hs). rewrite lookup_with_pair by assumption.
    rewrite name_eqb_refl. reflexivity.
  - apply distinct_with_pair; [exact Hfresh | exact Hdis].
  - intros M HM HMa.
    apply (perfect_matching_ext people (a :: b :: c2)) in HM;
      [|intros y; symmetry; apply Hmem].
    destruct (without_pair_perfect a b (b :: c2) c2 Hnd3
                                   (Permutation_refl _) M HM HMa)
      as (Hw & Hag).
    destruct (Hcomp _ Hw) as (s & Hs & Hsw).
    exists (with_pair a b s). split; [apply in_map; exact Hs|].
    intros k. rewrite <- (Hag k).
    destruct (Hfresh s Hs).
    destruct (take_pair_fresh a b (b :: c2) c2 Hnd3 (Permutation_refl _)
                              _ Hw).
    rewrite !lookup_with_pair by assumption.
    rewrite (Hsw k). reflexivity.
Qed.

Lemma one_known_pair_enumerated_witness :
  exists l,
    _get_all_possible_pairings ["A"; "B"; "C"; "D"]%string
                               [("A", "B")]%string [] [] = Ok l /\
    length l = matchings_count 1 /\
    map dict_of l = l /\
    (forall m, In m l ->
               perfect_matching ["A"; "B"; "C"; "D"]%string m /\
               lookup m "A"%string = Some "B"%string) /\
    distinct l /\
    (forall M, perfect_matching ["A"; "B"; "C"; "D"]%string M ->
               lookup M "A"%string = Some "B"%string ->
               exists m, In m l /\ agree m M).
Proof.
  apply (one_known_pair_enumerated ["A"; "B"; "C"; "D"]%string
                                   "A"%string "B"%string 0).
  - repeat constructor; simpl; intuition discriminate.
  - reflexivity.
  - left; reflexivity.
  - right; left; reflexivity.
  - discriminate.
Defined.

(** ** The pairings that [current_possibilities] keeps *)

Lemma filterM_exact_loop {A : Type} (F : A -> result bool)
      (l acc res : list A) :
  foldM (fun weeded p => do b <- F p; Ok (if b then weeded ++ [p] else weeded))
        l acc = Ok res ->
  forall p, In p res <-> In p acc \/ (In p l /\ F p = Ok true).
Proof.
  revert acc. induction l as [|q l IH]; intros acc; simpl.
  - intros H; inversion H; subst. intros p. tauto.
  - destruct (F q) as [b| |] eqn:Eq; simpl; try discriminate.
    intros H p. rewrite (IH _ H p). destruct b.
    + rewrite in_app_iff. simpl. split.
      * intros [[Hp|[<-|[]]]|(Hp & HF)]; auto.
      * intros [Hp|([<-|Hp] & HF)]; auto.
    + split.
      * intros [Hp|(Hp & HF)]; auto.
      * intros [Hp|([<-|Hp] & HF)]; auto. congruence.
Qed.

Lemma filterM_exact {A : Type} (F : A -> result bool) (l res : list A) :
  filterM F l = Ok res ->
  forall p, In p res <-> In p l /\ F p = Ok true.
Proof.
  intros H p. unfold filterM in H.
  rewrite (filterM_exact_loop F l [] res H p). simpl. tauto.
Qed.

Lemma weeks_loop_exact {A W : Type} (F : W -> A -> result bool)
      (ws : list W) :
  forall (pd res : list A),
    foldM (fun pd w => filterM (F w) pd) ws pd = Ok res ->
    forall p, In p res <->
              In p pd /\ forall w, In w ws -> F w p = Ok true.
Proof.
  induction ws as [|w ws IH]; intros pd res; simpl.
  - intros H; inversion H; subst. intros p. split; [|tauto].
    intros Hp. split; [exact Hp|]. intros w [].
  - destruct (filterM (F w) pd) as [pd1| |] eqn:E1; simpl; try discriminate.
    intros H p. rewrite (IH _ _ H p). rewrite (filterM_exact _ _ _ E1 p).
    split.
    + intros ((Hp & HF) & Hall). split; [exact Hp|].
      intros w' [<-|Hw']; auto.
    + intros (Hp & Hall). split; [split|]; auto.
Qed.

Lemma in_combine_seq {A : Type} (l : list A) :
  forall (s i : nat) (x : A),
    In (i, x) (combine (seq s (length l)) l) <->
    (s <= i)%nat /\ nth_error l (i - s) = Some x.
Proof.
  induction l as [|y l IH]; intros s i x; simpl.
  - split; [tauto|]. intros (_ & H). destruct (i - s)%nat; discriminate.
  - rewrite IH. split.
    + intros [H|(Hle & Hn)].
      * inversion H; subst. split; [lia|]. rewrite Nat.sub_diag. reflexivity.
      * split; [lia|]. replace (i - s)%nat with (S (i - S s)) by lia.
        exact Hn.
    + intros (Hle & Hn). destruct (Nat.eq_dec i s) as [->|Hne].
      * rewrite Nat.sub_diag in Hn. simpl in Hn. inversion Hn. left.
        reflexivity.
      * right. split; [lia|].
        replace (i - s)%nat with (S (i - S s)) in Hn by lia. exact Hn.
Qed.

Lemma in_enumerate {A : Type} (l : list A) (i : nat) (x : A) :
  In (i, x) (enumerate l) <-> nth_error l i = Some x.
Proof.
  unfold enumerate. rewrite in_combine_seq. rewrite Nat.sub_0_r.
  split; [tauto | intros H; split; [lia | exact H]].
Qed.

Lemma week_test_true (lights : list Z) (iw : nat * dict) (p : dict) :
  (do l <- index lights (fst iw); _correct_number (snd iw) p l) = Ok true <->
  exists l, nth_error lights (fst iw) = Some l /\
            _get_lights (snd iw) p = Ok l.
Proof.
  unfold index, _correct_number.
  destruct (nth_error lights (fst iw)) as [l|]; simpl.
  - destruct (_get_lights (snd iw) p) as [x| |]; simpl.
    + split.
      * intros H. inversion H as [H']. apply Z.eqb_eq in H'. subst.
        eauto.
      * intros (l' & H1 & H2). inversion H1; inversion H2; subst.
        rewrite Z.eqb_refl. reflexivity.
    + split; [discriminate | intros (l' & _ & H); discriminate].
    + split; [discriminate | intros (l' & _ & H); discriminate].
  - split; [discriminate | intros (l' & H & _); discriminate].
Qed.

(** X15. When [current_possibilities] returns, it returns exactly the generated
    pairings whose lights against each week's dictionary (as the call
    leaves it) are the lights observed that week. *)
Theorem possibilities_match_evidence (names : list name)
        (weekly_pairings : list dict) (lights : list Z)
        (not_match match_ : list tuple)
        (exclusive_groups : list (list name)) (res : list dict) :
  snd (current_possibilities names weekly_pairings lights not_match match_
                             exclusive_groups) = Ok res ->
  exists pairings,
    _get_all_possible_pairings names (set_of_list match_)
                               (set_of_list not_match) exclusive_groups
    = Ok pairings /\
    forall p,
      In p res <->
      In p (map dict_of pairings) /\
      forall idx week,
        nth_error (fst (current_possibilities names weekly_pairings lights
                                              not_match match_
                                              exclusive_groups)) idx
        = Some week ->
        exists l, nth_error lights idx = Some l /\
                  _get_lights week p = Ok l.
Proof.
  unfold current_possibilities.
  destruct (_validate_pairing_inputs names weekly_pairings lights not_match
                                     match_ exclusive_groups) as [w r].
  cbn [fst snd]. destruct r as [[]| |]; cbn [bind]; try discriminate.
  destruct (_get_all_possible_pairings _ _ _ _) as [pairings| |];
    cbn [bind]; try discriminate.
  intros H. exists pairings. split; [reflexivity|]. intros p.
  rewrite (weeks_loop_exact
             (fun (iw : nat * dict) p =>
                do l <- index lights (fst iw); _correct_number (snd iw) p l)
             (enumerate w) _ _ H p).
  split; intros (Hp & Hall); split; auto.
  - intros idx week Hw. apply in_enumerate in Hw.
    apply (week_test_true lights (idx, week) p). exact (Hall _ Hw).
  - intros [idx week] Hw. apply in_enumerate in Hw.
    apply week_test_true. exact (Hall idx week Hw).
Qed.

Lemma possibilities_match_evidence_witness :
  exists pairings,
    _get_all_possible_pairings ["A"; "B"; "C"; "D"]%string
                               (set_of_list []) (set_of_list []) []
    = Ok pairings /\
    forall p,
      In p [[("B", "D"); ("D", "B"); ("A", "C"); ("C", "A")];
            [("B", "C"); ("C", "B"); ("A", "D"); ("D", "A")]]%string <->
      In p (map dict_of pairings) /\
      forall idx week,
        nth_error (fst (current_possibilities
                          ["A"; "B"; "C"; "D"]%string
                          [[("A", "B"); ("C", "D")]%string] [0] [] [] []))
                  idx = Some week ->
        exists l, nth_error [0] idx = Some l /\ _get_lights week p = Ok l.
Proof.
  apply (possibilities_match_evidence
           ["A"; "B"; "C"; "D"]%string [[("A", "B"); ("C", "D")]%string]
           [0] [] [] []).
  reflexivity.
Defined.

(** ** Names given twice *)

Lemma dedup_loop_length (l acc : list name) :
  (length (fold_left (fun acc x => if mem x acc then acc else acc ++ [x])
                     l acc)
   <= length acc + length l)%nat.
Proof.
  revert acc. induction l as [|x l IH]; intros acc; simpl; [lia|].
  destruct (mem x acc).
  - specialize (IH acc). lia.
  - specialize (IH (acc ++ [x])). rewrite length_app in IH. simpl in IH. lia.
Qed.

Lemma dedup_loop_NoDup (l acc : list name) :
  NoDup acc ->
  length (fold_left (fun acc x => if mem x acc then acc else acc ++ [x])
                    l acc)
  = (length acc + length l)%nat ->
  NoDup (acc ++ l).
Proof.
  revert acc. induction l as [|x l IH]; intros acc Hnd; simpl.
  - intros _. rewrite app_nil_r. exact Hnd.
  - destruct (mem x acc) eqn:E.
    + pose proof (dedup_loop_length l acc). lia.
    + intros H.
      assert (Hx : ~ In x acc)
        by (intros Hc; apply mem_In in Hc; congruence).
      replace (acc ++ x :: l) with ((acc ++ [x]) ++ l)
        by (rewrite <- app_assoc; reflexivity).
      apply IH.
      * apply NoDup_app; [exact Hnd | constructor; [tauto|constructor] |].
        intros y Hy [<-|[]]. contradiction.
      * rewrite length_app. simpl. lia.
Qed.

(** X17. When a name is given twice (and there is a number of lights for every
    week), [current_possibilities] raises the [ValueError] for names that
    are not unique, and has not touched [weekly_pairings]. *)
Theorem duplicate_names_rejected (names : list name)
        (weekly_pairings : list dict) (lights : list Z)
        (not_match match_ : list tuple)
        (exclusive_groups : list (list name)) :
  length weekly_pairings = length lights ->
  ~ NoDup names ->
  current_possibilities names weekly_pairings lights not_match match_
                        exclusive_groups
  = (weekly_pairings, Raise (ValueError "All names must be unique")).
Proof.
  intros Hlen Hdup. unfold current_possibilities, _validate_pairing_inputs.
  rewrite Hlen, Nat.eqb_refl. cbn [negb].
  destruct (length (dedup names) =? length names)%nat eqn:E;
    [|reflexivity].
  exfalso. apply Hdup. apply Nat.eqb_eq in E.
  apply (dedup_loop_NoDup names []); [constructor | exact E].
Qed.

Lemma duplicate_names_rejected_witness :
  current_possibilities ["a"; "b"; "a"]%string [] [] [] [] []
  = ([], Raise (ValueError "All names must be unique")).
Proof.
  apply duplicate_names_rejected; [reflexivity|].
  intros H. inversion H as [|? ? Hn _]; subst. apply Hn.
  right; left; reflexivity.
Defined.

(** ** Probabilities *)

Lemma probability_hits (pairings : list dict) (a b : name) (hits : Z) :
  (forall p, In p pairings -> In a (keys p)) ->
  foldM (fun hits p =>
           do v <- dict_get p a;
           Ok (hits + (if name_eqb v b then 1 else 0)))
        pairings hits
  = Ok (hits + Z.of_nat (length (filter (partner_is a b) pairings))).
Proof.
  revert hits. induction pairings as [|p pairings IH]; intros hits Hk.
  - simpl. f_equal. lia.
  - destruct (lookup_keys_some p a (Hk p (or_introl eq_refl))) as (v & Hv).
    cbn [foldM]. rewrite (dict_get_ok _ _ _ Hv). cbn [bind].
    rewrite IH by (intros; apply Hk; right; assumption).
    cbn [filter]. unfold partner_is at 2. rewrite Hv.
    destruct (name_eqb v b); cbn [length]; f_equal; lia.
Qed.

Lemma probability_of_count (first : dict) (rest : list dict) (a b : name) :
  (forall p, In p (first :: rest) -> In a (keys p)) ->
  probability_of (first :: rest) a b
  = Ok (Qmake (Z.of_nat (length (filter (partner_is a b) (first :: rest))))
              (Pos.of_succ_nat (length rest))).
Proof.
  intros Hk. unfold probability_of.
  rewrite (probability_hits (first :: rest) a b 0 Hk). reflexivity.
Qed.

(** X18. On a list that is not empty and whose pairings all have the key [a],
    [probability_of] returns a number from 0 to 1. *)
Theorem probability_of_bounds (pairings : list dict) (a b : name) :
  pairings <> [] ->
  (forall p, In p pairings -> In a (keys p)) ->
  exists q, probability_of pairings a b = Ok q /\ (0 <= q <= 1)%Q.
Proof.
  intros Hne Hk. destruct pairings as [|first rest]; [congruence|].
  rewrite (probability_of_count first rest a b Hk).
  eexists. split; [reflexivity|].
  pose proof (filter_length_le (partner_is a b) (first :: rest)) as Hle.
  unfold Qle. cbn [Qnum Qden]. rewrite Zpos_P_of_succ_nat.
  cbn [length] in Hle. split; lia.
Qed.

Lemma probability_of_bounds_witness :
  exists q, probability_of abcd_pairings "A"%string "B"%string = Ok q /\
            (0 <= q <= 1)%Q.
Proof.
  apply probability_of_bounds.
  - discriminate.
  - intros p [<-|[<-|[<-|[]]]]; simpl; tauto.
Defined.

(** X19. When a pairing of the list lacks the key [a], [probability_of] raises
    [KeyError], also on a list where other pairings have it. *)
Theorem probability_of_missing_key (pairings : list dict) (a b : name) :
  (exists p, In p pairings /\ ~ In a (keys p)) ->
  probability_of pairings a b = Raise (KeyError a).
Proof.
  intros (p0 & Hp0 & Hna). unfold probability_of.
  assert (H : forall hits,
             foldM (fun hits p =>
                      do v <- dict_get p a;
                      Ok (hits + (if name_eqb v b then 1 else 0)))
                   pairings hits = Raise (KeyError a)).
  { induction pairings as [|p pairings IH]; [destruct Hp0|].
    intros hits. cbn [foldM]. unfold dict_get at 1.
    destruct (lookup p a) as [v|] eqn:E; cbn [bind]; [|reflexivity].
    apply IH. destruct Hp0 as [->|H]; [|exact H].
    exfalso. apply Hna. apply lookup_keys. congruence. }
  rewrite H. reflexivity.
Qed.

Lemma probability_of_missing_key_witness :
  probability_of [[("A", "B"); ("B", "A")]; [("C", "D")]]%string
                 "A"%string "B"%string
  = Raise (KeyError "A"%string).
Proof.
  apply probability_of_missing_key.
  exists [("C", "D")]%string. split; [right; left; reflexivity|].
  simpl. intuition discriminate.
Defined.

Lemma partner_is_sym (a b : name) (p : dict) :
  symmetric p -> In a (keys p) -> In b (keys p) ->
  partner_is a b p = partner_is b a p.
Proof.
  intros Hs Ha Hb. unfold partner_is.
  destruct (lookup_keys_some p a Ha) as (v & Hv).
  destruct (lookup_keys_some p b Hb) as (w & Hw).
  rewrite Hv, Hw.
  destruct (name_eqb v b) eqn:E1, (name_eqb w a) eqn:E2; try reflexivity.
  - apply name_eqb_eq in E1. subst v. apply Hs in Hv.
    rewrite Hv in Hw. inversion Hw; subst. rewrite name_eqb_refl in E2.
    discriminate.
  - apply name_eqb_eq in E2. subst w. apply Hs in Hw.
    rewrite Hw in Hv. inversion Hv; subst. rewrite name_eqb_refl in E1.
    discriminate.
Qed.

(** X20. On symmetric pairings that all have the keys [a] and [b], the
    probability of [a] with [b] is the probability of [b] with [a]. *)
Theorem probability_of_symmetric (pairings : list dict) (a b : name) :
  (forall p, In p pairings ->
             symmetric p /\ In a (keys p) /\ In b (keys p)) ->
  probability_of pairings a b = probability_of pairings b a.
Proof.
  intros H. destruct pairings as [|first rest]; [reflexivity|].
  rewrite (probability_of_count first rest a b) by (intros; apply H; auto).
  rewrite (probability_of_count first rest b a) by (intros; apply H; auto).
  do 3 f_equal. f_equal. apply filter_ext_in. intros p Hp.
  destruct (H p Hp) as (Hs & Ha & Hb). apply partner_is_sym; assumption.
Qed.

Lemma probability_of_symmetric_witness :
  probability_of abcd_pairings "A"%string "C"%string
  = probability_of abcd_pairings "C"%string "A"%string.
Proof.
  apply probability_of_symmetric.
  intros p [<-|[<-|[<-|[]]]]; (split; [|split; simpl; tauto]);
    intros x y; simpl;
    repeat (match goal with
            | |- context [name_eqb x ?s] =>
                let E := fresh "E" in
                destruct (name_eqb x s) eqn:E;
                [apply name_eqb_eq in E; subst x|]
            end);
    intros Hxy; inversion Hxy; subst; reflexivity.
Defined.

(** ** The matrix of probabilities *)

Lemma mapM_loop {A B : Type} (f : A -> result B) (g : A -> B)
      (l : list A) (acc : list B) :
  (forall x, In x l -> f x = Ok (g x)) ->
  foldM (fun acc x => do y <- f x; Ok (acc ++ [y])) l acc
  = Ok (acc ++ map g l).
Proof.
  revert acc. induction l as [|x l IH]; intros acc H; simpl.
  - rewrite app_nil_r. reflexivity.
  - rewrite (H x (or_introl eq_refl)). simpl.
    rewrite IH by (intros; apply H; right; assumption).
    rewrite <- app_assoc. reflexivity.
Qed.

Lemma mapM_map {A B : Type} (f : A -> result B) (g : A -> B) (l : list A) :
  (forall x, In x l -> f x = Ok (g x)) -> mapM f l = Ok (map g l).
Proof. intros H. unfold mapM. rewrite (mapM_loop f g l [] H). reflexivity. Qed.

Lemma list_sum_map_add {A : Type} (f g : A -> nat) (l : list A) :
  list_sum (map (fun x => (f x + g x)%nat) l)
  = (list_sum (map f l) + list_sum (map g l))%nat.
Proof. induction l as [|x l IH]; simpl; lia. Qed.

Lemma list_sum_one (v : name) (ks : list name) :
  NoDup ks -> In v ks ->
  list_sum (map (fun b => if name_eqb v b then 1%nat else 0%nat) ks) = 1%nat.
Proof.
  induction ks as [|k ks IH]; simpl; [tauto|].
  intros Hnd Hv. inversion Hnd as [|? ? Hn Hnd']; subst.
  destruct (name_eqb v k) eqn:E.
  - apply name_eqb_eq in E. subst k.
    assert (Hz : list_sum (map (fun b => if name_eqb v b then 1%nat
                                          else 0%nat) ks) = 0%nat).
    { clear IH Hv Hnd Hnd'. induction ks as [|k ks IH]; [reflexivity|].
      simpl. destruct (name_eqb v k) eqn:E.
      - apply name_eqb_eq in E. subst k. exfalso. apply Hn. left; reflexivity.
      - apply IH. intros H. apply Hn. right; exact H. }
    rewrite Hz. reflexivity.
  - apply name_eqb_neq in E. destruct Hv as [Hv|Hv]; [congruence|].
    rewrite (IH Hnd' Hv). reflexivity.
Qed.

(** Each pairing has one partner for [a] among [ks], so the counts for the
    partners add up to the number of pairings. *)
Lemma partner_counts_sum (a : name) (ks : list name) (pairings : list dict) :
  NoDup ks ->
  (forall p, In p pairings -> exists v, lookup p a = Some v /\ In v ks) ->
  list_sum (map (fun b => length (filter (partner_is a b) pairings)) ks)
  = length pairings.
Proof.
  intros Hnd. induction pairings as [|p pairings IH]; intros H.
  - clear Hnd H. induction ks as [|k ks IHk]; simpl; auto.
  - destruct (H p (or_introl eq_refl)) as (v & Hv & Hin).
    assert (E : forall b,
               length (filter (partner_is a b) (p :: pairings))
               = ((if name_eqb v b then 1 else 0)
                  + length (filter (partner_is a b) pairings))%nat).
    { intros b. cbn [filter]. unfold partner_is at 1. rewrite Hv.
      destruct (name_eqb v b); reflexivity. }
    rewrite (map_ext _ _ E).
    rewrite (list_sum_map_add
               (fun b => if name_eqb v b then 1%nat else 0%nat)
               (fun b => length (filter (partner_is a b) pairings))).
    rewrite (list_sum_one v ks Hnd Hin).
    rewrite IH by (intros; apply H; right; assumption).
    reflexivity.
Qed.

(** X21. On a list, not empty, of perfect matchings of the same distinct names,
    [get_probability_matrix] returns one row for each key of the first
    pairing, in its order; each row has one entry for each of these keys,
    in the same order.  The entry of row [n1] at [n2] is what
    [probability_of] returns for [n1] and [n2]: the number of pairings that
    pair [n1] with [n2], divided by the number of pairings; along a row
    these numbers of pairings add up to the number of pairings. *)
Theorem probability_matrix_rows (names : list name) (pairings : list dict) :
  pairings <> [] ->
  (forall p, In p pairings -> perfect_matching names p) ->
  exists m,
    get_probability_matrix pairings = Ok m /\
    map fst m = keys (hd [] pairings) /\
    forall n1 row,
      In (n1, row) m ->
      map fst row = keys (hd [] pairings) /\
      (forall n2 q,
          In (n2, q) row ->
          probability_of pairings n1 n2 = Ok q /\
          (q == inject_Z (Z.of_nat (length (filter (partner_is n1 n2)
                                                   pairings)))
                / inject_Z (Z.of_nat (length pairings)))%Q) /\
      list_sum (map (fun n2 => length (filter (partner_is n1 n2) pairings))
                    (keys (hd [] pairings)))
      = length pairings.
Proof.
  intros Hne Hpm. destruct pairings as [|first rest]; [congruence|].
  set (pairings := first :: rest) in *.
  set (ks := keys first).
  set (N := Pos.of_succ_nat (length rest)).
  set (cell := fun n1 n2 : name =>
                 Qmake (Z.of_nat (length (filter (partner_is n1 n2)
                                                 pairings))) N).
  assert (Hfirst : perfect_matching names first)
    by (apply Hpm; left; reflexivity).
  assert (Hks : NoDup ks) by (destruct Hfirst as (H & _); exact H).
  assert (Hkeys : forall p n1, In p pairings -> In n1 ks -> In n1 (keys p)).
  { intros p n1 Hp Hn1.
    apply (perfect_matching_keys names first p Hfirst (Hpm p Hp)).
    exact Hn1. }
  assert (Hcell : forall n1 n2, In n1 ks ->
                                probability_of pairings n1 n2
                                = Ok (cell n1 n2)).
  { intros n1 n2 Hn1. unfold pairings, cell, N.
    apply probability_of_count. intros p Hp. apply Hkeys; assumption. }
  assert (Hrow : forall n1, In n1 ks ->
                   (do row <-
                       mapM (fun n2 =>
                               do pr <- probability_of pairings n1 n2;
                               Ok (n2, pr)) ks;
                    Ok (n1, row))
                   = Ok (n1, map (fun n2 => (n2, cell n1 n2)) ks)).
  { intros n1 Hn1.
    rewrite (mapM_map _ (fun n2 => (n2, cell n1 n2))); [reflexivity|].
    intros n2 _. rewrite (Hcell n1 n2 Hn1). reflexivity. }
  assert (HN : Z.of_nat (length pairings) = Zpos N).
  { unfold pairings, N. cbn [length]. rewrite Zpos_P_of_succ_nat. lia. }
  exists (map (fun n1 => (n1, map (fun n2 => (n2, cell n1 n2)) ks)) ks).
  split; [|split].
  - unfold get_probability_matrix.
    change (length pairings =? 0)%nat with false. cbv iota.
    change (index pairings 0) with (Ok first). cbn [bind]. fold ks.
    apply mapM_map. exact Hrow.
  - cbn [hd]. rewrite map_map. simpl. apply map_id.
  - intros n1 row Hin. apply in_map_iff in Hin.
    destruct Hin as (n1' & E & Hn1). inversion E; subst n1' row. clear E.
    split; [cbn [hd]; rewrite map_map; simpl; apply map_id|].
    split.
    + intros n2 q Hq. apply in_map_iff in Hq.
      destruct Hq as (n2' & E & _). inversion E; subst n2' q. clear E.
      split; [apply Hcell; exact Hn1|].
      rewrite HN. unfold cell. apply Qmake_Qdiv.
    + cbn [hd]. fold ks.
      apply (partner_counts_sum n1 ks pairings Hks).
      intros p Hp.
      destruct (lookup_keys_some p n1 (Hkeys p n1 Hp Hn1)) as (v & Hv).
      exists v. split; [exact Hv|].
      pose proof (Hpm p Hp) as (_ & Hk & Hs & _).
      destruct Hfirst as (_ & Hk1 & _).
      apply Hk1. apply Hk. apply lookup_keys. rewrite (Hs _ _ Hv).
      discriminate.
Qed.

Lemma abcd_perfect :
  forall p, In p abcd_pairings ->
            perfect_matching ["A"; "B"; "C"; "D"]%string p.
Proof.
  assert (Hnd : NoDup ["A"; "B"; "C"; "D"]%string)
    by (repeat constructor; simpl; intuition discriminate).
  destruct (pairings_enumerate ["A"; "B"; "C"; "D"]%string 1 Hnd eq_refl)
    as (l & E & _ & Hall & _).
  vm_compute in E. inversion E; subst l.
  apply Forall_forall. exact Hall.
Qed.

Lemma probability_matrix_rows_witness :
  exists m,
    get_probability_matrix abcd_pairings = Ok m /\
    map fst m = keys (hd [] abcd_pairings) /\
    forall n1 row,
      In (n1, row) m ->
      map fst row = keys (hd [] abcd_pairings) /\
      (forall n2 q,
          In (n2, q) row ->
          probability_of abcd_pairings n1 n2 = Ok q /\
          (q == inject_Z (Z.of_nat (length (filter (partner_is n1 n2)
                                                   abcd_pairings)))
                / inject_Z (Z.of_nat (length abcd_pairings)))%Q) /\
      list_sum (map (fun n2 =>
                       length (filter (partner_is n1 n2) abcd_pairings))
                    (keys (hd [] abcd_pairings)))
      = length abcd_pairings.
Proof.
  apply (probability_matrix_rows ["A"; "B"; "C"; "D"]%string abcd_pairings).
  - discriminate.
  - exact abcd_perfect.
Defined.

(** ** [average_n_guesses] *)

(** [n_guesses_draws] returns what [n_guesses] returns. *)
Lemma n_guesses_draws_value (fuel contestants : nat) (g : rng) :
  n_guesses fuel contestants g
  = (do rg <- n_guesses_draws fuel contestants g; Ok (fst rg)).
Proof.
  unfold n_guesses, n_guesses_draws. cbv zeta.
  destruct (_generate_random_pairing _ g) as [tg| |]; cbn [bind];
    try reflexivity.
  destruct (_enforce_symmetric_pairing (fst tg)) as [truth r].
  destruct r as [[]| |]; cbn [bind]; try reflexivity.
  destruct (_get_all_possible_pairings _ _ _ _) as [l| |]; cbn [bind];
    try reflexivity.
  destruct (guess_loop _ _ _ _ _) as [st| |]; cbn [bind]; try reflexivity.
  destruct (index _ _); reflexivity.
Qed.

Lemma n_guesses_draws_even (h fuel : nat) (g : rng) :
  (matchings_count (S h) <= fuel)%nat ->
  exists r g',
    n_guesses_draws fuel (2 * S h) g = Ok (r, g') /\
    0 <= r <= Z.of_nat (matchings_count (S h)) - 1.
Proof.
  intros Hfuel. unfold n_guesses_draws.
  set (names := map str (range (2 * S h))).
  assert (Hnd : NoDup names) by apply names_NoDup.
  assert (Hlen : length names = (2 * S h)%nat) by apply names_length.
  destruct (generate_random_pairing_perfect names g (S h) Hnd Hlen)
    as (truth & g1 & Et & Htruth).
  rewrite Et. cbn [bind fst snd].
  rewrite (enforce_perfect_matching names truth Htruth). cbn [bind].
  destruct (pairings_enumerate names h Hnd Hlen)
    as (l & El & Hcount & Hall & Hdis & Hcomp).
  rewrite El. cbn [bind].
  assert (Hmap : map dict_of l = l).
  { rewrite <- (map_id l) at 2. apply map_ext_in. intros s Hs.
    rewrite Forall_forall in Hall.
    apply (dict_of_perfect names). apply Hall, Hs. }
  rewrite Hmap.
  assert (Hc : candidates names truth l).
  { split; [exact Hall|]. split; [exact Hdis|]. apply Hcomp. exact Htruth. }
  destruct (guess_loop_ends names (S h) truth Hnd Hlen Htruth
                            fuel l 0 g1 Hc ltac:(lia))
    as (pd' & r & g' & Eloop & H1 & Hb & _).
  rewrite Eloop. cbn [bind fst snd].
  destruct pd' as [|p pd']; [discriminate|].
  cbn [index nth_error bind].
  exists r, g'. split; [reflexivity|]. rewrite Hcount in Hb. lia.
Qed.

Lemma average_sum_loop (h fuel : nat) (k : nat) (g : rng) :
  (matchings_count (S h) <= fuel)%nat ->
  exists total g',
    foldM (fun (tg : Z * rng) (_ : nat) =>
             do rg <- n_guesses_draws fuel (2 * S h) (snd tg);
             Ok (fst tg + fst rg, snd rg))
          (range k) (0, g) = Ok (total, g') /\
    0 <= total <= Z.of_nat k * (Z.of_nat (matchings_count (S h)) - 1).
Proof.
  intros Hfuel. unfold range.
  destruct (foldM_seq_ind
              (fun (tg : Z * rng) (_ : nat) =>
                 do rg <- n_guesses_draws fuel (2 * S h) (snd tg);
                 Ok (fst tg + fst rg, snd rg))
              (fun j tg =>
                 0 <= fst tg
                 <= Z.of_nat j * (Z.of_nat (matchings_count (S h)) - 1))
              k 0 (0, g)) as ([total g'] & E & Hb).
  - simpl. lia.
  - intros j tg _ Hj.
    destruct (n_guesses_draws_even h fuel (snd tg) Hfuel)
      as (r & g' & Er & Hr).
    rewrite Er. cbn [bind fst snd]. eexists; split; [reflexivity|].
    cbn [fst]. rewrite Nat2Z.inj_succ. nia.
  - exists total, g'. split; [exact E|]. exact Hb.
Qed.

(** X25. For an even number [2 * (h + 1)] of contestants and [n >= 1] runs,
    [average_n_guesses] returns a number from 0 to one less than the number
    of perfect matchings of the contestants. *)
Theorem average_n_guesses_bounds (h fuel : nat) (n : Z) (g : rng) :
  (matchings_count (S h) <= fuel)%nat ->
  1 <= n ->
  exists q g',
    average_n_guesses fuel (2 * S h) n g = Ok (q, g') /\
    (0 <= q <= inject_Z (Z.of_nat (matchings_count (S h)) - 1))%Q.
Proof.
  intros Hfuel Hn. unfold average_n_guesses.
  destruct (average_sum_loop h fuel (Z.to_nat n) g Hfuel)
    as (total & g' & E & Hb).
  rewrite E. cbn [bind fst snd].
  assert (En : (n =? 0) = false) by (apply Z.eqb_neq; lia).
  rewrite En. eexists; eexists; split; [reflexivity|].
  rewrite Z2Nat.id in Hb by lia.
  assert (Hpos : (0 < inject_Z n)%Q).
  { change 0%Q with (inject_Z 0). rewrite <- Zlt_Qlt. lia. }
  split.
  - apply Qle_shift_div_l; [exact Hpos|].
    rewrite Qmult_0_l. change 0%Q with (inject_Z 0). rewrite <- Zle_Qle. lia.
  - apply Qle_shift_div_r; [exact Hpos|].
    rewrite <- inject_Z_mult, <- Zle_Qle. lia.
Qed.

Lemma average_n_guesses_bounds_witness :
  exists q g',
    average_n_guesses 3 4 2 no_draw = Ok (q, g') /\
    (0 <= q <= inject_Z (Z.of_nat (matchings_count 2) - 1))%Q.
Proof.
  apply (average_n_guesses_bounds 1 3 2 no_draw); simpl; lia.
Defined.

(** With [n <= 0] no call of [n_guesses] is made, whatever the number of
    contestants: [n = 0] raises [ZeroDivisionError] and a negative [n]
    returns 0 without a draw. *)
Theorem average_n_guesses_no_run (fuel contestants : nat) (n : Z)
        (g : rng) :
  n <= 0 ->
  average_n_guesses fuel contestants n g
  = if n =? 0 then Raise ZeroDivisionError
    else Ok ((0 / inject_Z n)%Q, g).
Proof.
  intros Hn. unfold average_n_guesses.
  assert (E : Z.to_nat n = O) by lia. rewrite E. reflexivity.
Qed.

Lemma average_n_guesses_no_run_witness :
  average_n_guesses 3 3 0 no_draw = Raise ZeroDivisionError.
Proof.
  apply (average_n_guesses_no_run 3 3 0 no_draw). lia.
Defined.

(** X26. For an odd number of contestants and [n >= 1] runs,
    [average_n_guesses] raises the [IndexError] of its first run. *)
Theorem average_n_guesses_odd (fuel contestants : nat) (n : Z) (g : rng) :
  Nat.odd contestants = true -> 1 <= n ->
  average_n_guesses fuel contestants n g = Raise IndexError.
Proof.
  intros Hodd Hn. unfold average_n_guesses.
  destruct (Z.to_nat n) as [|k] eqn:E; [lia|].
  unfold range. cbn [seq foldM snd].
  assert (Er : n_guesses_draws fuel contestants g = Raise IndexError).
  { unfold n_guesses_draws. cbv zeta.
    assert (Eg : _generate_random_pairing (map str (range contestants)) g
                 = Raise IndexError)
      by (apply random_pairing_odd_raises; rewrite names_length;
          exact Hodd).
    rewrite Eg. reflexivity. }
  rewrite Er. reflexivity.
Qed.

Lemma average_n_guesses_odd_witness :
  average_n_guesses 3 3 2 no_draw = Raise IndexError.
Proof.
  apply (average_n_guesses_odd 3 3 2 no_draw); [reflexivity | lia].
Defined.

(** ** [get_optimal_pairing]: what it returns and what it draws *)

(** A loop whose every round takes [c] draws. *)
Lemma foldM_advance {A B : Type} (f : A -> B -> result A) (st : A -> rng)
      (c : nat) (l : list B) :
  (forall a x a', f a x = Ok a' ->
                  pos (st a') = (pos (st a) + c)%nat /\
                  draws (st a') = draws (st a)) ->
  forall a a', foldM f l a = Ok a' ->
               pos (st a') = (pos (st a) + length l * c)%nat /\
               draws (st a') = draws (st a).
Proof.
  intros Hstep. induction l as [|x l IH]; intros a a'; simpl.
  - intros H; inversion H; subst. split; [lia | reflexivity].
  - destruct (f a x) as [a1| |] eqn:E; simpl; try discriminate.
    intros H. destruct (IH _ _ H) as (H1 & H2).
    destruct (Hstep _ _ _ E) as (H3 & H4).
    split; [lia | congruence].
Qed.

Lemma sampled_size_draws (pairings : list dict) (p : dict)
      (n_contestants : nat) (sample : Z) (g : rng) (e : Z) (g' : rng) :
  sampled_size pairings p n_contestants sample g = Ok (e, g') ->
  pos g' = (pos g + (n_contestants / 2 + 1) * Z.to_nat sample)%nat /\
  draws g' = draws g.
Proof.
  unfold sampled_size. intros H.
  apply (foldM_advance _ (fun tg : Z * rng => snd tg) (Z.to_nat sample))
    in H.
  - cbn [snd] in H. unfold range in H. rewrite length_seq in H. exact H.
  - intros a k a'.
    destruct (foldM _ (range (Z.to_nat sample)) (0, snd a)) as [mg| |] eqn:E;
      cbn [bind]; try discriminate.
    intros E'; inversion E'; subst. cbn [snd].
    apply (foldM_advance _ (fun mg : Z * rng => snd mg) 1) in E.
    + cbn [snd] in E. unfold range in E. rewrite length_seq in E.
      rewrite Nat.mul_1_r in E. exact E.
    + intros b x b'. unfold randindex. cbn [fst snd].
      destruct (index _ _); cbn [bind]; try discriminate.
      destruct (_correct_number _ _ _); cbn [bind]; try discriminate.
      intros Eb; inversion Eb; subst. cbn [snd pos draws].
      split; [lia | reflexivity].
Qed.

(** X24. The draws of a call of [get_optimal_pairing] that returns: with a
    [sample] other than 0, [sample] draws (none for a negative one) for
    each pairing and each number of lights from 0 to half the keys of the
    first pairing; without one, or with 0, none. *)
Theorem optimal_pairing_draws (pairings : list dict) (sample : option Z)
        (g g' : rng) (r : option dict) :
  get_optimal_pairing pairings sample g = Ok (r, g') ->
  pos g' = (pos g
            + length pairings
              * (if truthy sample
                 then (length (hd [] pairings) / 2 + 1)
                      * Z.to_nat (match sample with
                                  | Some z => z
                                  | None => 0
                                  end)
                 else 0))%nat /\
  draws g' = draws g.
Proof.
  unfold get_optimal_pairing.
  destruct (length pairings <? 1)%nat; [discriminate|].
  destruct pairings as [|first rest] eqn:Ep; [discriminate|].
  rewrite <- Ep. replace (index pairings 0) with (Ok first)
    by (subst; reflexivity).
  cbn [bind hd].
  destruct (foldM _ pairings (None, None, g)) as [st| |] eqn:E;
    cbn [bind]; try discriminate.
  intros H; inversion H; subst r g'. clear H.
  apply (foldM_advance
           _ (fun st : option Z * option dict * rng => snd st)
           (if truthy sample
            then (length first / 2 + 1)
                 * Z.to_nat (match sample with
                             | Some z => z
                             | None => 0
                             end)
            else 0)%nat) in E;
    [cbn [snd] in E; rewrite Ep at 2; cbn [hd]; exact E|].
  intros a p a'. cbv zeta.
  destruct (truthy sample).
  - destruct (sampled_size _ _ _ _ _) as [[e g1]| |] eqn:Es; cbn [bind];
      try discriminate.
    apply sampled_size_draws in Es. cbn [fst snd].
    destruct (below e (fst (fst a))); intros H; inversion H; subst;
      exact Es.
  - destruct (exact_size _ _ _); cbn [bind fst snd]; try discriminate.
    destruct (below _ _); intros H; inversion H; subst; cbn [snd];
      split; (lia || reflexivity).
Qed.

Lemma optimal_pairing_draws_witness :
  pos {| draws := draws no_draw; pos := 18 |}
  = (pos no_draw
     + length abcd_pairings
       * (if truthy (Some 2%Z)
          then (length (hd [] abcd_pairings) / 2 + 1) * Z.to_nat 2%Z
          else 0))%nat /\
  draws {| draws := draws no_draw; pos := 18 |} = draws no_draw.
Proof.
  apply (optimal_pairing_draws
           abcd_pairings (Some 2) no_draw
           {| draws := draws no_draw; pos := 18 |}
           (Some [("C", "D"); ("D", "C"); ("A", "B"); ("B", "A")]%string)).
  reflexivity.
Defined.

(** X23. Whatever [sample] and the draws, a pairing that [get_optimal_pairing]
    returns is a member of the list; it never returns [None]. *)
Theorem optimal_pairing_member (pairings : list dict) (sample : option Z)
        (g g' : rng) (r : option dict) :
  get_optimal_pairing pairings sample g = Ok (r, g') ->
  exists best, r = Some best /\ In best pairings.
Proof.
  unfold get_optimal_pairing.
  destruct (length pairings <? 1)%nat; [discriminate|].
  destruct pairings as [|first rest] eqn:Ep; [discriminate|].
  rewrite <- Ep. replace (index pairings 0) with (Ok first)
    by (subst; reflexivity).
  cbn [bind].
  destruct (foldM _ pairings (None, None, g)) as [st| |] eqn:E;
    cbn [bind]; try discriminate.
  intros H; inversion H; subst r g'. clear H.
  rewrite Ep in E at 1. cbn [foldM] in E. cbv zeta in E.
  assert (Hstep : forall (a a' : option Z * option dict * rng) (p : dict)
                         (q : dict),
             (do eg <-
                 (if truthy sample
                  then sampled_size pairings p (length first)
                                    (match sample with
                                     | Some z => z
                                     | None => 0
                                     end) (snd a)
                  else do e <- exact_size pairings p (length first);
                       Ok (e, snd a));
              if below (fst eg) (fst (fst a))
              then Ok (Some (fst eg), Some p, snd eg)
              else Ok (fst (fst a), snd (fst a), snd eg)) = Ok a' ->
             snd (fst a') = Some p \/ snd (fst a') = snd (fst a)).
  { clear E. intros a a' p _.
    destruct (if truthy sample then _ else _) as [eg| |]; cbn [bind];
      try discriminate.
    destruct (below _ _); intros H; inversion H; subst; cbn [fst snd]; auto. }
  match type of E with
  | bind ?x _ = _ => destruct x as [st1| |] eqn:E1
  end; cbn [bind] in E; try discriminate.
  assert (H1 : snd (fst st1) = Some first).
  { destruct (Hstep _ _ _ first E1) as [H|H]; [exact H|].
    exfalso. revert E1. cbn [fst snd below].
    destruct (if truthy sample then _ else _) as [eg| |]; cbn [bind];
      try discriminate.
    intros H'; inversion H'; subst. discriminate. }
  revert E.
  apply (foldM_inv
           _ (fun st : option Z * option dict * rng =>
                exists best, snd (fst st) = Some best /\ In best pairings)).
  - exists first. split; [exact H1|]. rewrite Ep. left; reflexivity.
  - intros a p a' Hp (best & Hb & Hin) Ha.
    destruct (Hstep _ _ _ p Ha) as [H|H].
    + exists p. split; [exact H|]. rewrite Ep. right; exact Hp.
    + exists best. split; [congruence | exact Hin].
Qed.

Lemma optimal_pairing_member_witness :
  exists best,
    Some [("C", "D"); ("D", "C"); ("A", "B"); ("B", "A")]%string = Some best /\
    In best abcd_pairings.
Proof.
  apply (optimal_pairing_member abcd_pairings (Some 2) no_draw
                                {| draws := draws no_draw; pos := 18 |}).
  reflexivity.
Defined.

(** ** What a call that returns has checked *)

Lemma foldM_unit_all {B : Type} (F : B -> result unit) (l : list B)
      (u : unit) :
  foldM (fun (_ : unit) x => F x) l tt = Ok u ->
  forall x, In x l -> F x = Ok tt.
Proof.
  induction l as [|y l IH]; simpl; [intros _ x []|].
  destruct (F y) as [[]| |] eqn:E; simpl; try discriminate.
  intros H x [<-|Hx]; [exact E | exact (IH H x Hx)].
Qed.

Lemma known_name_test (names : list name) (a b : name) (e : exn) :
  (if negb (mem a names) || negb (mem b names) then Raise e else Ok tt)
  = Ok tt ->
  In a names /\ In b names.
Proof.
  destruct (mem a names) eqn:Ea, (mem b names) eqn:Eb; simpl;
    try discriminate.
  intros _. split; apply mem_In; assumption.
Qed.

Lemma validate_weeks_names (names : list name) (weekly_pairings : list dict) :
  forall ws', validate_weeks names weekly_pairings = (ws', Ok tt) ->
              forall week k v, In week ws' -> lookup week k = Some v ->
                               In k names /\ In v names.
Proof.
  induction weekly_pairings as [|d rest IH]; intros ws'; simpl.
  - intros H; inversion H; subst. intros week k v [].
  - destruct (_enforce_symmetric_pairing d) as [d' r].
    destruct r as [[]| |]; try (intros H; inversion H; fail).
    destruct (foldM _ (keys d') tt) as [u| |] eqn:E;
      try (intros H; inversion H; fail).
    destruct (validate_weeks names rest) as [rest' r'] eqn:Er.
    intros H; inversion H; subst. clear H.
    intros week k v [<-|Hw] Hl.
    + pose proof (foldM_unit_all
                    (fun k => do v <- dict_get d' k;
                              if negb (mem k names) || negb (mem v names)
                              then Raise
                                     (ValueError
                                        "The lights data has an unknown name")
                              else Ok tt)
                    (keys d') u E k) as Hk.
      assert (Hin : In k (keys d')) by (apply lookup_keys; congruence).
      specialize (Hk Hin). cbv beta in Hk.
      rewrite (dict_get_ok _ _ _ Hl) in Hk. cbn [bind] in Hk.
      exact (known_name_test _ _ _ _ Hk).
    + exact (IH rest' eq_refl week k v Hw Hl).
Qed.

(** X16. When [current_possibilities] returns, there is a number of lights for
    every week, no name is given twice, and every name of a confirmed
    match or not-match, of an exclusive group and of a week's dictionary
    (as the call leaves it) is one of [names]. *)
Theorem returned_inputs_validated (names : list name)
        (weekly_pairings : list dict) (lights : list Z)
        (not_match match_ : list tuple)
        (exclusive_groups : list (list name)) (res : list dict) :
  snd (current_possibilities names weekly_pairings lights not_match match_
                             exclusive_groups) = Ok res ->
  length weekly_pairings = length lights /\
  NoDup names /\
  (forall a b, In (a, b) (not_match ++ match_) ->
               In a names /\ In b names) /\
  (forall s n, In s exclusive_groups -> In n s -> In n names) /\
  (forall week k v,
      In week (fst (current_possibilities names weekly_pairings lights
                                          not_match match_
                                          exclusive_groups)) ->
      lookup week k = Some v -> In k names /\ In v names).
Proof.
  unfold current_possibilities, _validate_pairing_inputs.
  destruct (length weekly_pairings =? length lights)%nat eqn:El;
    cbn [negb fst snd bind]; [|discriminate].
  destruct (length (dedup names) =? length names)%nat eqn:Ed;
    cbn [negb fst snd bind]; [|discriminate].
  destruct (validate_weeks names weekly_pairings) as [w r] eqn:Ew.
  cbn [fst snd].
  destruct r as [[]| |]; cbn [bind]; try discriminate.
  destruct (foldM _ (not_match ++ match_) tt) as [u1| |] eqn:E1;
    cbn [bind]; try discriminate.
  destruct (foldM _ exclusive_groups tt) as [u2| |] eqn:E2;
    cbn [bind]; try discriminate.
  intros _. split; [apply Nat.eqb_eq; exact El|]. split; [|split; [|split]].
  - apply Nat.eqb_eq in Ed.
    apply (dedup_loop_NoDup names []); [constructor | exact Ed].
  - intros a b Hab.
    pose proof (foldM_unit_all
                  (fun t : tuple =>
                     if negb (mem (fst t) names) || negb (mem (snd t) names)
                     then Raise
                            (ValueError
                               "The confirmed matches or not matches has an unknown name")
                     else Ok tt)
                  (not_match ++ match_) u1 E1 (a, b) Hab) as H.
    exact (known_name_test _ _ _ _ H).
  - intros s n Hs Hn.
    pose proof (foldM_unit_all
                  (fun s : list name =>
                     foldM (fun (_ : unit) n =>
                              if negb (mem n names)
                              then Raise
                                     (ValueError
                                        "The exclusive groups have an unknown name")
                              else Ok tt)
                           s tt)
                  exclusive_groups u2 E2 s Hs) as H.
    cbv beta in H.
    pose proof (foldM_unit_all
                  (fun n : name =>
                     if negb (mem n names)
                     then Raise
                            (ValueError
                               "The exclusive groups have an unknown name")
                     else Ok tt)
                  s tt H n Hn) as H'.
    cbv beta in H'. destruct (mem n names) eqn:En; [|discriminate].
    apply mem_In. exact En.
  - intros week k v Hw Hl.
    exact (validate_weeks_names names weekly_pairings w Ew week k v Hw Hl).
Qed.

Lemma returned_inputs_validated_witness :
  length [[("A", "B"); ("C", "D")]%string] = length [0] /\
  NoDup ["A"; "B"; "C"; "D"]%string /\
  (forall a b, In (a, b) ([] ++ []) ->
               In a ["A"; "B"; "C"; "D"]%string /\
               In b ["A"; "B"; "C"; "D"]%string) /\
  (forall s n, In s [] -> In n s -> In n ["A"; "B"; "C"; "D"]%string) /\
  (forall week k v,
      In week (fst (current_possibilities
                      ["A"; "B"; "C"; "D"]%string
                      [[("A", "B"); ("C", "D")]%string] [0] [] [] [])) ->
      lookup week k = Some v ->
      In k ["A"; "B"; "C"; "D"]%string /\ In v ["A"; "B"; "C"; "D"]%string).
Proof.
  apply (returned_inputs_validated
           ["A"; "B"; "C"; "D"]%string [[("A", "B"); ("C", "D")]%string]
           [0] [] [] []
           [[("B", "D"); ("D", "B"); ("A", "C"); ("C", "A")];
            [("B", "C"); ("C", "B"); ("A", "D"); ("D", "A")]]%string).
  reflexivity.
Defined.

(** * The weekly dictionaries after a call *)





